(** * Huffman compression tool ([cm.py]): shallow embedding and verification

    The definitions follow the source file top to bottom:
    - [Py]: the fragment of the Python runtime the program relies on
      (exceptions, insertion-ordered dictionaries, list indexing, bytes,
      the code points of characters, and the contract of [pickle]);
    - [heapq]: the binary heap of Python's standard library, as written in
      [heapq.py], over any element type with a [<] comparison;
    - the program itself: [calculate_frequencies], [build_huffman_tree],
      [generate_codes], [encode_text], [write_encoded_text], [decode_text],
      [read_encoded_text], [compress_file], [decompress_file], with the
      reading of the input text ([read_text]) and the writing of the
      output text ([write_text]);
    - [Sample]: a small serialiser that meets the contract of [pickle];
    - the vocabulary of the specification (well-formed trees, prefix-free
      tables, the heap invariant).
    The proofs come next, one section per function, then the properties
    of the specification (C1 to C10), and last their instances on the text
    "abracadabra".

    Conventions.  A Python [str] used as text is a [list Symbol] for an
    arbitrary type [Symbol] with decidable equality (the program only
    hashes and compares characters); where the text is written to a file
    the characters have their code points ([Char]).  A Python [str] used as a bit-string
    (made of the characters '0' and '1' only) is a [list bool], '1' being
    [true].  A Python [int] is a [nat] where it counts or indexes and an
    [N] where it is a byte value.  A raised exception is the [Raise]
    result. *)

From stdpp Require Import base list strings.
From Stdlib Require Import ZArith Lia Ascii.
From Stdlib Require String.

Local Open Scope nat_scope.

(** ** The Python runtime fragment *)

Module Py.

(** The exceptions the program can raise. *)
Inductive exn : Type :=
| IndexError      (* list index out of range, pop from empty list *)
| KeyError        (* missing dictionary key *)
| AttributeError  (* attribute access on None *)
| ValueError      (* int() of an empty literal, byte out of range(256) *)
| UnpicklingError (* pickle.load on bytes that are no pickle *)
| UnicodeEncodeError (* a character that the codec of a file cannot encode *)
| SystemExit (status : N) (* sys.exit(status) *).

Inductive result (A : Type) : Type :=
| Ok (a : A)
| Raise (e : exn).
Global Arguments Ok {A} a.
Global Arguments Raise {A} e.

#[global]
Instance result_ret : MRet result := λ A a, Ok a.

#[global]
Instance result_bind : MBind result := λ A B f m,
  match m with
  | Ok a => f a
  | Raise e => Raise e
  end.

(** [for x in xs: acc = f(acc, x)] where the body may raise. *)
Fixpoint foldM {A B} (f : B → A → result B) (xs : list A) (acc : B) : result B :=
  match xs with
  | [] => Ok acc
  | x :: xs' => acc' ← f acc x; foldM f xs' acc'
  end.

(** [l[i]] for [0 <= i]. *)
Definition getitem {A} (l : list A) (i : nat) : result A :=
  match l !! i with
  | Some x => Ok x
  | None => Raise IndexError
  end.

(** [l[i] = x] for [0 <= i]. *)
Definition setitem {A} (l : list A) (i : nat) (x : A) : result (list A) :=
  if decide (i < length l) then Ok (<[i := x]> l) else Raise IndexError.

(** [l.pop()]: the last element and the list without it. *)
Definition pop {A} (l : list A) : result (A * list A) :=
  match last l with
  | Some x => Ok (x, removelast l)
  | None => Raise IndexError
  end.

(** [l[i:j]] for [0 <= i <= j]: the bounds are clamped to the length. *)
Definition slice {A} (l : list A) (i j : nat) : list A := take (j - i) (drop i l).

(** [range(0, stop, step)] for [0 < step]. *)
Definition range_step (stop step : nat) : list nat :=
  (λ k, k * step) <$> seq 0 ((stop + step - 1) / step).

(** A [dict]: keys are unique and keep their insertion order. *)
Definition dict (K V : Type) : Type := list (K * V).

Section Dict.
Context {K V : Type} `{EqDecision K}.

(** [d.get(k)], [None] when the key is missing. *)
Fixpoint dict_get (d : dict K V) (k : K) : option V :=
  match d with
  | [] => None
  | (k', v) :: d' => if decide (k = k') then Some v else dict_get d' k
  end.

(** [d[k]] *)
Definition dict_getitem (d : dict K V) (k : K) : result V :=
  match dict_get d k with
  | Some v => Ok v
  | None => Raise KeyError
  end.

(** [d[k] = v]: an existing key keeps its place, a new one goes last. *)
Fixpoint dict_set (d : dict K V) (k : K) (v : V) : dict K V :=
  match d with
  | [] => [(k, v)]
  | (k', v') :: d' =>
      if decide (k = k') then (k', v) :: d' else (k', v') :: dict_set d' k v
  end.

(** [d.keys()] and [d.values()]; [d.items()] is the list itself. *)
Definition keys (d : dict K V) : list K := d.*1.

Definition values (d : dict K V) : list V := d.*2.

End Dict.

(** Bytes are the integers of [range(256)]. *)
Definition is_byte (x : N) : bool := (x <? 256)%N.

(** [bytearray(ints)] *)
Definition bytearray (ints : list N) : result (list N) :=
  if forallb is_byte ints then Ok ints else Raise ValueError.

(** The value of a string of binary digits, most significant first. *)
Definition binary_value (s : list bool) : N :=
  fold_left (λ acc (b : bool), 2 * acc + N.b2n b)%N s 0%N.

(** [int(s, 2)] for a string [s] of binary digits: the empty string is no
    literal. *)
Definition int2 (s : list bool) : result N :=
  match s with
  | [] => Raise ValueError
  | _ => Ok (binary_value s)
  end.

(** The binary digits of a positive number, most significant first. *)
Fixpoint pos_bin (p : positive) : list bool :=
  match p with
  | xH => [true]
  | xO q => pos_bin q ++ [false]
  | xI q => pos_bin q ++ [true]
  end.

(** [f'{n:b}'] *)
Definition format_b (n : N) : list bool :=
  match n with
  | N0 => [false]
  | Npos p => pos_bin p
  end.

(** [f'{n:08b}']: zero-filled on the left to a width of at least 8. *)
Definition format_08b (n : N) : list bool :=
  let digits := format_b n in
  replicate (8 - length digits) false ++ digits.

(** A character of a [str] is a code point, the number [ord] returns. *)
Class Char (Symbol : Type) : Type := ord : Symbol → N.

(** The code points U+D800 to U+DFFF are the surrogates. *)
Definition is_surrogate {Symbol : Type} `{!Char Symbol} (c : Symbol) : bool :=
  (55296 <=? ord c)%N && (ord c <=? 57343)%N.

(** The texts that the codec [utf-8] encodes: it is strict, and refuses
    the surrogates and nothing else. *)
Definition utf8_encodable {Symbol : Type} `{!Char Symbol} (text : list Symbol)
    : bool :=
  forallb (λ c, negb (is_surrogate c)) text.

(** The contract of [pickle] the program relies on: [pickle.load] reads
    back the object that [pickle.dumps] serialised, whatever follows it in
    the file, and [pickle.dumps] depends on the value of the object only. *)
Class Pickle (T : Type) : Type := {
  pickle_dumps : T → list N;
  pickle_load : list N → result T;
  pickle_load_dumps : ∀ (x : T) (rest : list N),
    pickle_load (pickle_dumps x ++ rest) = Ok x
}.

End Py.
Import Py.

(** ** [heapq]: the binary min-heap of the standard library

    Transcribed from CPython's [Lib/heapq.py].  The heap is a list that
    the functions update in place; here every function returns the new
    list.  The two [while] loops carry a bound on their iterations as
    fuel: [pos] strictly decreases in [_siftdown] and strictly increases
    below [endpos] in [_siftup], so the fuel they are called with is never
    used up ([siftdown_loop_fuel], [siftup_loop_fuel]). *)

Module heapq.
Section Heapq.
Context {A : Type} (lt : A → A → bool).

(** The loop of [_siftdown]; returns the heap and the final [pos]. *)
Fixpoint siftdown_loop (fuel : nat) (heap : list A) (startpos pos : nat)
    (newitem : A) : result (list A * nat) :=
  match fuel with
  | 0 => Ok (heap, pos)
  | S fuel' =>
      if decide (startpos < pos) then
        let parentpos := (pos - 1) / 2 in
        parent ← getitem heap parentpos;
        if lt newitem parent then
          heap' ← setitem heap pos parent;
          siftdown_loop fuel' heap' startpos parentpos newitem
        else Ok (heap, pos)
      else Ok (heap, pos)
  end.

Definition _siftdown (heap : list A) (startpos pos : nat) : result (list A) :=
  newitem ← getitem heap pos;
  '(heap', pos') ← siftdown_loop pos heap startpos pos newitem;
  setitem heap' pos' newitem.

(** The loop of [_siftup]; returns the heap and the final [pos]. *)
Fixpoint siftup_loop (fuel : nat) (heap : list A) (endpos pos : nat)
    : result (list A * nat) :=
  match fuel with
  | 0 => Ok (heap, pos)
  | S fuel' =>
      let childpos := 2 * pos + 1 in
      if decide (childpos < endpos) then
        let rightpos := childpos + 1 in
        childpos' ←
          (if decide (rightpos < endpos) then
             c ← getitem heap childpos;
             r ← getitem heap rightpos;
             Ok (if negb (lt c r) then rightpos else childpos)
           else Ok childpos);
        child ← getitem heap childpos';
        heap' ← setitem heap pos child;
        siftup_loop fuel' heap' endpos childpos'
      else Ok (heap, pos)
  end.

Definition _siftup (heap : list A) (pos : nat) : result (list A) :=
  let endpos := length heap in
  let startpos := pos in
  newitem ← getitem heap pos;
  '(heap1, pos1) ← siftup_loop endpos heap endpos pos;
  heap2 ← setitem heap1 pos1 newitem;
  _siftdown heap2 startpos pos1.

Definition heappush (heap : list A) (item : A) : result (list A) :=
  let heap' := heap ++ [item] in
  _siftdown heap' 0 (length heap' - 1).

Definition heappop (heap : list A) : result (A * list A) :=
  '(lastelt, heap1) ← pop heap;
  match heap1 with
  | _ :: _ =>
      returnitem ← getitem heap1 0;
      heap2 ← setitem heap1 0 lastelt;
      heap3 ← _siftup heap2 0;
      Ok (returnitem, heap3)
  | [] => Ok (lastelt, heap1)
  end.

Definition heapify (x : list A) : result (list A) :=
  let n := length x in
  foldM _siftup (reverse (seq 0 (n / 2))) x.

End Heapq.
End heapq.

(** ** The program *)

Section Program.
Context {Symbol : Type} `{EqDecision Symbol}.

(** [class Node]: [char] is [None] for a merged node, [left] and [right]
    are [None] until assigned. *)
#[warnings="-register-all"]
Inductive Node : Type :=
| mkNode (char : option Symbol) (freq : nat) (left right : option Node).

Definition char (n : Node) : option Symbol := let 'mkNode c _ _ _ := n in c.

Definition freq (n : Node) : nat := let 'mkNode _ f _ _ := n in f.

Definition left (n : Node) : option Node := let 'mkNode _ _ l _ := n in l.

Definition right (n : Node) : option Node := let 'mkNode _ _ _ r := n in r.

(** [Node.__lt__] *)
Definition Node_lt (self other : Node) : bool := bool_decide (freq self < freq other).

(** The body of the counting loop of [calculate_frequencies]: on a
    [defaultdict(int)], [frequencies[char] += 1] reads 0 for a missing
    key. *)
Definition count_char (frequencies : dict Symbol nat) (c : Symbol)
    : dict Symbol nat :=
  dict_set frequencies c (default 0 (dict_get frequencies c) + 1).

(** The [try] block of [calculate_frequencies]: [content] is the text that
    [file.read()] returns, [None] when [open] raises [FileNotFoundError].
    The program then prints a message and leaves with [sys.exit(1)]: the
    one failure that it reports itself, and the one exception that it
    handles. *)
Definition read_text (content : option (list Symbol)) : result (list Symbol) :=
  match content with
  | Some text => Ok text
  | None => Raise (SystemExit 1)
  end.

(** [calculate_frequencies], given the text read from the file
    ([read_text]): when the file does not exist the program prints a
    message and exits before anything below runs. *)
Definition calculate_frequencies (text : list Symbol)
    : dict Symbol nat * list Symbol :=
  let frequencies := fold_left count_char text [] in
  (frequencies, text).

(** One iteration of the [while] loop of [build_huffman_tree]. *)
Definition merge_step (heap : list Node) : result (list Node) :=
  '(left, heap1) ← heapq.heappop Node_lt heap;
  '(right, heap2) ← heapq.heappop Node_lt heap1;
  let merged := mkNode None (freq left + freq right) (Some left) (Some right) in
  heapq.heappush Node_lt heap2 merged.

(** [while len(heap) > 1]: every iteration shortens the heap by one, so
    [len(heap)] iterations are never used up ([build_loop_fuel]). *)
Fixpoint build_loop (fuel : nat) (heap : list Node) : result (list Node) :=
  match fuel with
  | 0 => Ok heap
  | S fuel' =>
      if decide (1 < length heap) then
        heap' ← merge_step heap;
        build_loop fuel' heap'
      else Ok heap
  end.

(** [Node(char, freq)] *)
Definition leaf (item : Symbol * nat) : Node :=
  mkNode (Some item.1) item.2 None None.

Definition build_huffman_tree (frequencies : dict Symbol nat) : result Node :=
  let heap := leaf <$> frequencies in
  heap ← heapq.heapify Node_lt heap;
  heap ← build_loop (length heap) heap;
  getitem heap 0.

(** [generate_codes(node, prefix, codebook)]; the dictionary is threaded
    through the two recursive calls as the code mutates it in place. *)
Fixpoint generate_codes (node : Node) (prefix : list bool)
    (codebook : dict Symbol (list bool)) : result (dict Symbol (list bool)) :=
  match node with
  | mkNode (Some c) _ _ _ => Ok (dict_set codebook c prefix)
  | mkNode None _ l r =>
      match l with
      | None => Raise AttributeError
      | Some l' =>
          codebook' ← generate_codes l' (prefix ++ [false]) codebook;
          match r with
          | None => Raise AttributeError
          | Some r' => generate_codes r' (prefix ++ [true]) codebook'
          end
      end
  end.

Definition encode_text (text : list Symbol) (codebook : dict Symbol (list bool))
    : result (list bool) :=
  codes ← mapM (dict_getitem codebook) text;
  Ok (concat codes).

(** The number of padding bits of [write_encoded_text]. *)
Definition pad_length (n : nat) : nat := (8 - n mod 8) mod 8.

(** The byte array [write_encoded_text] builds from the bit-string. *)
Definition pack (encoded_text : list bool) : result (list N) :=
  let padded_encoded_text :=
    encoded_text ++ replicate (pad_length (length encoded_text)) false in
  ints ← mapM (λ i, int2 (slice padded_encoded_text i (i + 8)))
               (range_step (length padded_encoded_text) 8);
  bytearray ints.

(** [write_encoded_text]: [file] is the content of the file before the
    call, the result its content after it (mode ['ab']). *)
Definition write_encoded_text (file : list N) (text : list Symbol)
    (codebook : dict Symbol (list bool)) : result (list N) :=
  encoded_text ← encode_text text codebook;
  byte_array ← pack encoded_text;
  Ok (file ++ byte_array).

(** [{v: k for k, v in codebook.items()}] *)
Definition reverse_codebook (codebook : dict Symbol (list bool))
    : dict (list bool) Symbol :=
  fold_left (λ d kv, dict_set d kv.2 kv.1) codebook [].

(** The body of the [for bit in encoded_text] loop of [decode_text], on
    the pair [(current_code, decoded_text)]. *)
Definition decode_step (rc : dict (list bool) Symbol)
    (st : list bool * list Symbol) (bit : bool) : list bool * list Symbol :=
  let current_code := st.1 ++ [bit] in
  match dict_get rc current_code with
  | Some c => ([], st.2 ++ [c])
  | None => (current_code, st.2)
  end.

Definition decode_text (encoded_text : list bool)
    (codebook : dict Symbol (list bool)) : list Symbol :=
  (fold_left (decode_step (reverse_codebook codebook)) encoded_text ([], [])).2.

Context `{!Pickle (dict Symbol (list bool))}.

(** [write_header]: the content of the file after the call (mode ['wb']). *)
Definition write_header (codebook : dict Symbol (list bool)) : list N :=
  pickle_dumps codebook.

Definition read_header (file : list N) : result (dict Symbol (list bool)) :=
  pickle_load file.

(** The bytes [read_encoded_text] reads after [file.seek]. *)
Definition byte_data (file : list N) (codebook : dict Symbol (list bool)) : list N :=
  drop (length (pickle_dumps codebook)) file.

Definition read_encoded_text (file : list N)
    (codebook : dict Symbol (list bool)) : list Symbol :=
  let encoded_text := byte_data file codebook ≫= format_08b in
  decode_text encoded_text codebook.

(** [compress_file]: from the text of the input file to the content of
    the output file. *)
Definition compress_file (input : list Symbol) : result (list N) :=
  let '(frequencies, text) := calculate_frequencies input in
  huffman_tree ← build_huffman_tree frequencies;
  codebook ← generate_codes huffman_tree [] [];
  write_encoded_text (write_header codebook) text codebook.

Context `{!Char Symbol}.

(** [file.write(decoded_text)] on the output file, opened with
    [encoding='utf-8']: the text that is written.  The codec raises
    [UnicodeEncodeError] when the text is not [utf8_encodable]. *)
Definition write_text (decoded_text : list Symbol) : result (list Symbol) :=
  if utf8_encodable decoded_text then Ok decoded_text
  else Raise UnicodeEncodeError.

(** [decompress_file]: from the content of the input file to the text
    written to the output file. *)
Definition decompress_file (file : list N) : result (list Symbol) :=
  codebook ← read_header file;
  let decoded_text := read_encoded_text file codebook in
  write_text decoded_text.

End Program.
Global Arguments Node Symbol : clear implicits.

(** ** A reference serialiser

    A serialiser of code tables over 8-bit characters that meets the
    [Pickle] contract: every entry is the tag 1, the character, and one
    byte (2 or 3) per bit of the code; the tag 0 ends the table.  It shows
    that the contract can be met and lets the file-level functions be
    evaluated on concrete texts. *)

Module Sample.

Definition dump_bit (b : bool) : N := if b then 3%N else 2%N.

Definition dump_entry (entry : ascii * list bool) : list N :=
  1%N :: N_of_ascii entry.1 :: (dump_bit <$> entry.2).

Definition dumps (codebook : dict ascii (list bool)) : list N :=
  (codebook ≫= dump_entry) ++ [0%N].

(** [entries] are the entries read so far, [cur] the one being read. *)
Fixpoint load_loop (bytes : list N) (entries : dict ascii (list bool))
    (cur : option (ascii * list bool)) : result (dict ascii (list bool)) :=
  match bytes with
  | [] => Raise UnpicklingError
  | tag :: bytes' =>
      let entries' := entries ++ option_list cur in
      match tag, cur with
      | 0%N, _ => Ok entries'
      | 1%N, _ =>
          match bytes' with
          | c :: bytes'' => load_loop bytes'' entries' (Some (ascii_of_N c, []))
          | [] => Raise UnpicklingError
          end
      | 2%N, Some (c, code) => load_loop bytes' entries (Some (c, code ++ [false]))
      | 3%N, Some (c, code) => load_loop bytes' entries (Some (c, code ++ [true]))
      | _, _ => Raise UnpicklingError
      end
  end.

Definition load (bytes : list N) : result (dict ascii (list bool)) :=
  load_loop bytes [] None.

(** A text, from a string literal. *)
Definition text (s : String.string) : list ascii := String.list_ascii_of_string s.
Global Arguments text s%_string.

(** The code points of the 8-bit characters. *)
#[export]
Instance ascii_char : Char ascii := N_of_ascii.

(** Characters given by their code points. *)
#[export]
Instance code_point_char : Char N := λ c, c.

Definition abracadabra : list ascii := text "abracadabra".

(** The code table of "abracadabra": a = 0, d = 100, c = 101, r = 110,
    b = 111. *)
Definition abracadabra_codebook : dict ascii (list bool) :=
  [("a"%char, [false]);
   ("d"%char, [true; false; false]); ("c"%char, [true; false; true]);
   ("r"%char, [true; true; false]); ("b"%char, [true; true; true])].

End Sample.

(** ** Vocabulary of the specification *)

Section Vocabulary.
Context {Symbol : Type} `{EqDecision Symbol}.

(** The number of occurrences of [c] in [text]. *)
Definition occurrences (c : Symbol) (text : list Symbol) : nat :=
  length (filter (λ x, x = c) text).

(** The text has at least two distinct symbols. *)
Definition two_symbols (input : list Symbol) : Prop :=
  ∃ a b, a ∈ input ∧ b ∈ input ∧ a ≠ b.

(** A failure that the program reports: it leaves through [sys.exit]
    after a message, as [read_text] does.  Every other exception is raised
    by the runtime, and the program has no handler for it. *)
Definition reported_failure {A : Type} (r : result A) : Prop :=
  ∃ status, r = Raise (SystemExit status).

End Vocabulary.

(** ** Vocabulary of the tree *)

Section TreeVocabulary.
Context {Symbol : Type}.

(** The leaves of a tree from left to right, each with its symbol and
    frequency.  As in [generate_codes], a node is a leaf when its [char]
    is not [None]. *)
Fixpoint leaves (node : Node Symbol) : list (Symbol * nat) :=
  match node with
  | mkNode (Some c) f _ _ => [(c, f)]
  | mkNode None _ l r =>
      match l with Some l' => leaves l' | None => [] end
      ++ match r with Some r' => leaves r' | None => [] end
  end.

(** A TreeNode of the specification: a leaf holds one symbol and has no
    children; an internal node holds no symbol, has exactly two children
    and the sum of their frequencies as its frequency. *)
Inductive well_formed : Node Symbol → Prop :=
| wf_leaf c f : well_formed (mkNode (Some c) f None None)
| wf_internal l r :
    well_formed l → well_formed r →
    well_formed (mkNode None (freq l + freq r) (Some l) (Some r)).

(** In every internal node the left child is not heavier than the right
    one. *)
Inductive left_lighter : Node Symbol → Prop :=
| ll_leaf c f l r : left_lighter (mkNode (Some c) f l r)
| ll_internal f l r :
    left_lighter l → left_lighter r → freq l ≤ freq r →
    left_lighter (mkNode None f (Some l) (Some r)).
End TreeVocabulary.

(** ** Vocabulary of the code table *)

Section CodeVocabulary.
Context {Symbol : Type}.

(** The leaves of a tree from left to right, each with the path that leads
    to it from the root ([false] for left, [true] for right), after
    [prefix]. *)
Fixpoint paths (node : Node Symbol) (prefix : list bool)
    : list (Symbol * list bool) :=
  match node with
  | mkNode (Some c) _ _ _ => [(c, prefix)]
  | mkNode None _ l r =>
      match l with Some l' => paths l' (prefix ++ [false]) | None => [] end
      ++ match r with Some r' => paths r' (prefix ++ [true]) | None => [] end
  end.

(** No code of the table is a prefix of the code of another symbol; equal
    codes count as prefixes. *)
Definition prefix_free (codebook : dict Symbol (list bool)) : Prop :=
  ∀ c1 c2 code1 code2,
    (c1, code1) ∈ codebook → (c2, code2) ∈ codebook →
    code1 `prefix_of` code2 → c1 = c2.
End CodeVocabulary.

Section CodeLookup.
Context {Symbol : Type} `{EqDecision Symbol}.

(** The code of a symbol in a table, the empty bit-string when the symbol
    has no entry. *)
Definition code_of (codebook : dict Symbol (list bool)) (c : Symbol) : list bool :=
  default [] (dict_get codebook c).
End CodeLookup.

(** ** Vocabulary of the packed payload *)

(** The [m] groups of 8 bits of a bit-string. *)
Definition chunks (bits : list bool) (m : nat) : list (list bool) :=
  (λ k, take 8 (drop (k * 8) bits)) <$> seq 0 m.

(** ** Vocabulary of the heap invariant *)

Section HeapVocabulary.
Context {A : Type} (key : A → nat).

(** The index of the parent of the heap position [j]. *)
Definition parent (j : nat) : nat := (j - 1) / 2.

(** The element at [p] is not larger than the element at [j]. *)
Definition ordered (heap : list A) (p j : nat) : Prop :=
  ∀ x y, heap !! p = Some x → heap !! j = Some y → key x ≤ key y.

(** The heap invariant on the positions whose parent is at [i] or after. *)
Definition heap_above (i : nat) (heap : list A) : Prop :=
  ∀ j, 0 < j → i ≤ parent j → ordered heap (parent j) j.

(** The invariant of [heapq]: [heap[k] <= heap[2*k+1]] and
    [heap[k] <= heap[2*k+2]] for all [k]. *)
Definition is_heap (heap : list A) : Prop := heap_above 0 heap.

(** [j] is in the subtree of the heap position [i]. *)
Inductive desc (i : nat) : nat → Prop :=
| desc_refl : desc i i
| desc_child j : 0 < j → desc i (parent j) → desc i j.

(** The invariant of the two sifting loops: the heap with a hole at [pos],
    whose content is ignored. *)
Definition hole_inv (i : nat) (heap : list A) (pos : nat) : Prop :=
  (∀ j, 0 < j → i ≤ parent j → parent j ≠ pos → j ≠ pos →
        ordered heap (parent j) j)
  ∧ (i < pos → ∀ c, 0 < c → parent c = pos → ordered heap (parent pos) c).

(** [newitem] may fill the hole as far as the children of [pos] go. *)
Definition fits_above_children (newitem : A) (heap : list A) (pos : nat) : Prop :=
  ∀ c y, 0 < c → parent c = pos → heap !! c = Some y → key newitem ≤ key y.
End HeapVocabulary.

(** ** Vocabulary of the size of the output *)

Section SizeVocabulary.
Context {Symbol : Type} `{EqDecision Symbol}.

(** The distinct symbols of a text, in the order of their first
    occurrence. *)
Fixpoint first_occurrences (text : list Symbol) : list Symbol :=
  match text with
  | [] => []
  | c :: text' => c :: filter (λ x, x ≠ c) (first_occurrences text')
  end.

(** The number of bits of a text with the given frequency table under a
    code table: every symbol counts its code once per occurrence. *)
Definition weighted_length (frequencies : dict Symbol nat)
    (codebook : dict Symbol (list bool)) : nat :=
  sum_list ((λ entry, entry.2 * length (code_of codebook entry.1)) <$> frequencies).

(** The sum of the frequencies of the merged nodes of a tree. *)
Fixpoint tree_cost (node : Node Symbol) : nat :=
  match node with
  | mkNode (Some _) _ _ _ => 0
  | mkNode None f l r =>
      f + match l with Some l' => tree_cost l' | None => 0 end
        + match r with Some r' => tree_cost r' | None => 0 end
  end.

(** The tree with the symbols [a] and [b] exchanged in its leaves. *)
Definition swap_symbol (a b c : Symbol) : Symbol :=
  if decide (c = a) then b else if decide (c = b) then a else c.

Fixpoint swap_leaves (a b : Symbol) (node : Node Symbol) : Node Symbol :=
  match node with
  | mkNode c f l r =>
      mkNode (swap_symbol a b <$> c) f (swap_leaves a b <$> l) (swap_leaves a b <$> r)
  end.
End SizeVocabulary.

(** The depths of the leaves of the strict binary trees: a root alone, or
    a leaf of some tree replaced by a node with two leaves. *)
Inductive tree_depths : list nat → Prop :=
| td_root : tree_depths [0]
| td_split d K : tree_depths (d :: K) → tree_depths (S d :: S d :: K)
| td_perm K K' : K ≡ₚ K' → tree_depths K → tree_depths K'.

(** The cost of an assignment of depths to weights, as a list of pairs
    (weight, depth). *)
Definition cost (L : list (nat * nat)) : nat :=
  sum_list ((λ entry, entry.1 * entry.2) <$> L).

(** Weighted codes of which none is a prefix of another. *)
Definition codes_prefix_free (M : list (nat * list bool)) : Prop :=
  ∀ e1 e2 rest, M ≡ₚ e1 :: e2 :: rest → ¬ e1.2 `prefix_of` e2.2.

(** The weighted codes that start with the bit [b], without that bit. *)
Definition sub_codes (b : bool) (M : list (nat * list bool))
    : list (nat * list bool) :=
  (λ entry, (entry.1, tail entry.2)) <$> filter (λ entry, head entry.2 = Some b) M.

(** The sum of weight times code length. *)
Definition code_bits (M : list (nat * list bool)) : nat :=
  sum_list ((λ entry, entry.1 * length entry.2) <$> M).

(** The tree that [build_huffman_tree] returns for "abracadabra". *)
Definition abracadabra_tree : Node ascii :=
  mkNode None 11
    (Some (mkNode (Some "a"%char) 5 None None))
    (Some (mkNode None 6
       (Some (mkNode None 2 (Some (mkNode (Some "d"%char) 1 None None))
                            (Some (mkNode (Some "c"%char) 1 None None))))
       (Some (mkNode None 4 (Some (mkNode (Some "r"%char) 2 None None))
                            (Some (mkNode (Some "b"%char) 2 None None)))))).

(** A table that gives the symbols of "abracadabra" three bits each. *)
Definition abracadabra_fixed : dict ascii (list bool) :=
  [("a"%char, [false; false; false]); ("b"%char, [false; false; true]);
   ("r"%char, [false; true; false]); ("c"%char, [false; true; true]);
   ("d"%char, [true; false; false])].

(** * Proofs *)

(** ** Facts about the runtime fragment *)

Section PyFacts.
Context {A : Type}.
Implicit Types (l : list A) (i : nat) (x : A).

Lemma bind_Ok {B C} (m : result B) (f : B → result C) (c : C) :
  m ≫= f = Ok c ↔ ∃ b, m = Ok b ∧ f b = Ok c.
Proof.
  destruct m as [b|e]; simpl; split.
  - eauto.
  - by intros (? & [= ->] & ?).
  - done.
  - by intros (? & ? & ?).
Qed.

Lemma getitem_Ok l i x : l !! i = Some x → getitem l i = Ok x.
Proof. unfold getitem. by intros ->. Qed.

Lemma getitem_inv l i x : getitem l i = Ok x → l !! i = Some x.
Proof. unfold getitem. destruct (l !! i); naive_solver. Qed.

Lemma setitem_Ok l i x : i < length l → setitem l i x = Ok (<[i := x]> l).
Proof. unfold setitem. intros. by rewrite decide_True. Qed.

Lemma setitem_inv l i x l' :
  setitem l i x = Ok l' → i < length l ∧ l' = <[i := x]> l.
Proof. unfold setitem. case_decide; naive_solver. Qed.

Lemma pop_snoc l x : pop (l ++ [x]) = Ok (x, l).
Proof. unfold pop. by rewrite last_snoc, removelast_last. Qed.

Lemma pop_inv l x l' : pop l = Ok (x, l') → l = l' ++ [x].
Proof.
  unfold pop. destruct (last l) as [y|] eqn:E; [|done].
  apply last_Some in E as [k ->]. rewrite removelast_last. naive_solver.
Qed.

Lemma pop_nil : pop (@nil A) = Raise IndexError.
Proof. done. Qed.

Lemma pop_Raise l e : pop l = Raise e → l = [].
Proof.
  unfold pop. destruct (last l) eqn:E; [done|]. by apply last_None in E.
Qed.
End PyFacts.

Section DictFacts.
Context {K V : Type} `{EqDecision K}.
Implicit Types (d : dict K V) (k : K) (v : V).

Lemma dict_get_set d k v k' :
  dict_get (dict_set d k v) k' = if decide (k' = k) then Some v else dict_get d k'.
Proof.
  induction d as [|[k0 v0] d IH]; simpl.
  - done.
  - destruct (decide (k = k0)) as [->|]; simpl; repeat case_decide; congruence.
Qed.

Lemma dict_get_None d k : dict_get d k = None ↔ k ∉ keys d.
Proof.
  unfold keys. induction d as [|[k0 v0] d IH]; simpl.
  - split; [intros _; apply not_elem_of_nil|done].
  - rewrite not_elem_of_cons. case_decide; [|tauto]. split; [done|tauto].
Qed.

Lemma dict_get_Some_elem_of d k v : dict_get d k = Some v → (k, v) ∈ d.
Proof.
  induction d as [|[k0 v0] d IH]; simpl; [done|].
  case_decide; [intros [= ->]; subst; left|right; auto].
Qed.

Lemma dict_get_Some d k v :
  NoDup (keys d) → (k, v) ∈ d → dict_get d k = Some v.
Proof.
  unfold keys. induction d as [|[k0 v0] d IH]; simpl.
  - by intros _ ?%elem_of_nil.
  - intros [Hk Hd]%NoDup_cons [[= -> ->]|Hin]%elem_of_cons.
    + by case_decide.
    + case_decide as Hkk; [|auto]. subst. exfalso. apply Hk.
      apply list_elem_of_fmap. by exists (k0, v).
Qed.

Lemma keys_dict_set d k v :
  keys (dict_set d k v) = if decide (k ∈ keys d) then keys d else keys d ++ [k].
Proof.
  unfold keys. induction d as [|[k0 v0] d IH].
  - case_decide as Hin; [by apply elem_of_nil in Hin|done].
  - cbn [dict_set]. destruct (decide (k = k0)) as [->|Hne].
    + rewrite decide_True; [done|left].
    + rewrite fmap_cons, IH. rewrite fmap_cons. cbn [fst].
      destruct (decide (k ∈ d.*1)) as [Hin|Hin].
      * rewrite decide_True; [done|by right].
      * rewrite decide_False; [done|]. by intros [?|?]%elem_of_cons.
Qed.

Lemma NoDup_keys_dict_set d k v :
  NoDup (keys d) → NoDup (keys (dict_set d k v)).
Proof.
  intros Hd. rewrite keys_dict_set. case_decide; [done|].
  apply NoDup_app. split_and!; [done| |apply NoDup_singleton].
  intros x ? ->%list_elem_of_singleton. done.
Qed.
End DictFacts.

(** ** [calculate_frequencies] *)

Section Frequencies.
Context {Symbol : Type} `{EqDecision Symbol}.
Implicit Types (text : list Symbol) (c : Symbol) (d : dict Symbol nat).

Lemma occurrences_cons c x text :
  occurrences c (x :: text) = (if decide (x = c) then 1 else 0) + occurrences c text.
Proof.
  unfold occurrences. rewrite filter_cons. by case_decide.
Qed.

Lemma occurrences_pos c text : c ∈ text ↔ 1 ≤ occurrences c text.
Proof.
  induction text as [|x text IH].
  - split; [by intros ?%elem_of_nil|unfold occurrences; simpl; lia].
  - rewrite occurrences_cons, elem_of_cons. case_decide; subst; [|rewrite IH].
    + split; [lia|auto].
    + split; [intros [?|?]; [congruence|lia]|intros; right; lia].
Qed.

Lemma sum_values_dict_set d c v :
  sum_list (values (dict_set d c v)) + default 0 (dict_get d c)
  = sum_list (values d) + v.
Proof.
  unfold values. induction d as [|[k0 v0] d IH]; cbn [dict_set dict_get].
  - simpl. lia.
  - destruct (decide (c = k0)) as [->|]; csimpl in *; lia.
Qed.

Lemma count_loop_get text d c :
  dict_get (fold_left count_char text d) c
  = match dict_get d c, occurrences c text with
    | None, 0 => None
    | o, n => Some (default 0 o + n)
    end.
Proof.
  revert d. induction text as [|x text IH]; intros d.
  - cbn [fold_left]. unfold occurrences; simpl.
    destruct (dict_get d c); simpl; f_equal; lia.
  - cbn [fold_left]. rewrite IH, occurrences_cons. unfold count_char.
    rewrite dict_get_set.
    destruct (decide (c = x)) as [->|Hne].
    + rewrite decide_True by done.
      destruct (dict_get d x), (occurrences x text); simpl; f_equal; lia.
    + rewrite decide_False by done. done.
Qed.

Lemma count_loop_sum text d :
  sum_list (values (fold_left count_char text d))
  = sum_list (values d) + length text.
Proof.
  revert d. induction text as [|x text IH]; intros d; cbn [fold_left].
  - simpl. lia.
  - rewrite IH. unfold count_char.
    pose proof (sum_values_dict_set d x (default 0 (dict_get d x) + 1)).
    simpl. lia.
Qed.

Lemma count_loop_NoDup text d :
  NoDup (keys d) → NoDup (keys (fold_left count_char text d)).
Proof.
  revert d. induction text as [|x text IH]; intros d Hd; cbn [fold_left].
  - done.
  - apply IH. by apply NoDup_keys_dict_set.
Qed.

Lemma calculate_frequencies_get text c :
  dict_get (calculate_frequencies text).1 c
  = if decide (c ∈ text) then Some (occurrences c text) else None.
Proof.
  unfold calculate_frequencies. cbn [fst]. rewrite count_loop_get. cbn [dict_get].
  case_decide as Hin; rewrite occurrences_pos in Hin.
  - destruct (occurrences c text); [lia|done].
  - destruct (occurrences c text); [done|lia].
Qed.

Lemma calculate_frequencies_NoDup text :
  NoDup (keys (calculate_frequencies text).1).
Proof. apply count_loop_NoDup, NoDup_nil_2. Qed.

Lemma calculate_frequencies_keys text c :
  c ∈ keys (calculate_frequencies text).1 ↔ c ∈ text.
Proof.
  pose proof (dict_get_None (calculate_frequencies text).1 c) as Hnone.
  rewrite calculate_frequencies_get in Hnone.
  destruct (decide (c ∈ text)) as [Hin|Hin].
  - split; [done|intros _].
    destruct (decide (c ∈ keys (calculate_frequencies text).1)); [done|].
    by apply Hnone in n.
  - split; [|done]. intros Hk. by apply Hnone in Hk.
Qed.

Lemma calculate_frequencies_nonempty text :
  text ≠ [] → (calculate_frequencies text).1 ≠ [].
Proof.
  destruct text as [|c text]; [done|]. intros _ Hnil.
  assert (c ∈ keys (calculate_frequencies (c :: text)).1) as Hc.
  { apply calculate_frequencies_keys. left. }
  rewrite Hnil in Hc. by apply elem_of_nil in Hc.
Qed.
End Frequencies.

(** ** [heapq]: every operation succeeds on a valid index and permutes the heap *)

Section HeapqPerm.
Context {A : Type} (lt : A → A → bool).
Implicit Types (heap : list A) (pos startpos endpos fuel : nat) (x newitem : A).

Lemma insert_swap_Permutation heap (i j : nat) x y :
  i < length heap → i ≠ j → heap !! j = Some y →
  <[j := x]> (<[i := y]> heap) ≡ₚ <[i := x]> heap.
Proof.
  intros Hi Hij Hj.
  rewrite <-(list_insert_insert_eq heap i y x).
  apply Permutation_insert_swap.
  - by apply list_lookup_insert_eq.
  - by rewrite list_lookup_insert_ne.
Qed.

Lemma parent_lt pos : 0 < pos → (pos - 1) / 2 < pos.
Proof. intros. apply Nat.Div0.div_lt_upper_bound. lia. Qed.

Lemma siftdown_loop_spec fuel heap startpos pos newitem :
  pos < length heap →
  ∃ heap' pos',
    heapq.siftdown_loop lt fuel heap startpos pos newitem = Ok (heap', pos')
    ∧ pos' < length heap' ∧ length heap' = length heap
    ∧ ∀ x, <[pos' := x]> heap' ≡ₚ <[pos := x]> heap.
Proof.
  revert heap pos. induction fuel as [|fuel IH]; intros heap pos Hpos;
    cbn [heapq.siftdown_loop].
  { by exists heap, pos. }
  case_decide as Hlt; [|by exists heap, pos].
  pose proof (parent_lt pos ltac:(lia)) as Hpar.
  destruct (lookup_lt_is_Some_2 heap ((pos - 1) / 2) ltac:(lia)) as [parent Hparent].
  rewrite (getitem_Ok _ _ _ Hparent). cbn [mbind result_bind].
  destruct (lt newitem parent); [|by exists heap, pos].
  rewrite setitem_Ok by done. cbn [mbind result_bind].
  destruct (IH (<[pos := parent]> heap) ((pos - 1) / 2)) as (heap' & pos' & -> & ? & Hlen & Hperm).
  { rewrite length_insert. lia. }
  exists heap', pos'. rewrite length_insert in Hlen. split_and!; [done..|].
  intros x. rewrite Hperm. apply insert_swap_Permutation; [done|lia|done].
Qed.

Lemma siftdown_spec heap startpos pos :
  pos < length heap →
  ∃ heap', heapq._siftdown lt heap startpos pos = Ok heap' ∧ heap' ≡ₚ heap.
Proof.
  intros Hpos. unfold heapq._siftdown.
  destruct (lookup_lt_is_Some_2 heap pos Hpos) as [newitem Hnew].
  rewrite (getitem_Ok _ _ _ Hnew). cbn [mbind result_bind].
  destruct (siftdown_loop_spec pos heap startpos pos newitem Hpos)
    as (heap' & pos' & -> & ? & ? & Hperm).
  cbn [mbind result_bind]. rewrite setitem_Ok by done. eexists; split; [done|].
  rewrite Hperm. by rewrite list_insert_id.
Qed.

Lemma siftup_loop_spec fuel heap pos :
  pos < length heap →
  ∃ heap' pos',
    heapq.siftup_loop lt fuel heap (length heap) pos = Ok (heap', pos')
    ∧ pos' < length heap' ∧ length heap' = length heap
    ∧ ∀ x, <[pos' := x]> heap' ≡ₚ <[pos := x]> heap.
Proof.
  revert heap pos. induction fuel as [|fuel IH]; intros heap pos Hpos;
    cbn [heapq.siftup_loop].
  { by exists heap, pos. }
  case_decide as Hchild; [|by exists heap, pos].
  assert (∃ c child, c < length heap ∧ c ≠ pos ∧ heap !! c = Some child ∧
    (if decide (2 * pos + 1 + 1 < length heap)
     then c0 ← getitem heap (2 * pos + 1);
          r ← getitem heap (2 * pos + 1 + 1);
          Ok (if negb (lt c0 r) then 2 * pos + 1 + 1 else 2 * pos + 1)
     else Ok (2 * pos + 1)) = Ok c) as (c & child & Hc & Hne & Hchildv & ->).
  { case_decide as Hright.
    - destruct (lookup_lt_is_Some_2 heap (2 * pos + 1) Hchild) as [c0 Hc0].
      destruct (lookup_lt_is_Some_2 heap (2 * pos + 1 + 1) Hright) as [r Hr].
      rewrite (getitem_Ok _ _ _ Hc0), (getitem_Ok _ _ _ Hr). cbn [mbind result_bind].
      destruct (negb (lt c0 r)).
      + exists (2 * pos + 1 + 1), r. split_and!; [lia|lia|done|done].
      + exists (2 * pos + 1), c0. split_and!; [lia|lia|done|done].
    - destruct (lookup_lt_is_Some_2 heap (2 * pos + 1) Hchild) as [c0 Hc0].
      exists (2 * pos + 1), c0. split_and!; [lia|lia|done|done]. }
  cbn [mbind result_bind]. rewrite (getitem_Ok _ _ _ Hchildv). cbn [mbind result_bind].
  rewrite setitem_Ok by done. cbn [mbind result_bind].
  destruct (IH (<[pos := child]> heap) c) as (heap' & pos' & Heq & ? & Hlen & Hperm).
  { by rewrite length_insert. }
  rewrite length_insert in Heq, Hlen. rewrite Heq.
  exists heap', pos'. split_and!; [done..|].
  intros x. rewrite Hperm. apply insert_swap_Permutation; [done|lia|done].
Qed.

Lemma siftup_spec heap pos :
  pos < length heap →
  ∃ heap', heapq._siftup lt heap pos = Ok heap' ∧ heap' ≡ₚ heap.
Proof.
  intros Hpos. unfold heapq._siftup.
  destruct (lookup_lt_is_Some_2 heap pos Hpos) as [newitem Hnew].
  rewrite (getitem_Ok _ _ _ Hnew). cbn [mbind result_bind].
  destruct (siftup_loop_spec (length heap) heap pos Hpos)
    as (heap1 & pos1 & -> & ? & ? & Hperm).
  cbn [mbind result_bind]. rewrite setitem_Ok by done. cbn [mbind result_bind].
  destruct (siftdown_spec (<[pos1 := newitem]> heap1) pos pos1)
    as (heap' & -> & Hperm').
  { by rewrite length_insert. }
  exists heap'. split; [done|].
  rewrite Hperm', Hperm. by rewrite list_insert_id.
Qed.

Lemma heappush_spec heap item :
  ∃ heap', heapq.heappush lt heap item = Ok heap' ∧ heap' ≡ₚ item :: heap.
Proof.
  unfold heapq.heappush.
  destruct (siftdown_spec (heap ++ [item]) 0 (length (heap ++ [item]) - 1))
    as (heap' & -> & Hperm).
  { rewrite length_app. simpl. lia. }
  exists heap'. split; [done|]. rewrite Hperm. by rewrite Permutation_app_comm.
Qed.

Lemma heappop_nil : heapq.heappop lt [] = Raise IndexError.
Proof. done. Qed.

Lemma heappop_spec heap :
  heap ≠ [] →
  ∃ x heap', heapq.heappop lt heap = Ok (x, heap') ∧ heap ≡ₚ x :: heap'.
Proof.
  intros Hne. unfold heapq.heappop.
  destruct (last heap) as [lastelt|] eqn:Hlast; [|by apply last_None in Hlast].
  apply last_Some in Hlast as [heap1 ->]. rewrite pop_snoc. cbn [mbind result_bind].
  destruct heap1 as [|returnitem heap1].
  { by exists lastelt, []. }
  cbn [getitem lookup list_lookup mbind result_bind].
  rewrite setitem_Ok by (simpl; lia). cbn [mbind result_bind].
  destruct (siftup_spec (<[0 := lastelt]> (returnitem :: heap1)) 0)
    as (heap3 & -> & Hperm).
  { rewrite length_insert. simpl. lia. }
  exists returnitem, heap3. split; [done|].
  rewrite Hperm. simpl. rewrite <-Permutation_cons_append. done.
Qed.

Lemma foldM_siftup_spec (idxs : list nat) heap :
  Forall (λ i, i < length heap) idxs →
  ∃ heap', foldM (heapq._siftup lt) idxs heap = Ok heap' ∧ heap' ≡ₚ heap.
Proof.
  revert heap. induction idxs as [|i idxs IH]; intros heap His; cbn [foldM].
  { by exists heap. }
  apply Forall_cons in His as [Hi His].
  destruct (siftup_spec heap i Hi) as (heap1 & -> & Hperm1). cbn [mbind result_bind].
  destruct (IH heap1) as (heap' & -> & Hperm').
  { eapply Forall_impl; [done|]. intros j Hj. simpl in Hj. by rewrite Hperm1. }
  exists heap'. split; [done|]. by rewrite Hperm'.
Qed.

Lemma heapify_spec heap :
  ∃ heap', heapq.heapify lt heap = Ok heap' ∧ heap' ≡ₚ heap.
Proof.
  unfold heapq.heapify. apply foldM_siftup_spec.
  apply Forall_forall. intros i Hi%elem_of_reverse%elem_of_seq.
  assert (length heap / 2 ≤ length heap) by (apply Nat.Div0.div_le_upper_bound; lia).
  lia.
Qed.
End HeapqPerm.

(** ** [heapq]: the fuel of the loops *)

Section HeapqFuel.
Context {A : Type} (lt : A → A → bool).
Implicit Types (heap : list A) (pos startpos endpos fuel : nat) (newitem : A).

(** The fuel of the two sifting loops is a bound, not a cut-off: any
    fuel that covers the distance to travel gives the same result. *)
Lemma siftdown_loop_fuel fuel1 fuel2 heap startpos pos newitem :
  pos ≤ fuel1 → pos ≤ fuel2 →
  heapq.siftdown_loop lt fuel1 heap startpos pos newitem
  = heapq.siftdown_loop lt fuel2 heap startpos pos newitem.
Proof.
  revert fuel2 heap pos. induction fuel1 as [|fuel1 IH];
    intros [|fuel2] heap pos H1 H2; cbn [heapq.siftdown_loop]; try done.
  - case_decide; [lia|done].
  - case_decide; [lia|done].
  - case_decide as Hlt; [|done].
    destruct (getitem heap ((pos - 1) / 2)) as [parent|]; [|done].
    cbn [mbind result_bind]. destruct (lt newitem parent); [|done].
    destruct (setitem heap pos parent) as [heap'|]; [|done].
    cbn [mbind result_bind]. pose proof (parent_lt pos ltac:(lia)).
    apply IH; lia.
Qed.

Lemma siftup_loop_fuel fuel1 fuel2 heap endpos pos :
  endpos ≤ fuel1 + pos → endpos ≤ fuel2 + pos →
  heapq.siftup_loop lt fuel1 heap endpos pos
  = heapq.siftup_loop lt fuel2 heap endpos pos.
Proof.
  revert fuel2 heap pos. induction fuel1 as [|fuel1 IH];
    intros [|fuel2] heap pos H1 H2; cbn [heapq.siftup_loop]; try done.
  - case_decide; [lia|done].
  - case_decide; [lia|done].
  - case_decide as Hlt; [|done].
    match goal with |- (?m ≫= _) = _ => destruct m as [c|] eqn:Hsel end; [|done].
    cbn [mbind result_bind].
    assert (pos < c) as Hc.
    { revert Hsel. case_decide; [|intros [= <-]; lia].
      destruct (getitem heap (2 * pos + 1)); [|done]. cbn [mbind result_bind].
      destruct (getitem heap (2 * pos + 1 + 1)); [|done]. cbn [mbind result_bind].
      destruct (negb _); intros [= <-]; lia. }
    destruct (getitem heap c) as [child|]; [|done]. cbn [mbind result_bind].
    destruct (setitem heap pos child) as [heap'|]; [|done].
    cbn [mbind result_bind]. apply IH; lia.
Qed.
End HeapqFuel.

(** ** [heapq]: the heap invariant is established and kept, and [heappop]
    returns a least element *)

Section HeapqOrder.
Context {A : Type} (lt : A → A → bool) (key : A → nat).
Context (lt_key : ∀ a b, lt a b = bool_decide (key a < key b)).
Implicit Types (heap : list A) (pos i fuel : nat) (x newitem : A).

Lemma parent_lt' j : 0 < j → parent j < j.
Proof. apply parent_lt. Qed.

Lemma parent_child c p : 0 < c → parent c = p ↔ c = 2 * p + 1 ∨ c = 2 * p + 2.
Proof.
  unfold parent. intros Hc.
  pose proof (Nat.div_mod_eq (c - 1) 2).
  pose proof (Nat.mod_upper_bound (c - 1) 2).
  split.
  - intros <-. lia.
  - intros [->| ->].
    + replace (2 * p + 1 - 1) with (p * 2) by lia. by rewrite Nat.div_mul.
    + replace (2 * p + 2 - 1) with (1 + p * 2) by lia.
      rewrite Nat.div_add by lia. done.
Qed.

Lemma desc_le i j : desc i j → i ≤ j.
Proof.
  induction 1 as [|j Hj _ IH]; [done|]. pose proof (parent_lt' j Hj). lia.
Qed.

Lemma desc_parent i j : desc i j → i < j → desc i (parent j).
Proof. destruct 1; [lia|done]. Qed.

Lemma desc_0 j : desc 0 j.
Proof.
  induction (lt_wf j) as [j _ IH]. destruct j as [|j]; [constructor|].
  apply desc_child; [lia|]. apply IH. apply parent_lt'. lia.
Qed.

Lemma desc_trans_child i pos c : desc i pos → 0 < c → parent c = pos → desc i c.
Proof. intros ? ? <-. by apply desc_child. Qed.

Lemma hole_inv_insert i heap pos x :
  hole_inv key i heap pos → hole_inv key i (<[pos := x]> heap) pos.
Proof.
  intros [Ha Hb]. split.
  - intros j ? ? ? ? y z. rewrite !list_lookup_insert_ne by done. by apply Ha.
  - intros Hi c Hc Hpc y z.
    pose proof (parent_lt' c Hc). pose proof (parent_lt' pos ltac:(lia)).
    rewrite !list_lookup_insert_ne by lia. by apply Hb.
Qed.

Lemma hole_fill i heap pos newitem :
  hole_inv key i heap pos →
  fits_above_children key newitem heap pos →
  pos = i ∨ (∀ x, heap !! parent pos = Some x → key x ≤ key newitem) →
  pos < length heap →
  heap_above key i (<[pos := newitem]> heap).
Proof.
  intros [Ha Hb] Hfit Hup Hpos j Hj Hij y z.
  pose proof (parent_lt' j Hj).
  destruct (decide (j = pos)) as [->|Hjp].
  - rewrite list_lookup_insert_eq by done.
    rewrite list_lookup_insert_ne by lia. intros Hy [= <-].
    destruct Hup as [->|Hup]; [lia|]. by apply Hup.
  - rewrite (list_lookup_insert_ne _ pos j) by done.
    destruct (decide (parent j = pos)) as [Hpj|Hpj].
    + rewrite Hpj, list_lookup_insert_eq by done. intros [= <-] Hz.
      by apply (Hfit j).
    + rewrite list_lookup_insert_ne by done. by apply Ha.
Qed.

Lemma siftdown_loop_order i fuel heap pos newitem heap' pos' :
  hole_inv key i heap pos →
  fits_above_children key newitem heap pos →
  desc i pos → pos < length heap → pos ≤ fuel →
  heapq.siftdown_loop lt fuel heap i pos newitem = Ok (heap', pos') →
  heap_above key i (<[pos' := newitem]> heap').
Proof.
  revert heap pos. induction fuel as [|fuel IH];
    intros heap pos Hinv Hfit Hdesc Hpos Hfuel; cbn [heapq.siftdown_loop].
  { intros [= <- <-]. pose proof (desc_le _ _ Hdesc).
    apply hole_fill; [done..|left; lia|done]. }
  case_decide as Hlt; cycle 1.
  { intros [= <- <-]. pose proof (desc_le _ _ Hdesc).
    apply hole_fill; [done..|left; lia|done]. }
  pose proof (parent_lt' pos ltac:(lia)) as Hpar. fold (parent pos).
  destruct (lookup_lt_is_Some_2 heap (parent pos) ltac:(lia)) as [p Hp].
  rewrite (getitem_Ok _ _ _ Hp). cbn [mbind result_bind].
  rewrite lt_key. case_bool_decide as Hkey; cycle 1.
  { intros [= <- <-]. apply hole_fill; [done..| |done].
    right. intros x. rewrite Hp. intros [= <-]. lia. }
  rewrite setitem_Ok by done. cbn [mbind result_bind].
  destruct Hinv as [Ha Hb].
  pose proof (desc_parent _ _ Hdesc Hlt) as Hdesc'.
  pose proof (desc_le _ _ Hdesc') as Hile.
  apply IH; [split| |done|rewrite length_insert; lia|lia].
  - intros j Hj Hij Hpj Hjp y z. pose proof (parent_lt' j Hj).
    destruct (decide (j = pos)) as [->|Hne]; [done|].
    rewrite (list_lookup_insert_ne _ pos j) by done.
    destruct (decide (parent j = pos)) as [Hpjp|Hpjp].
    + rewrite Hpjp, list_lookup_insert_eq by done. intros [= <-] Hz.
      by apply (Hb Hlt j Hj Hpjp p z).
    + rewrite list_lookup_insert_ne by done. by apply Ha.
  - intros Hi c Hc Hpc y z.
    pose proof (parent_lt' (parent pos) ltac:(lia)).
    rewrite list_lookup_insert_ne by lia. intros Hy.
    pose proof (desc_le _ _ (desc_parent _ _ Hdesc' Hi)).
    assert (key y ≤ key p) as Hyp.
    { apply (Ha (parent pos)); [lia|done|lia|lia|done|done]. }
    destruct (decide (c = pos)) as [->|Hne].
    + rewrite list_lookup_insert_eq by done. by intros [= <-].
    + rewrite list_lookup_insert_ne by done. intros Hz.
      assert (key p ≤ key z); [|lia].
      apply (Ha c); [done|lia|lia|done|by rewrite Hpc|done].
  - intros c z Hc Hpc.
    destruct (decide (c = pos)) as [->|Hne].
    + rewrite list_lookup_insert_eq by done. intros [= <-]. lia.
    + rewrite list_lookup_insert_ne by done. intros Hz.
      assert (key p ≤ key z); [|lia].
      apply (Ha c); [done|lia|lia|done|by rewrite Hpc|done].
Qed.

Lemma siftdown_order i heap pos heap' :
  hole_inv key i heap pos →
  (∀ newitem, heap !! pos = Some newitem →
     fits_above_children key newitem heap pos) →
  desc i pos →
  heapq._siftdown lt heap i pos = Ok heap' →
  heap_above key i heap'.
Proof.
  intros Hinv Hfit Hdesc. unfold heapq._siftdown.
  destruct (heap !! pos) as [newitem|] eqn:Hnew; cycle 1.
  { unfold getitem. by rewrite Hnew. }
  rewrite (getitem_Ok _ _ _ Hnew). cbn [mbind result_bind].
  pose proof (lookup_lt_Some _ _ _ Hnew) as Hpos.
  destruct (heapq.siftdown_loop lt pos heap i pos newitem)
    as [[heap1 pos1]|] eqn:Hloop; [|done].
  cbn [mbind result_bind]. intros [? ->]%setitem_inv.
  eapply siftdown_loop_order; eauto.
Qed.

Lemma choose_child heap pos c :
  2 * pos + 1 < length heap →
  (if decide (2 * pos + 1 + 1 < length heap)
   then c0 ← getitem heap (2 * pos + 1);
        r ← getitem heap (2 * pos + 1 + 1);
        Ok (if negb (lt c0 r) then 2 * pos + 1 + 1 else 2 * pos + 1)
   else Ok (2 * pos + 1)) = Ok c →
  ∃ child, heap !! c = Some child ∧ 0 < c ∧ parent c = pos ∧ c < length heap
    ∧ fits_above_children key child heap pos.
Proof.
  intros Hchild.
  destruct (lookup_lt_is_Some_2 heap (2 * pos + 1) Hchild) as [c0 Hc0].
  case_decide as Hright.
  - destruct (lookup_lt_is_Some_2 heap (2 * pos + 1 + 1) Hright) as [r Hr].
    rewrite (getitem_Ok _ _ _ Hc0), (getitem_Ok _ _ _ Hr). cbn [mbind result_bind].
    rewrite lt_key. case_bool_decide as Hkey; cbn [negb]; intros Heq.
    + assert (c = 2 * pos + 1) as -> by congruence.
      exists c0. split_and!; [done|lia|apply parent_child; lia|lia|].
      intros c2 y Hc2 Hpc Hy.
      destruct (proj1 (parent_child c2 pos Hc2) Hpc) as [->| ->]; simplify_eq; [lia|].
      replace (2 * pos + 2) with (2 * pos + 1 + 1) in Hy by lia. simplify_eq. lia.
    + assert (c = 2 * pos + 1 + 1) as -> by congruence.
      exists r. split_and!; [done|lia|apply parent_child; lia|lia|].
      intros c2 y Hc2 Hpc Hy.
      destruct (proj1 (parent_child c2 pos Hc2) Hpc) as [->| ->]; simplify_eq; [lia|].
      replace (2 * pos + 2) with (2 * pos + 1 + 1) in Hy by lia. simplify_eq. lia.
  - intros Heq. assert (c = 2 * pos + 1) as -> by congruence.
    exists c0. split_and!; [done|lia|apply parent_child; lia|lia|].
    intros c2 y Hc2 Hpc Hy.
    destruct (proj1 (parent_child c2 pos Hc2) Hpc) as [->| ->]; simplify_eq; [lia|].
    apply lookup_lt_Some in Hy. lia.
Qed.

Lemma siftup_loop_order i fuel heap pos heap' pos' :
  hole_inv key i heap pos →
  desc i pos → pos < length heap → length heap ≤ fuel + pos →
  heapq.siftup_loop lt fuel heap (length heap) pos = Ok (heap', pos') →
  hole_inv key i heap' pos' ∧ desc i pos' ∧ pos' < length heap'
  ∧ length heap' ≤ 2 * pos' + 1.
Proof.
  revert heap pos. induction fuel as [|fuel IH];
    intros heap pos Hinv Hdesc Hpos Hfuel; cbn [heapq.siftup_loop]; [lia|].
  case_decide as Hchild; cycle 1.
  { intros [= <- <-]. split_and!; [done..|lia]. }
  match goal with |- (?m ≫= _) = _ → _ => destruct m as [c|] eqn:Hsel end; [|done].
  apply choose_child in Hsel as (child & Hc & Hc0 & Hpc & Hclen & Hmin); [|done].
  cbn [mbind result_bind]. rewrite (getitem_Ok _ _ _ Hc). cbn [mbind result_bind].
  rewrite setitem_Ok by done. cbn [mbind result_bind].
  pose proof (parent_lt' c Hc0) as Hpar. rewrite Hpc in Hpar.
  rewrite <-(length_insert heap pos child) at 1.
  destruct Hinv as [Ha Hb].
  apply IH; [split|by apply desc_trans_child with pos|rewrite length_insert; lia
            |rewrite length_insert; lia].
  - intros j Hj Hij Hpj Hjc y z. pose proof (parent_lt' j Hj).
    destruct (decide (j = pos)) as [->|Hne].
    + rewrite list_lookup_insert_eq by done.
      rewrite list_lookup_insert_ne by lia. intros Hy [= <-].
      by apply (Hb ltac:(lia) c Hc0 Hpc y child).
    + rewrite (list_lookup_insert_ne _ pos j) by done.
      destruct (decide (parent j = pos)) as [Hpjp|Hpjp].
      * rewrite Hpjp, list_lookup_insert_eq by done. intros [= <-] Hz.
        by apply (Hmin j).
      * rewrite list_lookup_insert_ne by done. by apply Ha.
  - intros Hi g Hg Hpg y z. rewrite Hpc.
    pose proof (parent_lt' g Hg).
    rewrite list_lookup_insert_eq by done.
    rewrite list_lookup_insert_ne by lia. intros [= <-] Hz.
    apply (Ha g); [done|pose proof (desc_le _ _ Hdesc); lia|lia|lia
                  |by rewrite Hpg|done].
Qed.

Lemma siftup_order i heap heap' :
  heap_above key (S i) heap →
  heapq._siftup lt heap i = Ok heap' →
  heap_above key i heap'.
Proof.
  intros Hheap. unfold heapq._siftup.
  destruct (heap !! i) as [newitem|] eqn:Hnew; cycle 1.
  { unfold getitem. by rewrite Hnew. }
  rewrite (getitem_Ok _ _ _ Hnew). cbn [mbind result_bind].
  pose proof (lookup_lt_Some _ _ _ Hnew) as Hpos.
  destruct (heapq.siftup_loop lt (length heap) heap (length heap) i)
    as [[heap1 pos1]|] eqn:Hloop; [|done].
  cbn [mbind result_bind].
  apply siftup_loop_order with (i := i) in Hloop
    as (Hinv & Hdesc & Hpos1 & Hleaf); [|split|constructor|done|lia]; cycle 1.
  { intros j Hj Hij Hpj _. apply Hheap; [done|lia]. }
  { lia. }
  rewrite setitem_Ok by done. cbn [mbind result_bind].
  apply siftdown_order; [by apply hole_inv_insert| |done].
  intros x _ c y Hc Hpc Hy. apply lookup_lt_Some in Hy.
  rewrite length_insert in Hy. apply parent_child in Hpc; [lia|done].
Qed.

Lemma heappush_order heap item heap' :
  is_heap key heap →
  heapq.heappush lt heap item = Ok heap' →
  is_heap key heap'.
Proof.
  intros Hheap. unfold heapq.heappush. rewrite length_app. cbn [length].
  replace (length heap + 1 - 1) with (length heap) by lia.
  apply siftdown_order; [split| |apply desc_0].
  - intros j Hj _ Hpj Hjp y z Hy Hz. pose proof (parent_lt' j Hj).
    apply lookup_lt_Some in Hz as Hlt. rewrite length_app in Hlt. cbn in Hlt.
    rewrite lookup_app_l in Hy, Hz by lia.
    by apply (Hheap j Hj ltac:(lia) y z).
  - intros _ c Hc Hpc y z _ Hz. apply lookup_lt_Some in Hz.
    rewrite length_app in Hz. cbn in Hz. pose proof (parent_lt' c Hc). lia.
  - intros x _ c y Hc Hpc Hy. apply lookup_lt_Some in Hy.
    rewrite length_app in Hy. cbn in Hy. pose proof (parent_lt' c Hc). lia.
Qed.

Lemma is_heap_root_min heap x :
  is_heap key heap → heap !! 0 = Some x →
  ∀ y, y ∈ heap → key x ≤ key y.
Proof.
  intros Hheap Hx y [j Hy]%list_elem_of_lookup. revert y Hy.
  induction (lt_wf j) as [j _ IH]. intros y Hy.
  destruct (decide (j = 0)) as [->|Hj]; [by simplify_eq|].
  pose proof (parent_lt' j ltac:(lia)) as Hpar.
  destruct (lookup_lt_is_Some_2 heap (parent j)) as [p Hp].
  { apply lookup_lt_Some in Hy. lia. }
  transitivity (key p); [by apply (IH (parent j))|].
  apply (Hheap j); [lia|lia|done|done].
Qed.

Lemma heappop_order heap x heap' :
  is_heap key heap →
  heapq.heappop lt heap = Ok (x, heap') →
  is_heap key heap' ∧ ∀ y, y ∈ heap → key x ≤ key y.
Proof.
  intros Hheap. unfold heapq.heappop.
  destruct (pop heap) as [[lastelt heap1]|] eqn:Hpop; [|done].
  apply pop_inv in Hpop as ->. cbn [mbind result_bind].
  destruct heap1 as [|returnitem heap1].
  { intros [= <- <-]. split.
    - intros j Hj _ y z Hy. by rewrite lookup_nil in Hy.
    - by intros y ->%list_elem_of_singleton. }
  cbn [getitem lookup list_lookup mbind result_bind].
  rewrite setitem_Ok by (simpl; lia). cbn [mbind result_bind].
  destruct (heapq._siftup lt _ 0) as [heap3|] eqn:Hsift; [|done].
  cbn [mbind result_bind]. intros [= <- <-]. split.
  - apply siftup_order in Hsift; [done|].
    intros j Hj Hij y z. pose proof (parent_lt' j Hj).
    rewrite !list_lookup_insert_ne by lia. intros Hy Hz.
    apply lookup_lt_Some in Hz as Hlt.
    apply (Hheap j Hj ltac:(lia) y z); by apply lookup_app_l_Some.
  - by apply is_heap_root_min.
Qed.

Lemma foldM_siftup_order k heap heap' :
  heap_above key k heap →
  foldM (heapq._siftup lt) (reverse (seq 0 k)) heap = Ok heap' →
  is_heap key heap'.
Proof.
  revert heap. induction k as [|k IH]; intros heap Hheap.
  { by intros [= <-]. }
  rewrite seq_S, reverse_snoc. cbn [foldM plus].
  destruct (heapq._siftup lt heap k) as [heap1|] eqn:Hsift; [|done].
  cbn [mbind result_bind]. apply IH. by apply siftup_order with heap.
Qed.

Lemma heapify_order heap heap' :
  heapq.heapify lt heap = Ok heap' → is_heap key heap'.
Proof.
  unfold heapq.heapify. apply foldM_siftup_order.
  intros j Hj Hij y z _ Hz. apply lookup_lt_Some in Hz.
  pose proof (proj1 (parent_child j (parent j) Hj) eq_refl) as Hc.
  pose proof (Nat.div_mod_eq (length heap) 2).
  pose proof (Nat.mod_upper_bound (length heap) 2). lia.
Qed.
End HeapqOrder.

(** ** [build_huffman_tree] *)

Section Build.
Context {Symbol : Type}.
Implicit Types (heap : list (Node Symbol)) (node root : Node Symbol).
Implicit Types (frequencies : dict Symbol nat).

Lemma Node_lt_freq (a b : Node Symbol) :
  Node_lt a b = bool_decide (freq a < freq b).
Proof. done. Qed.

Lemma well_formed_freq node :
  well_formed node → freq node = sum_list (leaves node).*2.
Proof.
  induction 1 as [c f|l r _ IHl _ IHr]; cbn [leaves freq].
  - simpl. lia.
  - rewrite fmap_app, sum_list_with_app. cbn [freq] in *. lia.
Qed.

Lemma leaves_leaf (item : Symbol * nat) : leaves (leaf item) = [item].
Proof. by destruct item. Qed.

Lemma bind_leaves_leaf frequencies : (leaf <$> frequencies) ≫= leaves = frequencies.
Proof.
  induction frequencies as [|item fs IH]; [done|].
  rewrite fmap_cons, bind_cons, leaves_leaf, IH. done.
Qed.

(** One iteration of the loop: the two least nodes are extracted, the
    first one becomes the left child and the second one the right child
    of the node that is pushed. *)
Lemma merge_step_spec heap :
  is_heap freq heap → 1 < length heap →
  ∃ left heap1 right heap2 heap',
    heapq.heappop Node_lt heap = Ok (left, heap1)
    ∧ heapq.heappop Node_lt heap1 = Ok (right, heap2)
    ∧ merge_step heap = Ok heap'
    ∧ heap ≡ₚ left :: heap1 ∧ heap1 ≡ₚ right :: heap2
    ∧ heap' ≡ₚ mkNode None (freq left + freq right) (Some left) (Some right) :: heap2
    ∧ (∀ x, x ∈ heap → freq left ≤ freq x)
    ∧ (∀ x, x ∈ heap1 → freq right ≤ freq x)
    ∧ is_heap freq heap'.
Proof.
  intros Hheap Hlen. unfold merge_step.
  destruct (heappop_spec Node_lt heap) as (left & heap1 & Hpop1 & Hperm1).
  { intros ->. simpl in Hlen. lia. }
  destruct (heappop_order Node_lt freq Node_lt_freq _ _ _ Hheap Hpop1)
    as [Hheap1 Hmin1].
  destruct (heappop_spec Node_lt heap1) as (right & heap2 & Hpop2 & Hperm2).
  { intros ->. apply Permutation_length in Hperm1. simpl in Hperm1. lia. }
  destruct (heappop_order Node_lt freq Node_lt_freq _ _ _ Hheap1 Hpop2)
    as [Hheap2 Hmin2].
  destruct (heappush_spec Node_lt heap2
    (mkNode None (freq left + freq right) (Some left) (Some right)))
    as (heap' & Hpush & Hperm').
  exists left, heap1, right, heap2, heap'.
  rewrite Hpop1. cbn [mbind result_bind]. rewrite Hpop2. cbn [mbind result_bind].
  split_and!; try done.
  by apply (heappush_order Node_lt freq Node_lt_freq) in Hpush.
Qed.

Lemma build_loop_spec fuel heap :
  is_heap freq heap → Forall well_formed heap → Forall left_lighter heap →
  heap ≠ [] → length heap ≤ S fuel →
  ∃ root, build_loop fuel heap = Ok [root]
    ∧ well_formed root ∧ left_lighter root ∧ leaves root ≡ₚ heap ≫= leaves.
Proof.
  revert heap. induction fuel as [|fuel IH];
    intros heap Hheap Hwf Hll Hne Hlen; cbn [build_loop].
  { destruct heap as [|root [|??]]; [done| |simpl in Hlen; lia].
    rewrite Forall_singleton in Hwf, Hll. exists root.
    split_and!; [done..|]. simpl. by rewrite app_nil_r. }
  case_decide as Hlt; cycle 1.
  { destruct heap as [|root [|??]]; [done| |simpl in Hlt; lia].
    rewrite Forall_singleton in Hwf, Hll. exists root.
    split_and!; [done..|]. simpl. by rewrite app_nil_r. }
  destruct (merge_step_spec heap Hheap Hlt)
    as (left & heap1 & right & heap2 & heap' & _ & _ & -> & Hp1 & Hp2 & Hp'
        & Hmin1 & Hmin2 & Hheap').
  cbn [mbind result_bind].
  assert (heap ≡ₚ left :: right :: heap2) as Hp by (by rewrite Hp1, Hp2).
  rewrite Hp in Hwf, Hll.
  apply Forall_cons in Hwf as [Hwfl [Hwfr Hwf]%Forall_cons].
  apply Forall_cons in Hll as [Hlll [Hllr Hll]%Forall_cons].
  destruct (IH heap') as (root & -> & ? & ? & Hleaves).
  - done.
  - rewrite Hp'. apply Forall_cons. split; [by constructor|done].
  - rewrite Hp'. apply Forall_cons. split; [|done].
    constructor; [done..|]. apply Hmin1. rewrite Hp. right. left.
  - intros ->. by apply Permutation_nil_cons in Hp'.
  - apply Permutation_length in Hp, Hp'. simpl in Hp, Hp'. lia.
  - exists root. split_and!; [done..|].
    rewrite Hleaves, Hp', Hp. rewrite !bind_cons. cbn [leaves].
    by rewrite (assoc_L (++)).
Qed.

Lemma build_huffman_tree_nil :
  build_huffman_tree (@nil (Symbol * nat)) = Raise IndexError.
Proof. done. Qed.

Lemma build_huffman_tree_spec frequencies :
  frequencies ≠ [] →
  ∃ root, build_huffman_tree frequencies = Ok root
    ∧ well_formed root ∧ left_lighter root ∧ leaves root ≡ₚ frequencies.
Proof.
  intros Hne. unfold build_huffman_tree.
  destruct (heapify_spec Node_lt (leaf <$> frequencies)) as (heap & Hify & Hperm).
  pose proof (heapify_order Node_lt freq Node_lt_freq _ _ Hify) as Hheap.
  rewrite Hify. cbn [mbind result_bind].
  destruct (build_loop_spec (length heap) heap) as (root & -> & ? & ? & Hleaves).
  - done.
  - rewrite Hperm. apply Forall_fmap, Forall_true. intros item. constructor.
  - rewrite Hperm. apply Forall_fmap, Forall_true. intros item. constructor.
  - intros ->. apply Permutation_nil in Hperm.
    by apply fmap_nil_inv in Hperm.
  - lia.
  - exists root. split_and!; [done..|].
    by rewrite Hleaves, Hperm, bind_leaves_leaf.
Qed.
End Build.

Section BuildFuel.
Context {Symbol : Type}.
Implicit Types (heap : list (Node Symbol)).

Lemma merge_step_length heap heap' :
  merge_step heap = Ok heap' → length heap = S (length heap').
Proof.
  unfold merge_step.
  destruct (heapq.heappop Node_lt heap) as [[left heap1]|] eqn:Hp1; [|done].
  cbn [mbind result_bind].
  destruct (heapq.heappop Node_lt heap1) as [[right heap2]|] eqn:Hp2; [|done].
  cbn [mbind result_bind]. intros Hpush.
  destruct (heappop_spec Node_lt heap) as (? & ? & Hp1' & Hperm1).
  { intros ->. by rewrite heappop_nil in Hp1. }
  destruct (heappop_spec Node_lt heap1) as (? & ? & Hp2' & Hperm2).
  { intros ->. by rewrite heappop_nil in Hp2. }
  destruct (heappush_spec Node_lt heap2
    (mkNode None (freq left + freq right) (Some left) (Some right)))
    as (? & Hpush' & Hperm3).
  rewrite Hp1 in Hp1'. rewrite Hp2 in Hp2'. rewrite Hpush in Hpush'.
  injection Hp1' as <- <-. injection Hp2' as <- <-. injection Hpush' as <-.
  apply Permutation_length in Hperm1, Hperm2, Hperm3. simpl in *. lia.
Qed.

(** The same for the loop of [build_huffman_tree]: [len(heap)] iterations
    are never used up. *)
Lemma build_loop_fuel fuel1 fuel2 heap :
  length heap ≤ S fuel1 → length heap ≤ S fuel2 →
  build_loop fuel1 heap = build_loop fuel2 heap.
Proof.
  revert fuel2 heap. induction fuel1 as [|fuel1 IH];
    intros [|fuel2] heap H1 H2; cbn [build_loop]; try done.
  - case_decide; [lia|done].
  - case_decide; [lia|done].
  - case_decide as Hlt; [|done].
    destruct (merge_step heap) as [heap'|] eqn:Hstep; [|done].
    cbn [mbind result_bind]. apply merge_step_length in Hstep.
    apply IH; lia.
Qed.
End BuildFuel.

(** ** [generate_codes] *)

Section Codes.
Context {Symbol : Type} `{EqDecision Symbol}.
Implicit Types (node root : Node Symbol) (prefix code : list bool).
Implicit Types (codebook : dict Symbol (list bool)).

Lemma prefix_branch prefix code (b1 b2 : bool) :
  (prefix ++ [b1]) `prefix_of` code → (prefix ++ [b2]) `prefix_of` code → b1 = b2.
Proof.
  intros H1 H2.
  assert (code !! length prefix = Some b1) as E1.
  { apply (prefix_lookup_Some (prefix ++ [b1])); [by apply list_lookup_middle|done]. }
  assert (code !! length prefix = Some b2) as E2.
  { apply (prefix_lookup_Some (prefix ++ [b2])); [by apply list_lookup_middle|done]. }
  congruence.
Qed.

Lemma paths_keys node prefix :
  well_formed node → (paths node prefix).*1 = (leaves node).*1.
Proof.
  intros Hwf. revert prefix.
  induction Hwf as [c f|l r _ IHl _ IHr]; intros prefix; cbn [paths leaves].
  - done.
  - by rewrite !fmap_app, IHl, IHr.
Qed.

Lemma paths_extend node prefix c code :
  well_formed node → (c, code) ∈ paths node prefix → prefix `prefix_of` code.
Proof.
  intros Hwf. revert prefix.
  induction Hwf as [c' f|l r _ IHl _ IHr]; intros prefix; cbn [paths].
  - by intros [= _ ->]%list_elem_of_singleton.
  - intros [Hin|Hin]%elem_of_app.
    + apply IHl in Hin. by eapply prefix_app_l.
    + apply IHr in Hin. by eapply prefix_app_l.
Qed.

Lemma paths_internal_longer f (l r : Node Symbol) prefix c code :
  well_formed l → well_formed r →
  (c, code) ∈ paths (mkNode None f (Some l) (Some r)) prefix →
  length prefix < length code.
Proof.
  intros Hl Hr. cbn [paths].
  intros [Hin|Hin]%elem_of_app; eapply paths_extend in Hin; try done;
    apply prefix_length in Hin; rewrite length_app in Hin; simpl in Hin; lia.
Qed.

Lemma paths_prefix_index node prefix i j c1 code1 c2 code2 :
  well_formed node →
  paths node prefix !! i = Some (c1, code1) →
  paths node prefix !! j = Some (c2, code2) →
  code1 `prefix_of` code2 → i = j.
Proof.
  intros Hwf. revert prefix i j.
  induction Hwf as [c f|l r Hl IHl Hr IHr]; intros prefix i j; cbn [paths].
  - intros Hi%lookup_lt_Some Hj%lookup_lt_Some _. simpl in *. lia.
  - intros Hi Hj Hpre.
    apply lookup_app_Some in Hi as [Hi|[Hil Hi]];
      apply lookup_app_Some in Hj as [Hj|[Hjl Hj]].
    + by eapply IHl.
    + exfalso.
      apply list_elem_of_lookup_2, (paths_extend _ _ _ _ Hl) in Hi.
      apply list_elem_of_lookup_2, (paths_extend _ _ _ _ Hr) in Hj.
      assert (false = true); [|done].
      apply (prefix_branch prefix code2); [|done]. by etrans.
    + exfalso.
      apply list_elem_of_lookup_2, (paths_extend _ _ _ _ Hr) in Hi.
      apply list_elem_of_lookup_2, (paths_extend _ _ _ _ Hl) in Hj.
      assert (true = false); [|done].
      apply (prefix_branch prefix code2); [|done]. by etrans.
    + assert (i - length (paths l (prefix ++ [false]))
              = j - length (paths l (prefix ++ [false]))); [|lia].
      by eapply IHr.
Qed.

Lemma paths_prefix_free node prefix :
  well_formed node → NoDup (leaves node).*1 → prefix_free (paths node prefix).
Proof.
  intros Hwf Hnd c1 c2 code1 code2
    [i Hi]%list_elem_of_lookup [j Hj]%list_elem_of_lookup Hpre.
  assert (i = j) as -> by (by eapply paths_prefix_index).
  congruence.
Qed.

Lemma generate_codes_spec node prefix codebook :
  well_formed node →
  generate_codes node prefix codebook
  = Ok (fold_left (λ d kv, dict_set d kv.1 kv.2) (paths node prefix) codebook).
Proof.
  intros Hwf. revert prefix codebook.
  induction Hwf as [c f|l r _ IHl _ IHr]; intros prefix codebook;
    cbn [generate_codes paths].
  - done.
  - rewrite IHl. cbn [mbind result_bind]. rewrite IHr. by rewrite fold_left_app.
Qed.

Lemma fold_dict_set_fresh (l d : dict Symbol (list bool)) :
  NoDup (keys (d ++ l)) →
  fold_left (λ d kv, dict_set d kv.1 kv.2) l d = d ++ l.
Proof.
  revert d. induction l as [|[k v] l IH]; intros d Hnd; cbn [fold_left fst snd].
  - by rewrite app_nil_r.
  - assert (dict_set d k v = d ++ [(k, v)]) as ->.
    { unfold keys in Hnd. rewrite fmap_app, fmap_cons in Hnd.
      apply NoDup_app in Hnd as (_ & Hnotin & _).
      clear IH. induction d as [|[k0 v0] d IHd]; [done|].
      cbn [dict_set]. rewrite decide_False.
      - rewrite IHd; [done|]. intros x Hx. apply Hnotin. by right.
      - intros ->. apply (Hnotin k0); by left. }
    rewrite IH; rewrite <-(assoc_L (++)); done.
Qed.

Lemma generate_codes_paths root :
  well_formed root → NoDup (leaves root).*1 →
  generate_codes root [] [] = Ok (paths root []).
Proof.
  intros Hwf Hnd. rewrite generate_codes_spec by done.
  rewrite fold_dict_set_fresh; [done|].
  unfold keys. by rewrite app_nil_l, paths_keys.
Qed.
End Codes.

(** ** From the frequency table to the code table *)

Section Table.
Context {Symbol : Type} `{EqDecision Symbol}.
Implicit Types (node root : Node Symbol) (prefix code : list bool).
Implicit Types (codebook : dict Symbol (list bool)) (text : list Symbol).
Implicit Types (frequencies : dict Symbol nat).

Lemma dict_getitem_Some codebook c code :
  dict_get codebook c = Some code → dict_getitem codebook c = Ok code.
Proof. unfold dict_getitem. by intros ->. Qed.

Lemma dict_getitem_None codebook c :
  dict_get codebook c = None → dict_getitem codebook c = Raise KeyError.
Proof. unfold dict_getitem. by intros ->. Qed.

(** From a frequency table to its tree and code table. *)
Lemma codebook_spec frequencies :
  NoDup (keys frequencies) → frequencies ≠ [] →
  ∃ root, build_huffman_tree frequencies = Ok root
    ∧ well_formed root ∧ left_lighter root ∧ leaves root ≡ₚ frequencies
    ∧ generate_codes root [] [] = Ok (paths root [])
    ∧ NoDup (keys (paths root []))
    ∧ keys (paths root []) ≡ₚ keys frequencies
    ∧ prefix_free (paths root []).
Proof.
  intros Hnd Hne.
  destruct (build_huffman_tree_spec frequencies Hne) as (root & Hb & Hwf & Hll & Hl).
  assert (NoDup (leaves root).*1) as Hndl by (by rewrite Hl).
  exists root. split_and!; try done.
  - by apply generate_codes_paths.
  - unfold keys. by rewrite paths_keys.
  - unfold keys. by rewrite paths_keys, Hl.
  - by apply paths_prefix_free.
Qed.

Lemma mapM_dict_getitem codebook text :
  (∀ c, c ∈ text → c ∈ keys codebook) →
  mapM (dict_getitem codebook) text = Ok (code_of codebook <$> text).
Proof.
  induction text as [|c text IH]; intros Hin; cbn [mapM]; [done|].
  assert (c ∈ keys codebook) as Hc by (apply Hin; left).
  destruct (dict_get codebook c) as [code|] eqn:E; [|by apply dict_get_None in E].
  rewrite (dict_getitem_Some _ _ _ E). cbn [mbind result_bind].
  rewrite IH by (intros ??; apply Hin; by right).
  rewrite fmap_cons. unfold code_of at 2. by rewrite E.
Qed.

Lemma encode_text_total codebook text :
  (∀ c, c ∈ text → c ∈ keys codebook) →
  encode_text text codebook = Ok (text ≫= code_of codebook).
Proof.
  intros Hin. unfold encode_text. rewrite mapM_dict_getitem by done.
  cbn [mbind result_bind]. f_equal. clear Hin. induction text as [|c text IH]; [done|].
  rewrite fmap_cons, bind_cons. cbn [concat]. by rewrite IH.
Qed.

Lemma encode_text_KeyError codebook text c :
  c ∈ text → c ∉ keys codebook → encode_text text codebook = Raise KeyError.
Proof.
  intros Hin Hnot. unfold encode_text.
  assert (mapM (dict_getitem codebook) text = Raise KeyError) as ->; [|done].
  induction text as [|x text IH]; [by apply elem_of_nil in Hin|].
  cbn [mapM].
  destruct (dict_get codebook x) as [code|] eqn:E; cycle 1.
  { by rewrite (dict_getitem_None _ _ E). }
  rewrite (dict_getitem_Some _ _ _ E). cbn [mbind result_bind].
  rewrite IH; [done|]. apply elem_of_cons in Hin as [->|]; [|done].
  apply dict_get_None in Hnot. congruence.
Qed.

Lemma count_char_replicate (c : Symbol) k m :
  fold_left count_char (replicate k c) [(c, m)] = [(c, m + k)].
Proof.
  revert m. induction k as [|k IH]; intros m; cbn [replicate fold_left].
  - by rewrite Nat.add_0_r.
  - unfold count_char at 2. cbn [dict_get dict_set]. rewrite !decide_True by done.
    cbn [default from_option id]. rewrite IH.
    by replace (m + 1 + k) with (m + S k) by lia.
Qed.

End Table.

(** ** Packing and unpacking bits *)

Section Pack.
Implicit Types (bits chunk s : list bool) (n m k : nat).

Lemma pad_length_lt n : pad_length n < 8.
Proof. unfold pad_length. apply Nat.mod_upper_bound. lia. Qed.

Lemma pad_length_mod n : (n + pad_length n) mod 8 = 0.
Proof.
  unfold pad_length. pose proof (Nat.mod_upper_bound n 8 ltac:(lia)).
  destruct (decide (n mod 8 = 0)) as [E|E].
  - rewrite E. change ((8 - 0) mod 8) with 0. by rewrite Nat.add_0_r.
  - rewrite (Nat.mod_small (8 - n mod 8)) by lia.
    rewrite <-Nat.Div0.add_mod_idemp_l.
    replace (n mod 8 + (8 - n mod 8)) with 8 by lia. done.
Qed.

Lemma pad_length_div n : n + pad_length n = 8 * ((n + 7) / 8).
Proof.
  pose proof (pad_length_lt n). pose proof (pad_length_mod n) as Hm.
  pose proof (Nat.div_mod_eq (n + pad_length n) 8) as Hd. rewrite Hm in Hd.
  pose proof (Nat.div_mod_eq (n + 7) 8).
  pose proof (Nat.mod_upper_bound (n + 7) 8 ltac:(lia)).
  assert ((n + pad_length n) / 8 = (n + 7) / 8); [|lia].
  apply Nat.le_antisymm.
  - apply Nat.Div0.div_le_mono. lia.
  - apply Nat.div_le_lower_bound; lia.
Qed.

Lemma binary_value_snoc s (b : bool) :
  binary_value (s ++ [b]) = (2 * binary_value s + N.b2n b)%N.
Proof. unfold binary_value. by rewrite fold_left_app. Qed.

Lemma binary_value_testbit s r (b : bool) :
  s !! r = Some b →
  N.testbit (binary_value s) (N.of_nat (length s - 1 - r)) = b.
Proof.
  revert r. induction s as [|x s IH] using rev_ind; intros r Hr; [done|].
  rewrite binary_value_snoc, length_app. cbn [length].
  apply lookup_app_Some in Hr as [Hr|[Hle Hr]].
  - pose proof (lookup_lt_Some _ _ _ Hr).
    replace (length s + 1 - 1 - r) with (S (length s - 1 - r)) by lia.
    rewrite Nat2N.inj_succ, N.testbit_succ_r. by apply IH.
  - apply list_lookup_singleton_Some in Hr as [Hr ->].
    replace (length s + 1 - 1 - r) with 0 by lia. apply N.testbit_0_r.
Qed.

Lemma binary_value_bound s : (binary_value s < 2 ^ N.of_nat (length s))%N.
Proof.
  induction s as [|x s IH] using rev_ind; [done|].
  rewrite binary_value_snoc, length_app. cbn [length].
  replace (length s + 1) with (S (length s)) by lia.
  rewrite Nat2N.inj_succ, N.pow_succ_r'. destruct x; cbn [N.b2n]; lia.
Qed.

Lemma format_08b_binary_value chunk :
  length chunk = 8 → format_08b (binary_value chunk) = chunk.
Proof.
  intros Hlen.
  do 8 (destruct chunk as [|? chunk]; [done|]). destruct chunk; [|done].
  repeat match goal with b : bool |- _ => destruct b end; reflexivity.
Qed.

Lemma chunks_length bits m : length (chunks bits m) = m.
Proof. unfold chunks. by rewrite length_fmap, length_seq. Qed.

Lemma chunks_lookup bits m k chunk :
  length bits = 8 * m → chunks bits m !! k = Some chunk →
  chunk = take 8 (drop (k * 8) bits) ∧ length chunk = 8 ∧ k < m.
Proof.
  unfold chunks. intros Hlen Hk. rewrite list_lookup_fmap in Hk.
  destruct (seq 0 m !! k) as [k'|] eqn:E; [|done].
  apply lookup_seq in E as [-> ?]. cbn in Hk. injection Hk as <-.
  split_and!; [done| |done]. rewrite length_take, length_drop. lia.
Qed.

Lemma concat_chunks bits m : length bits = 8 * m → concat (chunks bits m) = bits.
Proof.
  unfold chunks. revert bits. induction m as [|m IH]; intros bits Hlen.
  { by destruct bits. }
  cbn [seq]. rewrite fmap_cons. cbn [concat].
  rewrite <-fmap_S_seq, <-list_fmap_compose.
  transitivity (take 8 bits ++ drop 8 bits); [|apply take_drop].
  f_equal. rewrite <-(IH (drop 8 bits)) by (rewrite length_drop; lia).
  f_equal. apply list_fmap_ext. intros _ k _. unfold compose.
  rewrite drop_drop. do 2 f_equal; lia.
Qed.

Lemma mapM_Ok {X Y} (f : X → result Y) (g : X → Y) (l : list X) :
  (∀ x, x ∈ l → f x = Ok (g x)) → mapM f l = Ok (g <$> l).
Proof.
  induction l as [|x l IH]; intros Hf; cbn [mapM]; [done|].
  rewrite Hf by left. cbn [mbind result_bind].
  rewrite IH by (intros ??; apply Hf; by right). done.
Qed.

Lemma range_step_8 m : range_step (8 * m) 8 = (λ k, k * 8) <$> seq 0 m.
Proof.
  unfold range_step. do 2 f_equal.
  replace (8 * m + 8 - 1) with (7 + m * 8) by lia.
  rewrite Nat.div_add by lia. done.
Qed.

(** What [pack] computes. *)
Lemma pack_spec bits :
  let padded := bits ++ replicate (pad_length (length bits)) false in
  let m := (length bits + 7) / 8 in
  pack bits = Ok (binary_value <$> chunks padded m)
  ∧ length padded = 8 * m
  ∧ Forall (λ byte, (byte < 256)%N) (binary_value <$> chunks padded m).
Proof.
  intros padded m.
  assert (length padded = 8 * m) as Hlen.
  { unfold padded. rewrite length_app, length_replicate. apply pad_length_div. }
  assert (Forall (λ byte, (byte < 256)%N) (binary_value <$> chunks padded m)) as Hb.
  { apply Forall_fmap, Forall_lookup. intros k chunk Hk.
    apply chunks_lookup in Hk as (_ & Hc & _); [|done]. cbn.
    pose proof (binary_value_bound chunk) as Hv. by rewrite Hc in Hv. }
  split_and!; [|done..].
  unfold pack. fold padded. rewrite Hlen, range_step_8.
  rewrite (mapM_Ok _ (λ i, binary_value (slice padded i (i + 8)))).
  - cbn [mbind result_bind]. rewrite <-list_fmap_compose. unfold bytearray.
    assert ((λ i, binary_value (slice padded i (i + 8))) ∘ (λ k, k * 8) <$> seq 0 m
            = binary_value <$> chunks padded m) as ->.
    { unfold chunks. rewrite <-list_fmap_compose. apply list_fmap_ext.
      intros _ k _. cbn. unfold slice. do 2 f_equal. lia. }
    rewrite (proj2 (forallb_forall _ _)); [done|].
    intros byte Hin%list_elem_of_In. rewrite Forall_forall in Hb.
    apply Hb in Hin. unfold is_byte. by apply N.ltb_lt.
  - intros i [k [-> Hk%elem_of_seq]]%list_elem_of_fmap.
    unfold slice, int2. replace (k * 8 + 8 - k * 8) with 8 by lia.
    destruct (take 8 (drop (k * 8) padded)) eqn:E; [|done].
    apply (f_equal length) in E. rewrite length_take, length_drop in E.
    cbn [length] in E. lia.
Qed.

Lemma unpack_chunks (cs : list (list bool)) :
  Forall (λ chunk, length chunk = 8) cs →
  (binary_value <$> cs) ≫= format_08b = concat cs.
Proof.
  induction 1 as [|chunk cs Hc _ IH]; [done|].
  rewrite fmap_cons, bind_cons. cbn [concat].
  by rewrite format_08b_binary_value, IH.
Qed.

Lemma unpack_pack bits byte_array :
  pack bits = Ok byte_array →
  byte_array ≫= format_08b = bits ++ replicate (pad_length (length bits)) false.
Proof.
  destruct (pack_spec bits) as (-> & Hlen & _). intros [= <-].
  rewrite unpack_chunks; [by apply concat_chunks|].
  apply Forall_lookup. intros k chunk Hk.
  by apply chunks_lookup in Hk as (_ & ? & _).
Qed.

Lemma pack_total bits : ∃ byte_array, pack bits = Ok byte_array.
Proof. destruct (pack_spec bits) as (-> & _). eauto. Qed.
End Pack.

(** ** [decode_text] *)

Section Decode.
Context {Symbol : Type} `{EqDecision Symbol}.
Implicit Types (code bits rest : list bool) (text out : list Symbol).
Implicit Types (codebook : dict Symbol (list bool)).

Lemma reverse_loop_other codebook (d : dict (list bool) Symbol) code :
  code ∉ values codebook →
  dict_get (fold_left (λ d kv, dict_set d kv.2 kv.1) codebook d) code
  = dict_get d code.
Proof.
  unfold values. revert d.
  induction codebook as [|[c0 code0] codebook IH]; intros d Hnot; cbn [fold_left]; [done|].
  rewrite fmap_cons in Hnot. apply not_elem_of_cons in Hnot as [Hne Hnot].
  rewrite IH by done. cbn [fst snd]. rewrite dict_get_set.
  by rewrite decide_False.
Qed.

Lemma reverse_loop_get codebook (d : dict (list bool) Symbol) c code :
  NoDup (values codebook) → (c, code) ∈ codebook →
  dict_get (fold_left (λ d kv, dict_set d kv.2 kv.1) codebook d) code = Some c.
Proof.
  unfold values. revert d.
  induction codebook as [|[c0 code0] codebook IH]; intros d Hnd Hin; cbn [fold_left].
  { by apply elem_of_nil in Hin. }
  rewrite fmap_cons in Hnd. apply NoDup_cons in Hnd as [Hnot Hnd].
  apply elem_of_cons in Hin as [[= -> ->]|Hin].
  - rewrite reverse_loop_other by done. cbn [fst snd]. rewrite dict_get_set.
    by rewrite decide_True.
  - by apply IH.
Qed.

Lemma prefix_free_NoDup_values codebook :
  NoDup (keys codebook) → prefix_free codebook → NoDup (values codebook).
Proof.
  intros Hnd Hpf. unfold values. apply NoDup_fmap_2_strong.
  - intros [c1 code1] [c2 code2] H1 H2. cbn. intros ->.
    f_equal. by apply (Hpf c1 c2 code2 code2).
  - by apply NoDup_fmap_1 in Hnd.
Qed.

Lemma NoDup_keys_eq codebook c code1 code2 :
  NoDup (keys codebook) → (c, code1) ∈ codebook → (c, code2) ∈ codebook →
  code1 = code2.
Proof.
  intros Hnd H1%(dict_get_Some _ _ _ Hnd) H2%(dict_get_Some _ _ _ Hnd). congruence.
Qed.

Section WithTable.
Context (codebook : dict Symbol (list bool)).
Context (Hkeys : NoDup (keys codebook)) (Hfree : prefix_free codebook).

Lemma reverse_codebook_get c code :
  (c, code) ∈ codebook → dict_get (reverse_codebook codebook) code = Some c.
Proof.
  apply reverse_loop_get. by apply prefix_free_NoDup_values.
Qed.

Lemma reverse_codebook_proper_prefix c code pre :
  (c, code) ∈ codebook → pre `prefix_of` code → length pre < length code →
  dict_get (reverse_codebook codebook) pre = None.
Proof.
  intros Hin Hpre Hlen. unfold reverse_codebook.
  rewrite reverse_loop_other; [done|].
  intros [[c' code'] [Heq Hin']]%list_elem_of_fmap. cbn in Heq. subst code'.
  assert (c' = c) as -> by (by apply (Hfree c' c pre code)).
  assert (pre = code) as -> by (by eapply NoDup_keys_eq).
  lia.
Qed.

Lemma decode_code_loop c code suf pre rest out :
  (c, code) ∈ codebook → pre ++ suf = code → suf ≠ [] →
  fold_left (decode_step (reverse_codebook codebook)) (suf ++ rest) (pre, out)
  = fold_left (decode_step (reverse_codebook codebook)) rest ([], out ++ [c]).
Proof.
  intros Hin. revert pre. induction suf as [|b suf IH]; intros pre Hcode Hne; [done|].
  cbn [app fold_left]. unfold decode_step at 2. cbn [fst snd].
  destruct suf as [|b' suf].
  - rewrite Hcode, (reverse_codebook_get c code Hin). done.
  - rewrite (reverse_codebook_proper_prefix c code).
    + apply IH; [|done]. by rewrite <-(assoc_L (++)).
    + done.
    + exists (b' :: suf). by rewrite <-(assoc_L (++)).
    + rewrite <-Hcode, !length_app. simpl. lia.
Qed.

Lemma decode_encode_loop text rest out :
  (∀ c, c ∈ text → ∃ code, (c, code) ∈ codebook ∧ code ≠ []) →
  fold_left (decode_step (reverse_codebook codebook))
            ((text ≫= code_of codebook) ++ rest) ([], out)
  = fold_left (decode_step (reverse_codebook codebook)) rest ([], out ++ text).
Proof.
  revert out. induction text as [|c text IH]; intros out Hin.
  { by rewrite app_nil_r. }
  destruct (Hin c) as (code & Hc & Hne); [left|].
  rewrite bind_cons, <-(assoc_L (++)).
  assert (code_of codebook c = code) as ->.
  { unfold code_of. by rewrite (dict_get_Some _ _ _ Hkeys Hc). }
  rewrite (decode_code_loop c code code []); [|done..].
  rewrite IH by (intros ??; apply Hin; by right).
  by rewrite <-(assoc_L (++)).
Qed.
End WithTable.

Lemma decode_loop_out (rc : dict (list bool) Symbol) bits cur out :
  (fold_left (decode_step rc) bits (cur, out)).2
  = out ++ (fold_left (decode_step rc) bits (cur, [])).2.
Proof.
  revert cur out. induction bits as [|b bits IH]; intros cur out; cbn [fold_left].
  { by rewrite app_nil_r. }
  unfold decode_step at 2 4. cbn [fst snd].
  destruct (dict_get rc (cur ++ [b])) as [c|].
  - rewrite IH, (IH _ ([] ++ [c])). by rewrite (assoc_L (++)).
  - apply IH.
Qed.

Lemma decode_text_encoded codebook text rest :
  NoDup (keys codebook) → prefix_free codebook →
  (∀ c, c ∈ text → ∃ code, (c, code) ∈ codebook ∧ code ≠ []) →
  decode_text ((text ≫= code_of codebook) ++ rest) codebook
  = text ++ decode_text rest codebook.
Proof.
  intros Hnd Hpf Hin. unfold decode_text.
  rewrite decode_encode_loop by done. by rewrite decode_loop_out.
Qed.

Lemma decode_text_app_prefix codebook bits rest :
  decode_text bits codebook `prefix_of` decode_text (bits ++ rest) codebook.
Proof.
  unfold decode_text. rewrite fold_left_app.
  destruct (fold_left _ bits _) as [cur out]. cbn [snd].
  rewrite decode_loop_out. by eexists.
Qed.
End Decode.

(** ** Decoding a truncated payload *)

Section Truncation.
Context {Symbol : Type} `{EqDecision Symbol}.
Implicit Types (code bits rest pre suf : list bool) (text out : list Symbol).
Implicit Types (codebook : dict Symbol (list bool)).

Lemma decode_proper_prefix_loop codebook c code suf pre out :
  NoDup (keys codebook) → prefix_free codebook → (c, code) ∈ codebook →
  (pre ++ suf) `prefix_of` code → length (pre ++ suf) < length code →
  fold_left (decode_step (reverse_codebook codebook)) suf (pre, out)
  = (pre ++ suf, out).
Proof.
  intros Hnd Hpf Hin. revert pre.
  induction suf as [|b suf IH]; intros pre Hpre Hlen; cbn [fold_left].
  { by rewrite app_nil_r. }
  unfold decode_step at 2. cbn [fst snd].
  rewrite (cons_middle b pre suf), (assoc_L (++)) in Hpre, Hlen.
  rewrite (reverse_codebook_proper_prefix codebook Hnd Hpf c code).
  - rewrite IH by done. by rewrite <-(assoc_L (++)).
  - done.
  - by eapply prefix_app_l.
  - rewrite length_app in Hlen. lia.
Qed.

(** Decoding a proper prefix of an encoded text gives a proper prefix of
    the text. *)
Lemma decode_text_proper_prefix codebook text bits :
  NoDup (keys codebook) → prefix_free codebook →
  (∀ c, c ∈ text → ∃ code, (c, code) ∈ codebook ∧ code ≠ []) →
  bits `prefix_of` (text ≫= code_of codebook) →
  length bits < length (text ≫= code_of codebook) →
  ∃ k, k < length text ∧ decode_text bits codebook = take k text.
Proof.
  intros Hnd Hpf. revert bits.
  induction text as [|c text IH]; intros bits Hin Hpre Hlen.
  { simpl in Hlen. lia. }
  destruct (Hin c) as (code & Hc & Hne); [left|].
  assert (code_of codebook c = code) as Hcode.
  { unfold code_of. by rewrite (dict_get_Some _ _ _ Hnd Hc). }
  rewrite bind_cons, Hcode in Hpre, Hlen.
  destruct (decide (length bits < length code)) as [Hshort|Hlong].
  - exists 0. split; [simpl; lia|].
    unfold decode_text.
    rewrite (decode_proper_prefix_loop codebook c code bits [] []); try done.
    destruct (prefix_weak_total bits code _ Hpre) as [?|Hp]; [by eexists|done|].
    apply prefix_length in Hp. lia.
  - destruct (prefix_weak_total bits code _ Hpre) as [Hp|[bits' ->]]; [by eexists| |].
    { apply prefix_length_eq in Hp; [|lia]. subst bits.
      exists 1. split.
      - simpl. destruct text as [|c' text]; [|simpl; lia].
        rewrite length_app in Hlen. simpl in Hlen. lia.
      - destruct text as [|c' text].
        { rewrite length_app in Hlen. simpl in Hlen. lia. }
        pose proof (decode_text_encoded codebook [c] [] Hnd Hpf) as Hd.
        rewrite bind_cons, Hcode in Hd. cbn in Hd. rewrite !app_nil_r in Hd.
        rewrite Hd; [done|]. intros x ->%list_elem_of_singleton. eauto. }
    apply prefix_app_inv in Hpre. rewrite !length_app in Hlen.
    destruct (IH bits') as (k & Hk & Hd); [|done|lia|].
    { intros ??. apply Hin. by right. }
    exists (S k). split; [simpl; lia|].
    pose proof (decode_text_encoded codebook [c] bits' Hnd Hpf) as Hd'.
    rewrite bind_cons, Hcode in Hd'. cbn in Hd'. rewrite app_nil_r in Hd'.
    rewrite Hd', Hd; [done|]. intros x ->%list_elem_of_singleton. eauto.
Qed.

Lemma format_08b_bytes_length (byte_array : list N) bits :
  pack bits = Ok byte_array →
  Forall (λ byte, length (format_08b byte) = 8) byte_array.
Proof.
  destruct (pack_spec bits) as (-> & Hlen & _). intros [= <-].
  apply Forall_fmap, Forall_lookup. intros k chunk Hk. cbn.
  apply chunks_lookup in Hk as (_ & Hc & _); [|done].
  by rewrite format_08b_binary_value.
Qed.

Lemma pack_length bits (byte_array : list N) :
  pack bits = Ok byte_array → length byte_array = (length bits + 7) / 8.
Proof.
  destruct (pack_spec bits) as (-> & _ & _). intros [= <-].
  by rewrite length_fmap, chunks_length.
Qed.

(** The bits of the payload without its last byte are a proper prefix of
    the encoded text. *)
Lemma truncated_payload bits (byte_array : list N) :
  bits ≠ [] → pack bits = Ok byte_array →
  byte_array ≠ []
  ∧ (removelast byte_array ≫= format_08b) `prefix_of` bits
  ∧ length (removelast byte_array ≫= format_08b) < length bits.
Proof.
  intros Hne Hpack.
  pose proof (pack_length _ _ Hpack) as Hlen.
  pose proof (unpack_pack _ _ Hpack) as Hun.
  pose proof (format_08b_bytes_length _ _ Hpack) as Hfmt.
  pose proof (pad_length_div (length bits)) as Hdiv. rewrite <-Hlen in Hdiv.
  pose proof (pad_length_lt (length bits)) as Hpad.
  assert (0 < length bits) as Hpos by (destruct bits; [done|simpl; lia]).
  assert (byte_array ≠ []) as Hne'.
  { intros ->. simpl in Hdiv. lia. }
  split; [done|].
  destruct (exists_last Hne') as (init & lastb & ->).
  rewrite removelast_last.
  rewrite bind_app in Hun.
  change ([lastb] ≫= format_08b) with (format_08b lastb ++ []) in Hun.
  rewrite app_nil_r in Hun.
  apply Forall_app in Hfmt as [_ Hl]. rewrite Forall_singleton in Hl.
  assert (length (init ≫= format_08b) + 8
          = length bits + pad_length (length bits)) as Hlen'.
  { rewrite <-Hl, <-length_app, Hun, length_app, length_replicate. done. }
  assert (init ≫= format_08b = take (length (init ≫= format_08b)) bits) as Heq.
  { rewrite <-(take_app_le bits (replicate (pad_length (length bits)) false)) by lia.
    rewrite <-Hun. by rewrite take_app_length. }
  split; [|lia]. rewrite Heq. apply prefix_take.
Qed.
End Truncation.

(** ** Decoding the padding *)

Section Padding.
Context {Symbol : Type} `{EqDecision Symbol}.
Implicit Types (codebook : dict Symbol (list bool)) (node root : Node Symbol).

(** The leftmost leaf has the code made of zeros only. *)
Lemma paths_leftmost node prefix :
  well_formed node →
  ∃ z d, paths node prefix !! 0 = Some (z, prefix ++ replicate d false).
Proof.
  intros Hwf. revert prefix.
  induction Hwf as [c f|l r _ IHl _ _]; intros prefix; cbn [paths].
  - exists c, 0. by rewrite app_nil_r.
  - destruct (IHl (prefix ++ [false])) as (z & d & Hz).
    exists z, (S d). rewrite lookup_app_l by (by eapply lookup_lt_Some).
    rewrite Hz. by rewrite <-(assoc_L (++)).
Qed.

(** A run of [p] zeros decodes to copies of the symbol whose code is all
    zeros, one for every full code. *)
Lemma decode_text_zeros codebook z d p :
  NoDup (keys codebook) → prefix_free codebook →
  (z, replicate d false) ∈ codebook → 0 < d →
  decode_text (replicate p false) codebook = replicate (p / d) z.
Proof.
  intros Hnd Hpf Hz Hd. induction (lt_wf p) as [p _ IH].
  destruct (decide (p < d)) as [Hlt|Hge].
  - rewrite Nat.div_small by done. unfold decode_text.
    rewrite (decode_proper_prefix_loop codebook z (replicate d false)
               (replicate p false) [] []); try done.
    + exists (replicate (d - p) false). cbn [app].
      rewrite <-replicate_add. f_equal. lia.
    + cbn [app]. rewrite !length_replicate. done.
  - replace p with (d + (p - d)) at 1 by lia. rewrite replicate_add.
    pose proof (decode_text_encoded codebook [z] (replicate (p - d) false) Hnd Hpf)
      as Hdec.
    rewrite bind_cons in Hdec. unfold code_of at 1 in Hdec.
    rewrite (dict_get_Some _ _ _ Hnd Hz) in Hdec.
    cbn [default from_option id] in Hdec.
    change ([] ≫= code_of codebook) with (@nil bool) in Hdec.
    rewrite app_nil_r in Hdec. rewrite Hdec; cycle 1.
    { intros x ->%list_elem_of_singleton. exists (replicate d false).
      split; [done|]. destruct d; [lia|done]. }
    rewrite IH by lia. cbn [app].
    replace p with ((p - d) + 1 * d) at 2 by lia.
    rewrite Nat.div_add by lia. by rewrite Nat.add_1_r.
Qed.
End Padding.

(** ** [compress_file] and [decompress_file] *)

Section Pipeline.
Context {Symbol : Type} `{EqDecision Symbol}.
Context `{!Pickle (dict Symbol (list bool))}.
Implicit Types (input text : list Symbol) (root : Node Symbol).
Implicit Types (codebook : dict Symbol (list bool)) (byte_array file : list N).
Implicit Types (bits : list bool).

Lemma byte_data_written codebook byte_array :
  byte_data (write_header codebook ++ byte_array) codebook = byte_array.
Proof. unfold byte_data, write_header. by rewrite drop_app_length. Qed.

Lemma read_header_written codebook byte_array :
  read_header (write_header codebook ++ byte_array) = Ok codebook.
Proof. unfold read_header, write_header. apply pickle_load_dumps. Qed.

Lemma read_encoded_text_written codebook byte_array :
  read_encoded_text (write_header codebook ++ byte_array) codebook
  = decode_text (byte_array ≫= format_08b) codebook.
Proof. unfold read_encoded_text. by rewrite byte_data_written. Qed.

Context `{!Char Symbol}.

Lemma decompress_file_written codebook byte_array :
  decompress_file (write_header codebook ++ byte_array)
  = write_text (decode_text (byte_array ≫= format_08b) codebook).
Proof.
  unfold decompress_file. rewrite read_header_written. cbn [mbind result_bind].
  by rewrite read_encoded_text_written.
Qed.

Lemma write_text_Ok text : utf8_encodable text = true → write_text text = Ok text.
Proof. intros Henc. unfold write_text. by rewrite Henc. Qed.

Lemma utf8_encodable_incl text text' :
  (∀ c, c ∈ text' → c ∈ text) →
  utf8_encodable text = true → utf8_encodable text' = true.
Proof.
  unfold utf8_encodable. rewrite !forallb_forall. intros Hincl Henc c Hc.
  apply Henc. apply list_elem_of_In, Hincl, list_elem_of_In, Hc.
Qed.

(** What [compress_file] computes on a non-empty text. *)
Lemma compress_file_spec input :
  input ≠ [] →
  ∃ root byte_array,
    build_huffman_tree (calculate_frequencies input).1 = Ok root
    ∧ well_formed root
    ∧ leaves root ≡ₚ (calculate_frequencies input).1
    ∧ generate_codes root [] [] = Ok (paths root [])
    ∧ NoDup (keys (paths root []))
    ∧ prefix_free (paths root [])
    ∧ (∀ c, c ∈ input → c ∈ keys (paths root []))
    ∧ encode_text input (paths root []) = Ok (input ≫= code_of (paths root []))
    ∧ pack (input ≫= code_of (paths root [])) = Ok byte_array
    ∧ compress_file input = Ok (write_header (paths root []) ++ byte_array).
Proof.
  intros Hne.
  destruct (codebook_spec (calculate_frequencies input).1)
    as (root & Hb & Hwf & _ & Hl & Hg & Hnd & Hk & Hpf).
  { apply calculate_frequencies_NoDup. }
  { by apply calculate_frequencies_nonempty. }
  assert (∀ c, c ∈ input → c ∈ keys (paths root [])) as Hin.
  { intros c Hc. rewrite Hk. by apply calculate_frequencies_keys. }
  destruct (pack_total (input ≫= code_of (paths root []))) as [byte_array Hp].
  exists root, byte_array. split_and!; try done.
  - by apply encode_text_total.
  - unfold compress_file. cbn [calculate_frequencies fst snd].
    unfold calculate_frequencies in Hb. cbn [fst] in Hb. rewrite Hb.
    cbn [mbind result_bind]. rewrite Hg. cbn [mbind result_bind].
    unfold write_encoded_text. rewrite encode_text_total by done.
    cbn [mbind result_bind]. rewrite Hp. done.
Qed.

Lemma compress_file_nil : compress_file (@nil Symbol) = Raise IndexError.
Proof. done. Qed.

Lemma two_symbols_nonempty input : two_symbols input → input ≠ [].
Proof. intros (a & _ & Ha & _) ->. by apply elem_of_nil in Ha. Qed.

Lemma two_symbols_codes input root c code :
  two_symbols input → well_formed root →
  leaves root ≡ₚ (calculate_frequencies input).1 →
  (c, code) ∈ paths root [] → code ≠ [].
Proof.
  intros (a & b & Ha & Hb & Hab) Hwf Hl Hin.
  apply calculate_frequencies_keys in Ha, Hb. unfold keys in Ha, Hb.
  rewrite <-Hl in Ha, Hb.
  destruct Hwf as [c0 f|l r Hwl Hwr].
  - cbn in Ha, Hb. apply list_elem_of_singleton in Ha, Hb. congruence.
  - apply paths_internal_longer in Hin; [|done..].
    intros ->. simpl in Hin. lia.
Qed.
End Pipeline.

(** ** The reference serialiser meets the contract of [pickle] *)

Lemma load_loop_code code bytes entries c pre :
  Sample.load_loop ((Sample.dump_bit <$> code) ++ bytes) entries (Some (c, pre))
  = Sample.load_loop bytes entries (Some (c, pre ++ code)).
Proof.
  revert pre. induction code as [|b code IH]; intros pre.
  { by rewrite app_nil_r. }
  rewrite fmap_cons. cbn [app].
  destruct b; cbn [Sample.load_loop Sample.dump_bit];
    rewrite IH, <-(assoc_L (++)); done.
Qed.

Lemma load_loop_dumps codebook rest entries cur :
  Sample.load_loop (Sample.dumps codebook ++ rest) entries cur
  = Ok (entries ++ option_list cur ++ codebook).
Proof.
  unfold Sample.dumps. revert entries cur.
  induction codebook as [|[c code] codebook IH]; intros entries cur.
  { cbn. by rewrite app_nil_r. }
  rewrite bind_cons. unfold Sample.dump_entry at 1.
  cbn [fst snd app Sample.load_loop].
  rewrite <-!(assoc_L (++)), load_loop_code. rewrite (assoc_L (++)), IH.
  rewrite ascii_N_embedding. cbn [option_list app].
  by rewrite <-!(assoc_L (++)).
Qed.

Lemma load_dumps codebook rest :
  Sample.load (Sample.dumps codebook ++ rest) = Ok codebook.
Proof. unfold Sample.load. by rewrite load_loop_dumps. Qed.

#[export]
Instance sample_pickle : Pickle (dict ascii (list bool)) := {|
  pickle_dumps := Sample.dumps;
  pickle_load := Sample.load;
  pickle_load_dumps := load_dumps
|}.

(** * The claims *)

Section Claims.
Context {Symbol : Type} `{EqDecision Symbol} `{!Char Symbol}.
Context `{!Pickle (dict Symbol (list bool))}.
Implicit Types (input text : list Symbol) (root : Node Symbol).
Implicit Types (codebook : dict Symbol (list bool)) (byte_array file : list N).
Implicit Types (frequencies : dict Symbol nat).

(** C1, as amended: for a text with at least two distinct symbols,
    [compress_file] succeeds and [decompress_file] returns the text
    followed by the symbols that [decode_text] reads out of the zero bits
    padding the payload to a byte boundary: one copy of the symbol [z]
    whose code is [d] zeros for every [d] padding bits.  The text itself
    comes back when the number of code bits is a multiple of 8.  That is
    the text [read_encoded_text] decodes, whatever the symbols; writing it
    to the output file succeeds when the text has no surrogate, as is the
    case of every text read from a file. *)
Theorem roundtrip_up_to_padding input :
  two_symbols input →
  ∃ root codebook bits file z d,
    build_huffman_tree (calculate_frequencies input).1 = Ok root
    ∧ generate_codes root [] [] = Ok codebook
    ∧ encode_text input codebook = Ok bits
    ∧ compress_file input = Ok file
    ∧ (z, replicate d false) ∈ codebook ∧ 0 < d
    ∧ read_header file = Ok codebook
    ∧ read_encoded_text file codebook
      = input ++ replicate (pad_length (length bits) / d) z
    ∧ (length bits mod 8 = 0 → read_encoded_text file codebook = input)
    ∧ (utf8_encodable input = true →
       decompress_file file
       = Ok (input ++ replicate (pad_length (length bits) / d) z)
       ∧ (length bits mod 8 = 0 → decompress_file file = Ok input)).
Proof.
  intros Htwo.
  destruct (compress_file_spec input (two_symbols_nonempty _ Htwo))
    as (root & byte_array & Hb & Hwf & Hl & Hg & Hnd & Hpf & Hin & He & Hp & Hc).
  destruct (paths_leftmost root [] Hwf) as (z & d & Hz%list_elem_of_lookup_2).
  cbn [app] in Hz.
  assert (0 < d) as Hd.
  { destruct d; [|lia]. by apply (two_symbols_codes input root) in Hz. }
  assert (decode_text (byte_array ≫= format_08b) (paths root [])
          = input ++ replicate
                  (pad_length (length (input ≫= code_of (paths root []))) / d) z)
    as Hdec.
  { rewrite (unpack_pack _ _ Hp).
    rewrite decode_text_encoded; [|done..|].
    - by rewrite (decode_text_zeros _ z d).
    - intros c [code Hcode]%Hin%list_elem_of_fmap.
      destruct Hcode as [-> Hcode]. exists code.2. destruct code as [c code].
      split; [done|]. by eapply two_symbols_codes. }
  assert (length (input ≫= code_of (paths root [])) mod 8 = 0 →
          replicate (pad_length (length (input ≫= code_of (paths root []))) / d) z
          = []) as Hpad.
  { intros Hmod. unfold pad_length. rewrite Hmod.
    change ((8 - 0) mod 8) with 0. by rewrite Nat.div_small by done. }
  assert (z ∈ input) as Hzin.
  { apply calculate_frequencies_keys. unfold keys. rewrite <-Hl.
    rewrite <-(paths_keys root []) by done.
    apply list_elem_of_fmap. by exists (z, replicate d false). }
  exists root, (paths root []), (input ≫= code_of (paths root [])),
    (write_header (paths root []) ++ byte_array), z, d.
  split_and!; [done..|apply read_header_written| | |].
  - by rewrite read_encoded_text_written.
  - intros Hmod. rewrite read_encoded_text_written, Hdec, (Hpad Hmod).
    apply app_nil_r.
  - intros Henc. rewrite decompress_file_written, Hdec. split.
    + apply write_text_Ok. revert Henc. apply utf8_encodable_incl.
      intros c [Hcin|[-> _]%elem_of_replicate]%elem_of_app; done.
    + intros Hmod. rewrite (Hpad Hmod), app_nil_r. by apply write_text_Ok.
Qed.

(** C3, as amended: [decode_text] has no failure path.  For a text with
    at least two distinct symbols, decompressing the container without its
    last byte succeeds and returns, without any error, a strictly shorter
    prefix of the text.  That prefix is what [read_encoded_text] decodes,
    whatever the symbols; writing it to the output file succeeds when the
    text has no surrogate, as is the case of every text read from a
    file. *)
Theorem truncated_container_decodes input file :
  two_symbols input →
  compress_file input = Ok file →
  ∃ k codebook,
    k < length input
    ∧ read_header (removelast file) = Ok codebook
    ∧ read_encoded_text (removelast file) codebook = take k input
    ∧ (utf8_encodable input = true →
       decompress_file (removelast file) = Ok (take k input)).
Proof.
  intros Htwo Hfile.
  destruct (compress_file_spec input (two_symbols_nonempty _ Htwo))
    as (root & byte_array & Hb & Hwf & Hl & Hg & Hnd & Hpf & Hin & He & Hp & Hc).
  rewrite Hc in Hfile. injection Hfile as <-.
  assert (∀ c, c ∈ input → ∃ code, (c, code) ∈ paths root [] ∧ code ≠ []) as Hcodes.
  { intros c [code Hcode]%Hin%list_elem_of_fmap.
    destruct Hcode as [-> Hcode]. exists code.2. destruct code as [c code].
    split; [done|]. by eapply two_symbols_codes. }
  assert (input ≫= code_of (paths root []) ≠ []) as Hbits.
  { destruct input as [|c input]; [by apply two_symbols_nonempty in Htwo|].
    destruct (Hcodes c) as (code & Hcode & Hne); [left|].
    rewrite bind_cons. unfold code_of at 1.
    rewrite (dict_get_Some _ _ _ Hnd Hcode). cbn [default from_option id].
    by destruct code. }
  destruct (truncated_payload _ _ Hbits Hp) as (Hne & Hpre & Hlen).
  rewrite removelast_app by done.
  destruct (decode_text_proper_prefix (paths root []) input _ Hnd Hpf Hcodes Hpre Hlen)
    as (k & Hk & Hdec).
  exists k, (paths root []).
  rewrite decompress_file_written, read_encoded_text_written, Hdec.
  split_and!; [done|apply read_header_written|done|].
  intros Henc. apply write_text_Ok. revert Henc. apply utf8_encodable_incl.
  intros c Hcin. by apply (subseteq_take k input).
Qed.

(** C2, as the code has it: for an input with exactly one distinct symbol
    the frequency table has one entry, the tree is a single leaf, and
    [generate_codes] binds the symbol to the EMPTY bit-string (the initial
    [prefix]), so that the whole text encodes to no bit at all. *)
Theorem single_symbol_code (c : Symbol) (k : nat) :
  let text := replicate (S k) c in
  (calculate_frequencies text).1 = [(c, S k)]
  ∧ build_huffman_tree [(c, S k)] = Ok (mkNode (Some c) (S k) None None)
  ∧ generate_codes (mkNode (Some c) (S k) None None) [] [] = Ok [(c, [])]
  ∧ encode_text text [(c, [])] = Ok [].
Proof.
  intros text. split_and!.
  - unfold calculate_frequencies, text. cbn [fst replicate fold_left].
    unfold count_char at 2. cbn [dict_get dict_set default].
    by rewrite count_char_replicate.
  - done.
  - done.
  - rewrite encode_text_total.
    + f_equal. unfold text. generalize (S k). intros n.
      induction n; [done|]. cbn [replicate]. rewrite bind_cons, IHn.
      unfold code_of. cbn [dict_get]. by rewrite decide_True.
    + intros x ->%elem_of_replicate_inv. left.
Qed.

(** C4: for every frequency table with at least one entry (a [dict], so
    with unique keys), the tree is built, [generate_codes] returns a table
    over the same symbols, and in it no code is a prefix of, or equal to,
    the code of another symbol: two entries with the same code are the same
    symbol, and the reverse mapping sends every code back to its symbol. *)
Theorem generate_codes_prefix_free frequencies :
  NoDup (keys frequencies) → frequencies ≠ [] →
  ∃ root codebook,
    build_huffman_tree frequencies = Ok root
    ∧ generate_codes root [] [] = Ok codebook
    ∧ keys codebook ≡ₚ keys frequencies
    ∧ prefix_free codebook
    ∧ (∀ c1 c2 code, (c1, code) ∈ codebook → (c2, code) ∈ codebook → c1 = c2)
    ∧ (∀ c code, (c, code) ∈ codebook →
         dict_get (reverse_codebook codebook) code = Some c).
Proof.
  intros Hnd Hne.
  destruct (codebook_spec frequencies Hnd Hne)
    as (root & Hb & _ & _ & _ & Hg & Hndk & Hk & Hpf).
  exists root, (paths root []). split_and!; [done..| |].
  - intros c1 c2 code H1 H2. by apply (Hpf c1 c2 code code).
  - intros c code Hin. by apply reverse_codebook_get.
Qed.

(** C5: in a container written by [compress_file] the header is the
    serialised code table and the payload follows it.  [read_header] reads
    the table back; the serialisation of the table that was read is as
    long as the header, so that the seek of [read_encoded_text] skips the
    header and nothing else: the bytes it reads are the packed bytes that
    were appended, the bits it hands to [decode_text] are the code bits
    and their padding, and that is what [decompress_file] decodes and
    writes. *)
Theorem header_length_recovered input file :
  compress_file input = Ok file →
  ∃ codebook bits byte_array,
    encode_text input codebook = Ok bits
    ∧ pack bits = Ok byte_array
    ∧ file = write_header codebook ++ byte_array
    ∧ read_header file = Ok codebook
    ∧ length (pickle_dumps codebook) + length byte_array = length file
    ∧ byte_data file codebook = byte_array
    ∧ byte_data file codebook ≫= format_08b
      = bits ++ replicate (pad_length (length bits)) false
    ∧ read_encoded_text file codebook
      = decode_text (bits ++ replicate (pad_length (length bits)) false) codebook
    ∧ decompress_file file
      = write_text
          (decode_text (bits ++ replicate (pad_length (length bits)) false)
             codebook).
Proof.
  intros Hfile.
  assert (input ≠ []) as Hne.
  { intros ->. by rewrite compress_file_nil in Hfile. }
  destruct (compress_file_spec input Hne)
    as (root & byte_array & _ & _ & _ & _ & _ & _ & _ & He & Hp & Hc).
  rewrite Hc in Hfile. injection Hfile as <-.
  exists (paths root []), (input ≫= code_of (paths root [])), byte_array.
  rewrite decompress_file_written, read_encoded_text_written, byte_data_written.
  rewrite (unpack_pack _ _ Hp).
  split_and!; try done.
  - apply read_header_written.
  - unfold write_header. by rewrite length_app.
Qed.

(** C6, as amended: on a frequency table with no entry
    [build_huffman_tree] does not return a tree, but it has no check and
    no error of its own for the case: the heap is built and the loop is
    left as for any other table, and the last line, [heap[0]], raises the
    [IndexError] of the runtime.  It is not a failure that the program
    reports; [compress_file] on the empty text lets it through, before
    anything is written.  On every other table a tree is returned. *)
Theorem empty_table_raises :
  heapq.heapify Node_lt (leaf <$> @nil (Symbol * nat)) = Ok []
  ∧ build_loop 0 (@nil (Node Symbol)) = Ok []
  ∧ getitem (@nil (Node Symbol)) 0 = Raise IndexError
  ∧ build_huffman_tree (@nil (Symbol * nat)) = Raise IndexError
  ∧ ¬ reported_failure (build_huffman_tree (@nil (Symbol * nat)))
  ∧ (∀ frequencies, frequencies ≠ [] →
       ∃ root, build_huffman_tree frequencies = Ok root)
  ∧ (calculate_frequencies (@nil Symbol)).1 = []
  ∧ compress_file (@nil Symbol) = Raise IndexError
  ∧ ¬ reported_failure (compress_file (@nil Symbol)).
Proof.
  split_and!; try done.
  - by intros [status Hexit].
  - intros frequencies Hne.
    destruct (build_huffman_tree_spec frequencies Hne) as (root & Hb & _). eauto.
  - by intros [status Hexit].
Qed.

(** C7: for a text and a code table with an entry for every symbol of the
    text, [write_encoded_text] appends to the file the bytes that hold the
    codes of the symbols in order, followed by [pad] zero bits, where
    [pad < 8] makes the number of bits a multiple of 8; there are
    ceil(bits / 8) bytes, each in [range(256)], and bit [i] of the padded
    bit-string is bit [7 - i mod 8] of byte [i / 8] (most significant bit
    first). *)
Theorem write_encoded_text_spec file text codebook :
  (∀ c, c ∈ text → is_Some (dict_get codebook c)) →
  let bits := text ≫= code_of codebook in
  let pad := pad_length (length bits) in
  ∃ byte_array,
    write_encoded_text file text codebook = Ok (file ++ byte_array)
    ∧ pad < 8
    ∧ (length bits + pad) mod 8 = 0
    ∧ length byte_array = (length bits + 7) / 8
    ∧ 8 * length byte_array = length bits + pad
    ∧ Forall (λ byte, (byte < 256)%N) byte_array
    ∧ (∀ i (b : bool), (bits ++ replicate pad false) !! i = Some b →
         ∃ byte, byte_array !! (i / 8) = Some byte
                 ∧ N.testbit byte (N.of_nat (7 - i mod 8)) = b).
Proof.
  intros Htotal bits pad.
  assert (∀ c, c ∈ text → c ∈ keys codebook) as Hin.
  { intros c [code Hc]%Htotal.
    destruct (decide (c ∈ keys codebook)) as [|Hnot]; [done|].
    apply dict_get_None in Hnot. congruence. }
  destruct (pack_spec bits) as (Hp & Hlen & Hbytes). fold pad in Hp, Hlen, Hbytes.
  exists (binary_value <$> chunks (bits ++ replicate pad false) ((length bits + 7) / 8)).
  split_and!.
  - unfold write_encoded_text. rewrite encode_text_total by done.
    cbn [mbind result_bind]. fold bits. by rewrite Hp.
  - apply pad_length_lt.
  - apply pad_length_mod.
  - by rewrite length_fmap, chunks_length.
  - rewrite length_fmap, chunks_length, <-Hlen.
    by rewrite length_app, length_replicate.
  - done.
  - intros i b Hi.
    pose proof (lookup_lt_Some _ _ _ Hi) as Hlt. rewrite Hlen in Hlt.
    pose proof (Nat.div_mod_eq i 8) as Hdm.
    pose proof (Nat.mod_upper_bound i 8 ltac:(lia)) as Hmod.
    assert (i / 8 < (length bits + 7) / 8) as Hk by lia.
    set (chunk := take 8 (drop (i / 8 * 8) (bits ++ replicate pad false))).
    exists (binary_value chunk). split.
    + rewrite list_lookup_fmap. unfold chunks. rewrite list_lookup_fmap.
      rewrite lookup_seq_lt by done. done.
    + assert (length chunk = 8) as Hc.
      { unfold chunk. rewrite length_take, length_drop. lia. }
      replace (7 - i mod 8) with (length chunk - 1 - i mod 8) by lia.
      apply binary_value_testbit. unfold chunk.
      rewrite lookup_take_lt by done. rewrite lookup_drop.
      by replace (i / 8 * 8 + i mod 8) with i by lia.
Qed.

(** C8: the frequency table of [calculate_frequencies] has one entry per
    distinct symbol of the input and none for a symbol that does not occur
    in it; each entry holds the number of occurrences of its symbol, which
    is at least 1; the counts add up to the length of the input; the text
    is returned unchanged. *)
Theorem calculate_frequencies_spec (text : list Symbol) :
  let frequencies := (calculate_frequencies text).1 in
  NoDup (keys frequencies)
  ∧ (∀ c, c ∈ keys frequencies ↔ c ∈ text)
  ∧ (∀ c n, (c, n) ∈ frequencies ↔ c ∈ text ∧ n = occurrences c text)
  ∧ (∀ c n, (c, n) ∈ frequencies → 1 ≤ n)
  ∧ sum_list (values frequencies) = length text
  ∧ (calculate_frequencies text).2 = text.
Proof.
  intros frequencies.
  pose proof (calculate_frequencies_NoDup text) as Hnd. fold frequencies in Hnd.
  assert (Hget : ∀ c n, (c, n) ∈ frequencies ↔ c ∈ text ∧ n = occurrences c text).
  { intros c n. split.
    - intros Hin. apply (dict_get_Some _ _ _ Hnd) in Hin.
      unfold frequencies in Hin. rewrite calculate_frequencies_get in Hin.
      case_decide; naive_solver.
    - intros [Hin ->]. apply dict_get_Some_elem_of.
      unfold frequencies. rewrite calculate_frequencies_get. by rewrite decide_True. }
  split_and!; [done| |done| | |done].
  - intros c. apply calculate_frequencies_keys.
  - intros c n [Hin ->]%Hget. by apply occurrences_pos.
  - unfold frequencies, calculate_frequencies. cbn [fst].
    rewrite count_loop_sum. simpl. lia.
Qed.

(** C9: a tree returned by [build_huffman_tree] is a strict binary tree
    whose leaves hold one symbol each and are the entries of the frequency
    table, whose internal nodes hold no symbol and the sum of the
    frequencies of their two children; its root holds the sum of all
    counts.  Every iteration of the loop extracts a least node of the heap
    and then a least node of the rest, and pushes a node with the first as
    left child and the second as right child; so in every internal node
    the left child is not heavier than the right one. *)
Theorem build_huffman_tree_shape frequencies root :
  build_huffman_tree frequencies = Ok root →
  well_formed root
  ∧ leaves root ≡ₚ frequencies
  ∧ freq root = sum_list (values frequencies)
  ∧ left_lighter root
  ∧ (∀ heap : list (Node Symbol), is_heap freq heap → 1 < length heap →
       ∃ left heap1 right heap2,
         heapq.heappop Node_lt heap = Ok (left, heap1)
         ∧ heapq.heappop Node_lt heap1 = Ok (right, heap2)
         ∧ (∀ x, x ∈ heap → freq left ≤ freq x)
         ∧ (∀ x, x ∈ heap1 → freq right ≤ freq x)
         ∧ merge_step heap
           = heapq.heappush Node_lt heap2
               (mkNode None (freq left + freq right) (Some left) (Some right))).
Proof.
  intros Hroot.
  assert (frequencies ≠ []) as Hne.
  { intros ->. by rewrite build_huffman_tree_nil in Hroot. }
  destruct (build_huffman_tree_spec frequencies Hne) as (root' & Hb & Hwf & Hll & Hl).
  rewrite Hb in Hroot. injection Hroot as ->.
  split_and!; [done..| |done|].
  - rewrite (well_formed_freq root Hwf). unfold values. by rewrite Hl.
  - intros heap Hheap Hlen.
    destruct (merge_step_spec heap Hheap Hlen)
      as (left & heap1 & right & heap2 & heap' & Hp1 & Hp2 & _ & _ & _ & _
          & Hmin1 & Hmin2 & _).
    exists left, heap1, right, heap2. split_and!; [done..|].
    unfold merge_step. rewrite Hp1. cbn [mbind result_bind]. by rewrite Hp2.
Qed.

(** C10: for every non-empty text, the code table generated from the
    frequency table of that text has an entry for every symbol of the
    text, and [encode_text] returns the concatenation of the codes: the
    [KeyError] of the lookup is never raised. *)
Theorem encode_text_never_KeyError text :
  text ≠ [] →
  ∃ root codebook,
    build_huffman_tree (calculate_frequencies text).1 = Ok root
    ∧ generate_codes root [] [] = Ok codebook
    ∧ (∀ c, c ∈ text → is_Some (dict_get codebook c))
    ∧ encode_text text codebook = Ok (text ≫= code_of codebook).
Proof.
  intros Hne.
  destruct (codebook_spec (calculate_frequencies text).1)
    as (root & Hb & _ & _ & _ & Hg & _ & Hk & _).
  { apply calculate_frequencies_NoDup. }
  { by apply calculate_frequencies_nonempty. }
  assert (∀ c, c ∈ text → c ∈ keys (paths root [])) as Hin.
  { intros c Hc. rewrite Hk. by apply calculate_frequencies_keys. }
  exists root, (paths root []). split_and!; [done..| |by apply encode_text_total].
  intros c Hc%Hin. destruct (dict_get (paths root []) c) eqn:E; [done|].
  by apply dict_get_None in E.
Qed.
End Claims.

(** * The claims on concrete inputs *)

Section Examples.
Import Sample.
Local Open Scope char_scope.
Local Open Scope list_scope.

(** Whatever the serialiser, "abracadabra" is packed into three bytes: 23
    code bits and one padding bit. *)
Lemma compress_abracadabra `{!Pickle (dict ascii (list bool))} :
  compress_file abracadabra
  = Ok (write_header abracadabra_codebook ++ [124; 168; 248]%N).
Proof. vm_compute. reflexivity. Qed.

(** Whatever the serialiser, the padding bit is decoded as one more "a". *)
Lemma roundtrip_abracadabra `{!Pickle (dict ascii (list bool))} :
  compress_file abracadabra ≫= decompress_file = Ok (text "abracadabraa").
Proof.
  rewrite compress_abracadabra. cbn [mbind result_bind].
  rewrite decompress_file_written. vm_compute. reflexivity.
Qed.

(** Whatever the serialiser, the container without its last byte is
    decoded without error, to the first 8 of the 11 symbols. *)
Lemma truncated_abracadabra `{!Pickle (dict ascii (list bool))} :
  (file ← compress_file abracadabra; decompress_file (removelast file))
  = Ok (text "abracada").
Proof.
  rewrite compress_abracadabra. cbn [mbind result_bind].
  rewrite removelast_app by done. cbn [removelast].
  rewrite decompress_file_written. vm_compute. reflexivity.
Qed.

Lemma two_symbols_abracadabra : two_symbols abracadabra.
Proof.
  exists "a", "b". split_and!; [left|right; left|done].
Defined.

Lemma NoDup_abracadabra : NoDup (keys (calculate_frequencies abracadabra).1).
Proof. apply (bool_decide_unpack _). vm_compute. exact I. Defined.

(** C1 fails as stated: with the reference serialiser, "abracadabra" comes
    back as "abracadabraa" and "ab" as "abbbbbbb"; "aaa" comes back as the
    empty text, and the empty text cannot be compressed. *)
Lemma roundtrip_abracadabra_fails :
  compress_file abracadabra ≫= decompress_file = Ok (text "abracadabraa")
  ∧ compress_file (text "ab") ≫= decompress_file = Ok (text "abbbbbbb")
  ∧ compress_file (text "aaa") ≫= decompress_file = Ok (text "")
  ∧ compress_file (text "") = Raise IndexError.
Proof.
  split; [apply roundtrip_abracadabra|].
  split_and!; vm_compute; reflexivity.
Qed.

Lemma roundtrip_up_to_padding_witness :
  two_symbols abracadabra
  ∧ ∃ root codebook bits file z d,
      build_huffman_tree (calculate_frequencies abracadabra).1 = Ok root
      ∧ generate_codes root [] [] = Ok codebook
      ∧ encode_text abracadabra codebook = Ok bits
      ∧ compress_file abracadabra = Ok file
      ∧ (z, replicate d false) ∈ codebook ∧ 0 < d
      ∧ read_header file = Ok codebook
      ∧ read_encoded_text file codebook
        = abracadabra ++ replicate (pad_length (length bits) / d) z
      ∧ (length bits mod 8 = 0 → read_encoded_text file codebook = abracadabra)
      ∧ (utf8_encodable abracadabra = true →
         decompress_file file
         = Ok (abracadabra ++ replicate (pad_length (length bits) / d) z)
         ∧ (length bits mod 8 = 0 → decompress_file file = Ok abracadabra)).
Proof.
  split; [exact two_symbols_abracadabra|].
  apply (roundtrip_up_to_padding abracadabra), two_symbols_abracadabra.
Defined.

(** C3 fails as stated: with the reference serialiser, the container of
    "abracadabra" without its last byte is decompressed, with no error, to
    "abracada". *)
Lemma truncated_abracadabra_decodes :
  (file ← compress_file abracadabra; decompress_file (removelast file))
  = Ok (text "abracada").
Proof. apply truncated_abracadabra. Qed.

Lemma truncated_container_decodes_witness :
  two_symbols abracadabra
  ∧ compress_file abracadabra
    = Ok (write_header abracadabra_codebook ++ [124; 168; 248]%N)
  ∧ ∃ k codebook,
      k < length abracadabra
      ∧ read_header
          (removelast (write_header abracadabra_codebook ++ [124; 168; 248]%N))
        = Ok codebook
      ∧ read_encoded_text
          (removelast (write_header abracadabra_codebook ++ [124; 168; 248]%N))
          codebook
        = take k abracadabra
      ∧ (utf8_encodable abracadabra = true →
         decompress_file
           (removelast (write_header abracadabra_codebook ++ [124; 168; 248]%N))
         = Ok (take k abracadabra)).
Proof.
  split; [exact two_symbols_abracadabra|].
  split; [vm_compute; reflexivity|].
  apply (truncated_container_decodes abracadabra).
  - exact two_symbols_abracadabra.
  - vm_compute. reflexivity.
Defined.

Lemma generate_codes_prefix_free_witness :
  let frequencies := (calculate_frequencies abracadabra).1 in
  NoDup (keys frequencies) ∧ frequencies ≠ []
  ∧ ∃ root codebook,
      build_huffman_tree frequencies = Ok root
      ∧ generate_codes root [] [] = Ok codebook
      ∧ keys codebook ≡ₚ keys frequencies
      ∧ prefix_free codebook
      ∧ (∀ c1 c2 code, (c1, code) ∈ codebook → (c2, code) ∈ codebook → c1 = c2)
      ∧ (∀ c code, (c, code) ∈ codebook →
           dict_get (reverse_codebook codebook) code = Some c).
Proof.
  intros frequencies.
  split; [exact NoDup_abracadabra|]. split; [by vm_compute|].
  apply (generate_codes_prefix_free frequencies).
  - exact NoDup_abracadabra.
  - by vm_compute.
Defined.

Lemma header_length_recovered_witness :
  let file := write_header abracadabra_codebook ++ [124; 168; 248]%N in
  compress_file abracadabra = Ok file
  ∧ ∃ codebook bits byte_array,
      encode_text abracadabra codebook = Ok bits
      ∧ pack bits = Ok byte_array
      ∧ file = write_header codebook ++ byte_array
      ∧ read_header file = Ok codebook
      ∧ length (pickle_dumps codebook) + length byte_array = length file
      ∧ byte_data file codebook = byte_array
      ∧ byte_data file codebook ≫= format_08b
        = bits ++ replicate (pad_length (length bits)) false
      ∧ read_encoded_text file codebook
        = decode_text (bits ++ replicate (pad_length (length bits)) false) codebook
      ∧ decompress_file file
        = write_text
            (decode_text (bits ++ replicate (pad_length (length bits)) false)
               codebook).
Proof.
  intros file. split; [vm_compute; reflexivity|].
  apply (header_length_recovered abracadabra). vm_compute. reflexivity.
Defined.

(** C6 fails as stated: on the frequency table with no entry, tree
    construction ends in the [IndexError] that the runtime raises for
    [heap[0]], not in a failure that the program defines or reports, and
    so does [compress_file] on the empty text; the failure that the
    program does report is that of a missing input file. *)
Lemma empty_table_not_reported :
  build_huffman_tree (@nil (ascii * nat)) = Raise IndexError
  ∧ ¬ reported_failure (build_huffman_tree (@nil (ascii * nat)))
  ∧ compress_file (text "") = Raise IndexError
  ∧ ¬ reported_failure (compress_file (text ""))
  ∧ reported_failure (read_text (@None (list ascii))).
Proof.
  split_and!.
  - vm_compute. reflexivity.
  - intros [status Hexit]. vm_compute in Hexit. discriminate Hexit.
  - vm_compute. reflexivity.
  - intros [status Hexit]. vm_compute in Hexit. discriminate Hexit.
  - exists 1%N. reflexivity.
Qed.

Lemma write_encoded_text_spec_witness :
  let codebook := abracadabra_codebook in
  let bits := abracadabra ≫= code_of codebook in
  let pad := pad_length (length bits) in
  (∀ c, c ∈ abracadabra → is_Some (dict_get codebook c))
  ∧ ∃ byte_array,
      write_encoded_text [] abracadabra codebook = Ok ([] ++ byte_array)
      ∧ pad < 8
      ∧ (length bits + pad) mod 8 = 0
      ∧ length byte_array = (length bits + 7) / 8
      ∧ 8 * length byte_array = length bits + pad
      ∧ Forall (λ byte, (byte < 256)%N) byte_array
      ∧ (∀ i (b : bool), (bits ++ replicate pad false) !! i = Some b →
           ∃ byte, byte_array !! (i / 8) = Some byte
                   ∧ N.testbit byte (N.of_nat (7 - i mod 8)) = b).
Proof.
  intros codebook bits pad.
  assert (∀ c, c ∈ abracadabra → is_Some (dict_get codebook c)) as Htotal.
  { intros c Hc.
    repeat (apply elem_of_cons in Hc as [->|Hc]; [vm_compute; eauto|]).
    by apply elem_of_nil in Hc. }
  split; [exact Htotal|].
  apply (write_encoded_text_spec [] abracadabra codebook Htotal).
Defined.

Lemma build_huffman_tree_shape_witness :
  let frequencies := (calculate_frequencies abracadabra).1 in
  let root :=
    mkNode None 11
      (Some (mkNode (Some "a") 5 None None))
      (Some (mkNode None 6
         (Some (mkNode None 2 (Some (mkNode (Some "d") 1 None None))
                              (Some (mkNode (Some "c") 1 None None))))
         (Some (mkNode None 4 (Some (mkNode (Some "r") 2 None None))
                              (Some (mkNode (Some "b") 2 None None)))))) in
  build_huffman_tree frequencies = Ok root
  ∧ well_formed root
  ∧ leaves root ≡ₚ frequencies
  ∧ freq root = sum_list (values frequencies)
  ∧ left_lighter root
  ∧ (∀ heap : list (Node ascii), is_heap freq heap → 1 < length heap →
       ∃ left heap1 right heap2,
         heapq.heappop Node_lt heap = Ok (left, heap1)
         ∧ heapq.heappop Node_lt heap1 = Ok (right, heap2)
         ∧ (∀ x, x ∈ heap → freq left ≤ freq x)
         ∧ (∀ x, x ∈ heap1 → freq right ≤ freq x)
         ∧ merge_step heap
           = heapq.heappush Node_lt heap2
               (mkNode None (freq left + freq right) (Some left) (Some right))).
Proof.
  intros frequencies root. split; [vm_compute; reflexivity|].
  apply (build_huffman_tree_shape frequencies root). vm_compute. reflexivity.
Defined.

Lemma encode_text_never_KeyError_witness :
  abracadabra ≠ []
  ∧ ∃ root codebook,
      build_huffman_tree (calculate_frequencies abracadabra).1 = Ok root
      ∧ generate_codes root [] [] = Ok codebook
      ∧ (∀ c, c ∈ abracadabra → is_Some (dict_get codebook c))
      ∧ encode_text abracadabra codebook = Ok (abracadabra ≫= code_of codebook).
Proof.
  split; [by vm_compute|].
  apply (encode_text_never_KeyError abracadabra). by vm_compute.
Defined.
End Examples.

(** * Further properties *)

(** ** The frequency table *)

Section FrequenciesMore.
Context {Symbol : Type} `{EqDecision Symbol}.
Implicit Types (text : list Symbol) (c : Symbol) (d : dict Symbol nat).

Lemma keys_count_char d c :
  keys (count_char d c) = if decide (c ∈ keys d) then keys d else keys d ++ [c].
Proof. apply keys_dict_set. Qed.

Lemma count_loop_keys text d :
  keys (fold_left count_char text d)
  = keys d ++ filter (λ x, x ∉ keys d) (first_occurrences text).
Proof.
  revert d. induction text as [|c text IH]; intros d; cbn [fold_left first_occurrences].
  { by rewrite filter_nil, app_nil_r. }
  rewrite IH, keys_count_char, filter_cons.
  destruct (decide (c ∈ keys d)) as [Hin|Hnot].
  - rewrite decide_False by tauto. f_equal.
    rewrite list_filter_filter. apply list_filter_iff. intros x. split; [|tauto].
    intros Hx. split; try done. by intros ->.
  - rewrite decide_True by done. rewrite <-(assoc_L (++)). cbn [app]. do 2 f_equal.
    rewrite list_filter_filter. apply list_filter_iff. intros x.
    rewrite elem_of_app, list_elem_of_singleton. tauto.
Qed.

Lemma count_char_weighted (w : Symbol → nat) d c :
  sum_list ((λ entry, entry.2 * w entry.1) <$> count_char d c)
  = sum_list ((λ entry, entry.2 * w entry.1) <$> d) + w c.
Proof.
  unfold count_char. induction d as [|[k n] d IHd]; cbn [dict_get dict_set].
  - csimpl. lia.
  - destruct (decide (c = k)) as [->|Hne]; csimpl; [lia|].
    rewrite IHd. lia.
Qed.

(** The weighted sum of a function over the table is its sum over the
    text. *)
Lemma count_loop_weighted (w : Symbol → nat) text d :
  sum_list ((λ entry, entry.2 * w entry.1) <$> fold_left count_char text d)
  = sum_list ((λ entry, entry.2 * w entry.1) <$> d) + sum_list (w <$> text).
Proof.
  revert d. induction text as [|c text IH]; intros d; cbn [fold_left].
  { csimpl. lia. }
  rewrite IH, count_char_weighted. csimpl. lia.
Qed.

Lemma length_bind_codes (codebook : dict Symbol (list bool)) text :
  length (text ≫= code_of codebook)
  = sum_list ((λ c, length (code_of codebook c)) <$> text).
Proof.
  induction text as [|c text IH]; [done|].
  rewrite bind_cons, length_app, IH. by csimpl.
Qed.
End FrequenciesMore.

(** ** Bits and bytes *)

Section BytesMore.
Implicit Types (bits s : list bool) (n : N) (p : positive).

Lemma binary_value_zeros k s :
  binary_value (replicate k false ++ s) = binary_value s.
Proof.
  unfold binary_value. rewrite fold_left_app.
  assert (fold_left (λ acc (b : bool), 2 * acc + N.b2n b)%N (replicate k false) 0%N
          = 0%N) as ->; [|done].
  induction k as [|k IH]; [done|]. cbn [replicate fold_left N.b2n]. exact IH.
Qed.

Lemma binary_value_pos_bin p : binary_value (pos_bin p) = Npos p.
Proof.
  induction p as [p IH|p IH|]; cbn [pos_bin]; [| |done];
    rewrite binary_value_snoc, IH; cbn [N.b2n]; lia.
Qed.

(** [int(f'{n:08b}', 2) == n] *)
Lemma binary_value_format_08b n : binary_value (format_08b n) = n.
Proof.
  unfold format_08b. rewrite binary_value_zeros.
  destruct n as [|p]; [done|]. apply binary_value_pos_bin.
Qed.

Lemma length_pos_bin p : length (pos_bin p) = Pos.size_nat p.
Proof.
  induction p as [p IH|p IH|]; cbn [pos_bin Pos.size_nat]; [| |done];
    rewrite length_app, IH; simpl; lia.
Qed.

Lemma length_format_08b n : (n < 256)%N → length (format_08b n) = 8.
Proof.
  intros Hn. unfold format_08b. rewrite length_app, length_replicate.
  assert (length (format_b n) ≤ 8); [|lia].
  destruct n as [|p]; [simpl; lia|]. cbn [format_b]. rewrite length_pos_bin.
  do 8 (destruct p as [p|p|]; [| |simpl; lia]); cbn [Pos.size_nat]; lia.
Qed.

Lemma chunks_bind_format (byte_array : list N) :
  Forall (λ byte, (byte < 256)%N) byte_array →
  chunks (byte_array ≫= format_08b) (length byte_array) = format_08b <$> byte_array.
Proof.
  unfold chunks. induction 1 as [|byte byte_array Hb _ IH]; [done|].
  cbn [length seq]. rewrite !fmap_cons, <-fmap_S_seq, <-list_fmap_compose.
  rewrite bind_cons. f_equal.
  - change (0 * 8) with 0. rewrite drop_0.
    rewrite take_app_length'; [done|by rewrite length_format_08b].
  - rewrite <-IH. apply list_fmap_ext. intros _ k _. unfold compose.
    replace (S k * 8) with (length (format_08b byte) + k * 8)
      by (rewrite length_format_08b by done; lia).
    by rewrite drop_app_add'.
Qed.

Lemma length_bind_format (byte_array : list N) :
  Forall (λ byte, (byte < 256)%N) byte_array →
  length (byte_array ≫= format_08b) = 8 * length byte_array.
Proof.
  induction 1 as [|byte byte_array Hb _ IH]; [done|].
  rewrite bind_cons, length_app, IH, length_format_08b by done. simpl. lia.
Qed.

Lemma pad_length_multiple m : pad_length (8 * m) = 0.
Proof.
  unfold pad_length. rewrite Nat.mul_comm, Nat.Div0.mod_mul. done.
Qed.

Lemma pack_unpack (byte_array : list N) :
  Forall (λ byte, (byte < 256)%N) byte_array →
  pack (byte_array ≫= format_08b) = Ok byte_array.
Proof.
  intros Hb. destruct (pack_spec (byte_array ≫= format_08b)) as (-> & _ & _).
  rewrite length_bind_format, pad_length_multiple by done. cbn [replicate].
  rewrite app_nil_r. f_equal.
  replace ((8 * length byte_array + 7) / 8) with (length byte_array).
  - rewrite chunks_bind_format by done. rewrite <-list_fmap_compose.
    rewrite <-(list_fmap_id byte_array) at 2. apply list_fmap_ext.
    intros _ byte _. apply binary_value_format_08b.
  - symmetry. rewrite Nat.add_comm, Nat.mul_comm, Nat.div_add by lia. done.
Qed.
End BytesMore.

(** ** Decoding with an arbitrary table *)

Section DecodeMore.
Context {Symbol : Type} `{EqDecision Symbol}.
Implicit Types (code bits cur : list bool) (out : list Symbol).
Implicit Types (codebook : dict Symbol (list bool)).

Lemma dict_set_elem_of {K V} `{EqDecision K} (d : dict K V) k v k' v' :
  (k', v') ∈ dict_set d k v → (k', v') = (k, v) ∨ (k', v') ∈ d.
Proof.
  induction d as [|[k0 v0] d IH]; cbn [dict_set].
  - intros ->%list_elem_of_singleton. by left.
  - destruct (decide (k = k0)) as [->|Hne].
    + intros [->|Hin]%elem_of_cons; [by left|right; by right].
    + intros [->|Hin]%elem_of_cons; [right; left|].
      destruct (IH Hin) as [?|?]; [by left|right; by right].
Qed.

Lemma reverse_loop_elem_of codebook (d : dict (list bool) Symbol) code c :
  (code, c) ∈ fold_left (λ d kv, dict_set d kv.2 kv.1) codebook d →
  (code, c) ∈ d ∨ (c, code) ∈ codebook.
Proof.
  revert d. induction codebook as [|[c0 code0] codebook IH]; intros d; cbn [fold_left].
  { by left. }
  intros [Hin|Hin]%IH; [|right; by right].
  cbn [fst snd] in Hin. apply dict_set_elem_of in Hin as [[= -> ->]|Hin].
  - right. left.
  - by left.
Qed.

(** An entry of the reverse table is an entry of the table. *)
Lemma reverse_codebook_Some codebook code c :
  dict_get (reverse_codebook codebook) code = Some c → (c, code) ∈ codebook.
Proof.
  intros Hget%dict_get_Some_elem_of.
  apply reverse_loop_elem_of in Hget as [Hin|Hin]; [|done].
  by apply elem_of_nil in Hin.
Qed.

(** The invariant of the loop of [decode_text]: the bits read so far are
    the codes of the symbols decoded so far, followed by [current_code]. *)
Lemma decode_loop_reencode codebook bits cur out :
  NoDup (keys codebook) →
  let st := fold_left (decode_step (reverse_codebook codebook)) bits (cur, out) in
  (st.2 ≫= code_of codebook) ++ st.1 = (out ≫= code_of codebook) ++ cur ++ bits
  ∧ (Forall (λ c, c ∈ keys codebook ∧ code_of codebook c ≠ []) out →
     Forall (λ c, c ∈ keys codebook ∧ code_of codebook c ≠ []) st.2).
Proof.
  intros Hnd. revert cur out.
  induction bits as [|b bits IH]; intros cur out; cbn [fold_left].
  { cbn [fst snd]. by rewrite app_nil_r. }
  destruct (dict_get (reverse_codebook codebook) (cur ++ [b])) as [c|] eqn:Hc.
  - assert (decode_step (reverse_codebook codebook) (cur, out) b
            = ([], out ++ [c])) as ->
      by (unfold decode_step; cbn [fst snd]; by rewrite Hc).
    apply reverse_codebook_Some in Hc.
    assert (code_of codebook c = cur ++ [b]) as Hcode.
    { unfold code_of. by rewrite (dict_get_Some _ _ _ Hnd Hc). }
    destruct (IH [] (out ++ [c])) as [Heq Hall]. cbn zeta in Heq, Hall. split.
    + rewrite Heq, bind_app, bind_cons, Hcode. cbn [app].
      change ([] ≫= code_of codebook) with (@nil bool).
      by rewrite app_nil_r, <-!(assoc_L (++)).
    + intros Hout. apply Hall. rewrite Forall_app, Forall_singleton.
      split; [done|]. split.
      * apply list_elem_of_fmap. by exists (c, cur ++ [b]).
      * rewrite Hcode. by destruct cur.
  - assert (decode_step (reverse_codebook codebook) (cur, out) b
            = (cur ++ [b], out)) as ->
      by (unfold decode_step; cbn [fst snd]; by rewrite Hc).
    destruct (IH (cur ++ [b]) out) as [Heq Hall]. cbn zeta in Heq, Hall.
    split; [|done]. by rewrite Heq, <-!(assoc_L (++)).
Qed.
End DecodeMore.

Section CodesMore.
Context {Symbol : Type} `{EqDecision Symbol}.
Implicit Types (node root l r : Node Symbol) (prefix code : list bool).

Lemma paths_prefix_map node prefix :
  well_formed node →
  paths node prefix = (λ entry, (entry.1, prefix ++ entry.2)) <$> paths node [].
Proof.
  intros Hwf. revert prefix.
  induction Hwf as [c f|l r _ IHl _ IHr]; intros prefix; cbn [paths].
  - cbn. by rewrite app_nil_r.
  - rewrite (IHl (prefix ++ [false])), (IHr (prefix ++ [true])).
    rewrite (IHl ([] ++ [false])), (IHr ([] ++ [true])).
    rewrite fmap_app, <-!list_fmap_compose. f_equal; apply list_fmap_ext;
      intros _ [c code] _; cbn; by rewrite <-(assoc_L (++)).
Qed.

Lemma leaves_nonempty node : well_formed node → 0 < length (leaves node).
Proof.
  induction 1 as [c f|l r _ IHl _ IHr]; cbn [leaves]; [simpl; lia|].
  rewrite length_app. lia.
Qed.

Lemma paths_length_bound node prefix c code :
  well_formed node → (c, code) ∈ paths node prefix →
  length prefix ≤ length code
  ∧ length code + 1 ≤ length prefix + length (leaves node).
Proof.
  intros Hwf. revert prefix.
  induction Hwf as [c' f|l r Hl IHl Hr IHr]; intros prefix; cbn [paths leaves].
  - intros [= _ ->]%list_elem_of_singleton. simpl. lia.
  - pose proof (leaves_nonempty l Hl) as Hposl.
    pose proof (leaves_nonempty r Hr) as Hposr.
    rewrite length_app.
    intros [[Ha Hb]%IHl|[Ha Hb]%IHr]%elem_of_app;
      rewrite length_app in Ha, Hb; simpl in Ha, Hb; lia.
Qed.
End CodesMore.

(** ** Weights and depths *)

Ltac perm_step :=
  lazymatch goal with
  | |- ?x :: ?l ≡ₚ ?x :: ?r => apply Permutation_skip
  | |- ?x :: ?l ≡ₚ ?y1 :: ?x :: ?r => apply (Permutation_cons_app [y1] r x)
  | |- ?x :: ?l ≡ₚ ?y1 :: ?y2 :: ?x :: ?r =>
      apply (Permutation_cons_app [y1; y2] r x)
  | |- ?x :: ?l ≡ₚ ?y1 :: ?y2 :: ?y3 :: ?x :: ?r =>
      apply (Permutation_cons_app [y1; y2; y3] r x)
  end; cbn [app].
Ltac perm := repeat perm_step; try done.

Section Greedy.
Implicit Types (K : list nat) (L : list (nat * nat)) (W : list nat).

Global Instance tree_depths_proper : Proper ((≡ₚ) ==> iff) tree_depths.
Proof. intros K K' HK. split; apply td_perm; [done|by symmetry]. Qed.

Global Instance cost_proper : Proper ((≡ₚ) ==> (=)) cost.
Proof. intros L L' HL. unfold cost. by rewrite HL. Qed.

Lemma cost_cons w d L : cost ((w, d) :: L) = w * d + cost L.
Proof. done. Qed.

Lemma tree_depths_deepest K :
  tree_depths K → 2 ≤ length K →
  ∃ D K', K ≡ₚ S D :: S D :: K' ∧ tree_depths (D :: K')
    ∧ Forall (λ d, d ≤ S D) K.
Proof.
  induction 1 as [|d K Htd IH|K K1 Hperm Htd IH]; intros Hlen.
  - simpl in Hlen. lia.
  - destruct K as [|d0 K0].
    { exists d, []. split_and!; [done..|]. repeat constructor. }
    destruct IH as (D & K1 & Hp & Htd1 & Hall); [simpl; lia|].
    assert (d ≤ S D) as Hd by (by apply Forall_cons in Hall as [? _]).
    destruct (decide (d = S D)) as [->|Hne].
    + exists (S D), (d0 :: K0). split_and!; [done..|].
      apply Forall_cons in Hall as [_ Hall].
      repeat (apply Forall_cons; split; [lia|]).
      eapply Forall_impl; [done|]. simpl. lia.
    + assert (d ∈ K1) as [K2 HK2]%elem_of_Permutation.
      { assert (d ∈ S D :: S D :: K1) as Hin by (rewrite <-Hp; left).
        rewrite !elem_of_cons in Hin. destruct Hin as [?|[?|?]]; [lia..|done]. }
      assert (d0 :: K0 ≡ₚ S D :: S D :: K2) as Hp0.
      { apply (Permutation_cons_inv (a := d)). rewrite Hp, HK2. perm. }
      exists D, (S d :: S d :: K2). split_and!.
      * rewrite Hp0. perm.
      * apply (td_perm (S d :: S d :: D :: K2)); [perm|].
        apply td_split. apply (td_perm (D :: K1)); [|done]. rewrite HK2. perm.
      * apply Forall_cons in Hall as [_ Hall].
        repeat (apply Forall_cons; split; [lia|]). done.
  - destruct IH as (D & K2 & Hp & Htd1 & Hall); [by rewrite Hperm|].
    exists D, K2. split_and!; [by rewrite <-Hperm|done|by rewrite <-Hperm].
Qed.

Lemma place_lightest L m W D K :
  L.*1 ≡ₚ m :: W → Forall (λ w, m ≤ w) W →
  L.*2 ≡ₚ D :: K → Forall (λ d, d ≤ D) K →
  ∃ L', L'.*1 ≡ₚ W ∧ L'.*2 ≡ₚ K ∧ m * D + cost L' ≤ cost L.
Proof.
  intros Hw Hmin Hd Hmax.
  assert (m ∈ L.*1) as ([m' d1] & -> & [R1 HR1]%elem_of_Permutation)%list_elem_of_fmap.
  { rewrite Hw. left. }
  cbn [fst] in *. rewrite HR1 in Hw, Hd. csimpl in Hw. csimpl in Hd.
  assert (cost L = m' * d1 + cost R1) as -> by (by rewrite HR1).
  apply Permutation_cons_inv in Hw.
  destruct (decide (d1 = D)) as [->|Hne].
  { apply Permutation_cons_inv in Hd. by exists R1. }
  assert (D ∈ R1.*2) as ([w D'] & -> & [R2 HR2]%elem_of_Permutation)%list_elem_of_fmap.
  { assert (D ∈ d1 :: R1.*2) as Hin by (rewrite Hd; left).
    apply elem_of_cons in Hin as [?|?]; [congruence|done]. }
  cbn [snd] in *.
  assert (d1 ∈ K) as HinK.
  { assert (d1 ∈ D' :: K) as Hin by (rewrite <-Hd; left).
    apply elem_of_cons in Hin as [?|?]; [congruence|done]. }
  destruct (proj1 (elem_of_Permutation _ _) HinK) as [K2 HK2].
  rewrite HR2 in Hw, Hd. csimpl in Hw. csimpl in Hd.
  exists ((w, d1) :: R2). split_and!.
  - done.
  - csimpl. rewrite HK2. f_equiv.
    apply (Permutation_cons_inv (a := D')), (Permutation_cons_inv (a := d1)).
    rewrite Hd, HK2. perm.
  - rewrite HR2, !cost_cons.
    assert (m' ≤ w).
    { rewrite Forall_forall in Hmin. apply Hmin. rewrite <-Hw. left. }
    assert (d1 ≤ D').
    { rewrite Forall_forall in Hmax. by apply Hmax. }
    nia.
Qed.

Lemma merge_lightest L a b W :
  tree_depths L.*2 → L.*1 ≡ₚ a :: b :: W → a ≤ b → Forall (λ w, b ≤ w) W →
  ∃ L', tree_depths L'.*2 ∧ L'.*1 ≡ₚ (a + b) :: W ∧ cost L' + a + b ≤ cost L.
Proof.
  intros Htd Hw Hab Hmin.
  destruct (tree_depths_deepest _ Htd) as (D & K & Hp & HtdK & Hall).
  { rewrite length_fmap, <-(length_fmap fst), Hw. simpl. lia. }
  rewrite Hp in Hall. apply Forall_cons in Hall as [_ Hall].
  destruct (place_lightest L a (b :: W) (S D) (S D :: K))
    as (L1 & Hw1 & Hd1 & Hc1); [done| |done|done|].
  { apply Forall_cons. split; [done|]. eapply Forall_impl; [done|]. simpl. lia. }
  apply Forall_cons in Hall as [_ Hall].
  destruct (place_lightest L1 b W (S D) K) as (L2 & Hw2 & Hd2 & Hc2); [done..|].
  exists ((a + b, D) :: L2). split_and!.
  - csimpl. by rewrite Hd2.
  - csimpl. by rewrite Hw2.
  - rewrite cost_cons. nia.
Qed.
End Greedy.

(** ** The cost of the tree *)

Section Optimal.
Context {Symbol : Type} `{EqDecision Symbol}.
Implicit Types (heap : list (Node Symbol)) (node root t : Node Symbol).
Implicit Types (frequencies : dict Symbol nat) (L : list (nat * nat)).
Implicit Types (codebook : dict Symbol (list bool)).

Lemma build_loop_optimal fuel heap root L :
  is_heap freq heap → heap ≠ [] → length heap ≤ S fuel →
  build_loop fuel heap = Ok [root] →
  tree_depths L.*2 → L.*1 ≡ₚ freq <$> heap →
  tree_cost root ≤ sum_list (tree_cost <$> heap) + cost L.
Proof.
  revert heap L. induction fuel as [|fuel IH];
    intros heap L Hheap Hne Hlen Hbuild Htd Hw; cbn [build_loop] in Hbuild.
  { injection Hbuild as ->. simpl. lia. }
  case_decide as Hlt; cycle 1.
  { injection Hbuild as ->. simpl. lia. }
  destruct (merge_step_spec heap Hheap Hlt)
    as (left & heap1 & right & heap2 & heap' & _ & _ & Hm & Hp1 & Hp2 & Hp'
        & Hmin1 & Hmin2 & Hheap').
  rewrite Hm in Hbuild. cbn [mbind result_bind] in Hbuild.
  assert (heap ≡ₚ left :: right :: heap2) as Hp by (by rewrite Hp1, Hp2).
  destruct (merge_lightest L (freq left) (freq right) (freq <$> heap2))
    as (L' & Htd' & Hw' & Hcost); [done|by rewrite Hw, Hp| | |].
  { apply Hmin1. rewrite Hp. right. left. }
  { apply Forall_fmap, Forall_forall. intros x Hx. apply Hmin2.
    rewrite Hp2. by right. }
  assert (tree_cost root ≤ sum_list (tree_cost <$> heap') + cost L') as Hroot.
  { apply IH; [done| | |done..|].
    - intros ->. by apply Permutation_nil_cons in Hp'.
    - apply Permutation_length in Hp, Hp'. simpl in Hp, Hp'. lia.
    - by rewrite Hw', Hp'. }
  rewrite Hp' in Hroot. rewrite Hp. csimpl in Hroot. csimpl. lia.
Qed.

Lemma build_huffman_tree_cost_le frequencies root L :
  build_huffman_tree frequencies = Ok root →
  tree_depths L.*2 → L.*1 ≡ₚ values frequencies →
  tree_cost root ≤ cost L.
Proof.
  unfold build_huffman_tree. intros Hbuild Htd Hw.
  destruct (heapify_spec Node_lt (leaf <$> frequencies)) as (heap & Hify & Hperm).
  pose proof (heapify_order Node_lt freq Node_lt_freq _ _ Hify) as Hheap.
  rewrite Hify in Hbuild. cbn [mbind result_bind] in Hbuild.
  assert (heap ≠ []) as Hne.
  { intros ->. clear Hheap. apply Permutation_nil in Hperm. apply fmap_nil_inv in Hperm.
    by subst. }
  destruct (build_loop_spec (length heap) heap) as (root' & Hloop & _);
    [done| | |done|lia|].
  { rewrite Hperm. apply Forall_fmap, Forall_true. intros item. constructor. }
  { rewrite Hperm. apply Forall_fmap, Forall_true. intros item. constructor. }
  rewrite Hloop in Hbuild. cbn in Hbuild. injection Hbuild as ->.
  pose proof (build_loop_optimal _ _ _ L Hheap Hne (Nat.le_succ_diag_r _) Hloop Htd)
    as Hopt.
  assert (sum_list (tree_cost <$> heap) = 0) as Hzero.
  { rewrite Hperm. clear. induction frequencies as [|[c n] ? IH]; [done|].
    csimpl. by rewrite IH. }
  rewrite Hzero in Hopt. apply Hopt. rewrite Hperm, Hw. unfold values.
  rewrite <-list_fmap_compose. done.
Qed.

(** The bits of a text under a table, counted through the frequencies. *)
Lemma weighted_tree_cost (h : Symbol → nat) t prefix :
  well_formed t →
  (∀ c code, (c, code) ∈ paths t prefix → h c = length code) →
  sum_list ((λ entry, entry.2 * h entry.1) <$> leaves t)
  = tree_cost t + length prefix * freq t.
Proof.
  intros Hwf. revert prefix.
  induction Hwf as [c f|l r _ IHl _ IHr]; intros prefix Hh; cbn [paths leaves tree_cost freq].
  - csimpl. rewrite (Hh c prefix) by left. lia.
  - rewrite fmap_app, sum_list_with_app.
    rewrite (IHl (prefix ++ [false])), (IHr (prefix ++ [true])).
    + rewrite !length_app. simpl. lia.
    + intros c code Hin. apply Hh, elem_of_app. by right.
    + intros c code Hin. apply Hh, elem_of_app. by left.
Qed.

Lemma paths_tree_depths t prefix K :
  well_formed t → tree_depths (length prefix :: K) →
  tree_depths (((λ entry, length entry.2) <$> paths t prefix) ++ K).
Proof.
  intros Hwf. revert prefix K.
  induction Hwf as [c f|l r _ IHl _ IHr]; intros prefix K Htd; cbn [paths].
  - done.
  - rewrite fmap_app, <-(assoc_L (++)). apply IHl.
    rewrite length_app. simpl. rewrite Nat.add_1_r.
    eapply td_perm; [symmetry; apply Permutation_middle|].
    apply IHr. rewrite length_app. simpl. rewrite Nat.add_1_r.
    by apply td_split.
Qed.
End Optimal.

(** ** The number of code bits *)

Section Weighted.
Context {Symbol : Type} `{EqDecision Symbol}.
Implicit Types (node root t : Node Symbol) (text : list Symbol).
Implicit Types (frequencies : dict Symbol nat) (L : list (nat * nat)).
Implicit Types (codebook : dict Symbol (list bool)).

Lemma code_of_elem_of codebook c code :
  NoDup (keys codebook) → (c, code) ∈ codebook → code_of codebook c = code.
Proof. intros Hnd Hin. unfold code_of. by rewrite (dict_get_Some _ _ _ Hnd Hin). Qed.

Lemma encoded_length text codebook :
  length (text ≫= code_of codebook)
  = weighted_length (calculate_frequencies text).1 codebook.
Proof.
  unfold weighted_length, calculate_frequencies. cbn [fst].
  rewrite (count_loop_weighted (λ c, length (code_of codebook c))).
  by rewrite length_bind_codes.
Qed.

Lemma weighted_length_items (g : Symbol → nat) frequencies :
  NoDup (keys frequencies) →
  sum_list ((λ entry, entry.2 * g entry.1) <$> frequencies)
  = sum_list ((λ c, default 0 (dict_get frequencies c) * g c) <$> keys frequencies).
Proof.
  intros Hnd. unfold keys. rewrite <-list_fmap_compose. f_equal.
  apply list_fmap_ext. intros _ [c n] Hin%list_elem_of_lookup_2. cbn.
  by rewrite (dict_get_Some _ _ _ Hnd Hin).
Qed.

Lemma values_dict_get frequencies :
  NoDup (keys frequencies) →
  (λ c, default 0 (dict_get frequencies c)) <$> keys frequencies = values frequencies.
Proof.
  intros Hnd. unfold keys, values. rewrite <-list_fmap_compose.
  apply list_fmap_ext. intros _ [c n] Hin%list_elem_of_lookup_2. cbn.
  by rewrite (dict_get_Some _ _ _ Hnd Hin).
Qed.

Lemma NoDup_keys_paths frequencies t :
  NoDup (keys frequencies) → well_formed t →
  (leaves t).*1 ≡ₚ keys frequencies → NoDup (keys (paths t [])).
Proof. intros Hnd Hwf Hp. unfold keys at 1. by rewrite paths_keys, Hp. Qed.

(** The bits of a text under the table of any tree over its symbols are
    the cost of an assignment of the depths of a tree to the counts. *)
Lemma weighted_length_tree frequencies t :
  NoDup (keys frequencies) → well_formed t →
  (leaves t).*1 ≡ₚ keys frequencies →
  ∃ L, tree_depths L.*2 ∧ L.*1 ≡ₚ values frequencies
    ∧ cost L = weighted_length frequencies (paths t []).
Proof.
  intros Hnd Hwf Hp.
  pose proof (NoDup_keys_paths _ _ Hnd Hwf Hp) as Hndp.
  exists ((λ entry, (default 0 (dict_get frequencies entry.1), length entry.2))
          <$> paths t []).
  split_and!.
  - rewrite <-list_fmap_compose.
    rewrite <-(app_nil_r (_ <$> _)). by apply (paths_tree_depths t [] []), td_root.
  - rewrite <-list_fmap_compose, <-(values_dict_get _ Hnd), <-Hp, <-(paths_keys t []) by done.
    by rewrite <-list_fmap_compose.
  - unfold weighted_length at 1.
    rewrite (weighted_length_items (λ c, length (code_of (paths t []) c))) by done.
    rewrite <-Hp, <-(paths_keys t []) by done.
    unfold cost. rewrite <-!list_fmap_compose. f_equal.
    apply list_fmap_ext. intros _ [c code] Hin%list_elem_of_lookup_2. cbn.
    by rewrite (code_of_elem_of _ _ _ Hndp Hin).
Qed.

Lemma weighted_length_root frequencies root :
  NoDup (keys frequencies) → well_formed root → leaves root ≡ₚ frequencies →
  weighted_length frequencies (paths root []) = tree_cost root.
Proof.
  intros Hnd Hwf Hp.
  assert (NoDup (keys (paths root []))) as Hndp.
  { apply (NoDup_keys_paths frequencies); [done..|]. unfold keys. by rewrite Hp. }
  unfold weighted_length. rewrite <-Hp.
  rewrite (weighted_tree_cost (λ c, length (code_of (paths root []) c)) root []); [simpl; lia|done|].
  intros c code Hin. by rewrite (code_of_elem_of _ _ _ Hndp Hin).
Qed.

Lemma huffman_weighted_optimal frequencies root t :
  NoDup (keys frequencies) → build_huffman_tree frequencies = Ok root →
  well_formed t → (leaves t).*1 ≡ₚ keys frequencies →
  weighted_length frequencies (paths root []) = tree_cost root
  ∧ tree_cost root ≤ weighted_length frequencies (paths t []).
Proof.
  intros Hnd Hbuild Hwf Hp.
  assert (frequencies ≠ []) as Hne.
  { intros ->. by rewrite build_huffman_tree_nil in Hbuild. }
  destruct (build_huffman_tree_spec frequencies Hne) as (root' & Hb & Hwfr & _ & Hl).
  assert (root' = root) as -> by congruence.
  split; [by apply weighted_length_root|].
  destruct (weighted_length_tree frequencies t) as (L & Htd & Hw & <-); [done..|].
  by apply (build_huffman_tree_cost_le frequencies).
Qed.
End Weighted.

(** ** Decoding with the table of a tree *)

Section Complete.
Context {Symbol : Type} `{EqDecision Symbol}.
Implicit Types (node root t l r : Node Symbol) (prefix code s cur bits : list bool).
Implicit Types (codebook : dict Symbol (list bool)) (out : list Symbol).

Lemma prefix_snoc_inv {A} (l1 l2 : list A) x :
  l1 `prefix_of` l2 ++ [x] → l1 = l2 ++ [x] ∨ l1 `prefix_of` l2.
Proof.
  intros [k Hk]. destruct k as [|y k _] using rev_ind.
  - left. by rewrite app_nil_r in Hk.
  - right. rewrite (assoc_L (++)) in Hk. apply app_inj_tail in Hk as [-> _].
    by apply prefix_app_r.
Qed.

(** In a strict binary tree every bit-string either starts with a code or
    is the beginning of a longer code. *)
Lemma paths_cover t prefix s :
  well_formed t →
  ∃ c code, (c, code) ∈ paths t prefix
    ∧ (code `prefix_of` prefix ++ s
       ∨ (prefix ++ s) `prefix_of` code ∧ length (prefix ++ s) < length code).
Proof.
  intros Hwf. revert prefix s.
  induction Hwf as [c f|l r Hl IHl Hr IHr]; intros prefix s; cbn [paths].
  - exists c, prefix. split; [left|]. left. by apply prefix_app_r.
  - destruct s as [|b s].
    + destruct (IHl (prefix ++ [false]) []) as (c & code & Hin & _).
      exists c, code. split; [apply elem_of_app; by left|]. right.
      apply paths_extend in Hin as Hpre; [|done]. rewrite app_nil_r. split.
      * etrans; [|done]. by apply prefix_app_r.
      * apply prefix_length in Hpre. rewrite length_app in Hpre. simpl in Hpre. lia.
    + destruct b.
      * destruct (IHr (prefix ++ [true]) s) as (c & code & Hin & Hcase).
        exists c, code. rewrite <-(assoc_L (++)) in Hcase. cbn [app] in Hcase.
        split; [apply elem_of_app; by right|done].
      * destruct (IHl (prefix ++ [false]) s) as (c & code & Hin & Hcase).
        exists c, code. rewrite <-(assoc_L (++)) in Hcase. cbn [app] in Hcase.
        split; [apply elem_of_app; by left|done].
Qed.

(** With the table of a tree the unmatched bits stay the beginning of a
    longer code. *)
Lemma decode_loop_residual t bits cur out :
  well_formed t → NoDup (leaves t).*1 →
  (∃ c code, (c, code) ∈ paths t [] ∧ cur `prefix_of` code ∧ length cur < length code) →
  ∃ c code, (c, code) ∈ paths t []
    ∧ (fold_left (decode_step (reverse_codebook (paths t []))) bits (cur, out)).1
      `prefix_of` code
    ∧ length (fold_left (decode_step (reverse_codebook (paths t []))) bits (cur, out)).1
      < length code.
Proof.
  intros Hwf Hnd.
  assert (NoDup (keys (paths t []))) as Hkeys by (unfold keys; by rewrite paths_keys).
  pose proof (paths_prefix_free t [] Hwf Hnd) as Hfree.
  revert cur out. induction bits as [|b bits IH]; intros cur out Hcur; cbn [fold_left].
  { done. }
  destruct Hcur as (c0 & code0 & Hin0 & Hpre0 & Hlen0).
  destruct (paths_cover t [] (cur ++ [b]) Hwf) as (c & code & Hin & Hcase).
  cbn [app] in Hcase.
  assert (dict_get (reverse_codebook (paths t [])) (cur ++ [b]) = Some c
          ∧ code = cur ++ [b]
          ∨ dict_get (reverse_codebook (paths t [])) (cur ++ [b]) = None
            ∧ (cur ++ [b]) `prefix_of` code ∧ length (cur ++ [b]) < length code)
    as [[Hget ->]|(Hget & Hpre & Hlen)].
  { destruct Hcase as [Hpre|[Hpre Hlen]].
    - left. assert (code = cur ++ [b]) as ->; [|split; [by apply reverse_codebook_get|done]].
      destruct (prefix_snoc_inv _ _ _ Hpre) as [Heq|Hpre']; [done|].
      (* code is a prefix of cur *)
      assert (c = c0) as -> by (apply (Hfree c c0 code code0); [done..|by etrans]).
      assert (code = code0) as -> by (by apply (NoDup_keys_eq (paths t []) c0)).
      apply prefix_length in Hpre'. lia.
    - right. split_and!; [|done..].
      by apply (reverse_codebook_proper_prefix _ Hkeys Hfree c code). }
  - assert (decode_step (reverse_codebook (paths t [])) (cur, out) b
            = ([], out ++ [c])) as ->
      by (unfold decode_step; cbn [fst snd]; by rewrite Hget).
    apply IH. exists c, (cur ++ [b]). split_and!; [done|apply prefix_nil|].
    rewrite length_app. simpl. lia.
  - assert (decode_step (reverse_codebook (paths t [])) (cur, out) b
            = (cur ++ [b], out)) as ->
      by (unfold decode_step; cbn [fst snd]; by rewrite Hget).
    apply IH. by exists c, code.
Qed.

Lemma decode_loop_length (rc : dict (list bool) Symbol) bits cur out :
  length (fold_left (decode_step rc) bits (cur, out)).2 ≤ length out + length bits.
Proof.
  revert cur out. induction bits as [|b bits IH]; intros cur out; cbn [fold_left].
  { simpl. lia. }
  unfold decode_step at 2. cbn [fst snd].
  destruct (dict_get rc (cur ++ [b])) as [c|].
  - etrans; [apply IH|]. rewrite length_app. simpl. lia.
  - etrans; [apply IH|]. simpl. lia.
Qed.
End Complete.

(** ** Further facts about the tables *)

Section TablesMore.
Context {Symbol : Type} `{EqDecision Symbol}.
Implicit Types (text : list Symbol) (bits cur : list bool) (out : list Symbol).
Implicit Types (codebook : dict Symbol (list bool)).


Lemma calculate_frequencies_items text :
  (calculate_frequencies text).1
  = (λ c, (c, occurrences c text)) <$> keys (calculate_frequencies text).1.
Proof.
  unfold keys. rewrite <-list_fmap_compose.
  rewrite <-(list_fmap_id (calculate_frequencies text).1) at 1.
  apply list_fmap_ext. intros _ [c n] Hin%list_elem_of_lookup_2. cbn.
  apply (dict_get_Some _ _ _ (calculate_frequencies_NoDup text)) in Hin.
  rewrite calculate_frequencies_get in Hin. case_decide; congruence.
Qed.

Lemma bind_replicate_nil codebook (c : Symbol) n :
  code_of codebook c = [] → replicate n c ≫= code_of codebook = [].
Proof.
  intros Hc. induction n as [|n IH]; [done|].
  cbn [replicate]. by rewrite bind_cons, IH, Hc.
Qed.
Lemma encode_text_Ok_inv text codebook bits :
  encode_text text codebook = Ok bits → bits = text ≫= code_of codebook.
Proof.
  destruct (decide (Forall (λ c, c ∈ keys codebook) text)) as [Hall|Hall].
  - rewrite encode_text_total by (by apply Forall_forall). congruence.
  - apply not_Forall_Exists in Hall; [|apply _].
    apply Exists_exists in Hall as (c & Hc & Hnot).
    by rewrite (encode_text_KeyError codebook text c).
Qed.
(** The table generated from the tree of a frequency table. *)
Lemma generated_codebook (frequencies : dict Symbol nat) root codebook :
  NoDup (keys frequencies) →
  build_huffman_tree frequencies = Ok root →
  generate_codes root [] [] = Ok codebook →
  well_formed root ∧ leaves root ≡ₚ frequencies ∧ codebook = paths root []
  ∧ NoDup (leaves root).*1 ∧ NoDup (keys codebook) ∧ prefix_free codebook.
Proof.
  intros Hnd Hbuild Hgen.
  assert (frequencies ≠ []) as Hne.
  { intros ->. by rewrite build_huffman_tree_nil in Hbuild. }
  destruct (codebook_spec frequencies Hnd Hne)
    as (root' & Hb & Hwf & _ & Hl & Hg & Hndp & _ & Hfree).
  assert (root' = root) as -> by congruence.
  assert (codebook = paths root []) as -> by congruence.
  split_and!; try done. by rewrite Hl.
Qed.

Lemma internal_codes_nonempty (t : Node Symbol) c code :
  well_formed t → 2 ≤ length (leaves t) → (c, code) ∈ paths t [] →
  0 < length code.
Proof.
  intros Hwf Hlen Hin. destruct Hwf as [c0 f|l r Hl Hr].
  - simpl in Hlen. lia.
  - apply paths_internal_longer in Hin; [|done..]. simpl in Hin. lia.
Qed.
(** The codes below a node fill the code space below its prefix. *)
Lemma paths_kraft (t : Node Symbol) (prefix : list bool) D :
  well_formed t →
  (∀ c code, (c, code) ∈ paths t prefix → length code ≤ D) →
  sum_list ((λ entry, 2 ^ (D - length entry.2)) <$> paths t prefix)
  = 2 ^ (D - length prefix).
Proof.
  intros Hwf. revert prefix.
  induction Hwf as [c f|l r Hl IHl Hr IHr]; intros prefix HD; cbn [paths].
  - csimpl. lia.
  - rewrite fmap_app, sum_list_with_app.
    rewrite IHl, IHr.
    + rewrite !length_app. cbn [length].
      assert (length prefix + 1 ≤ D) as Hlt.
      { destruct (paths_leftmost l (prefix ++ [false]) Hl)
          as (z & d & Hz%list_elem_of_lookup_2).
        assert ((z, (prefix ++ [false]) ++ replicate d false)
                ∈ paths l (prefix ++ [false]) ++ paths r (prefix ++ [true])) as Hin
          by (apply elem_of_app; by left).
        apply HD in Hin. rewrite !length_app in Hin. simpl in Hin. lia. }
      replace (D - length prefix) with (S (D - (length prefix + 1))) by lia.
      rewrite Nat.pow_succ_r'. lia.
    + intros c code Hin. apply (HD c), elem_of_app. by right.
    + intros c code Hin. apply (HD c), elem_of_app. by left.
Qed.
End TablesMore.

(** ** Exchanging two symbols *)

Section Exchange.
Context {Symbol : Type} `{EqDecision Symbol}.
Implicit Types (a b c : Symbol) (t l r : Node Symbol) (prefix : list bool).
Implicit Types (frequencies : dict Symbol nat).
Implicit Types (codebook : dict Symbol (list bool)).

Lemma swap_symbol_involutive a b c : swap_symbol a b (swap_symbol a b c) = c.
Proof. unfold swap_symbol. repeat case_decide; congruence. Qed.

Lemma swap_symbol_other a b c : c ≠ a → c ≠ b → swap_symbol a b c = c.
Proof. intros ??. unfold swap_symbol. by rewrite !decide_False. Qed.

Lemma swap_symbol_l a b : swap_symbol a b a = b.
Proof. unfold swap_symbol. by rewrite decide_True. Qed.

Lemma swap_symbol_r a b : swap_symbol a b b = a.
Proof. unfold swap_symbol. case_decide; [done|]. by rewrite decide_True. Qed.

Lemma freq_swap_leaves a b t : freq (swap_leaves a b t) = freq t.
Proof. by destruct t. Qed.

Lemma well_formed_swap_leaves a b t :
  well_formed t → well_formed (swap_leaves a b t).
Proof.
  induction 1 as [c f|l r _ IHl _ IHr]; cbn [swap_leaves fmap option_fmap option_map].
  - constructor.
  - rewrite <-(freq_swap_leaves a b l), <-(freq_swap_leaves a b r). by constructor.
Qed.

Lemma paths_swap_leaves a b t prefix :
  well_formed t →
  paths (swap_leaves a b t) prefix
  = (λ entry, (swap_symbol a b entry.1, entry.2)) <$> paths t prefix.
Proof.
  intros Hwf. revert prefix.
  induction Hwf as [c f|l r _ IHl _ IHr]; intros prefix;
    cbn [swap_leaves fmap option_fmap option_map paths].
  - done.
  - by rewrite IHl, IHr, fmap_app.
Qed.

Lemma leaves_swap_leaves a b t :
  well_formed t →
  (leaves (swap_leaves a b t)).*1 = swap_symbol a b <$> (leaves t).*1.
Proof.
  induction 1 as [c f|l r _ IHl _ IHr];
    cbn [swap_leaves fmap option_fmap option_map leaves].
  - done.
  - by rewrite !fmap_app, IHl, IHr.
Qed.

Lemma swap_symbol_Permutation a b (s : list Symbol) :
  NoDup s → a ∈ s → b ∈ s → swap_symbol a b <$> s ≡ₚ s.
Proof.
  intros Hnd Ha Hb. apply NoDup_Permutation; [|done|].
  - apply NoDup_fmap_2; [|done]. intros x y Hxy.
    by rewrite <-(swap_symbol_involutive a b x), Hxy, swap_symbol_involutive.
  - intros x. rewrite list_elem_of_fmap. split.
    + intros (y & -> & Hy). unfold swap_symbol. repeat case_decide; by subst.
    + intros Hx. exists (swap_symbol a b x). split; [by rewrite swap_symbol_involutive|].
      unfold swap_symbol. repeat case_decide; by subst.
Qed.

Lemma dict_get_swap_keys a b codebook c :
  dict_get ((λ entry, (swap_symbol a b entry.1, entry.2)) <$> codebook) c
  = dict_get codebook (swap_symbol a b c).
Proof.
  induction codebook as [|[k code] codebook IH]; [done|].
  csimpl. rewrite IH.
  destruct (decide (c = swap_symbol a b k)) as [->|Hne].
  - by rewrite swap_symbol_involutive, decide_True.
  - rewrite decide_False; [done|]. intros <-. by rewrite swap_symbol_involutive in Hne.
Qed.

(** The effect of the exchange on the number of code bits. *)
Lemma exchange_weighted a b frequencies (g : Symbol → nat) na nb :
  NoDup (keys frequencies) →
  (a, na) ∈ frequencies → (b, nb) ∈ frequencies → a ≠ b →
  sum_list ((λ entry, entry.2 * g (swap_symbol a b entry.1)) <$> frequencies)
    + na * g a + nb * g b
  = sum_list ((λ entry, entry.2 * g entry.1) <$> frequencies)
    + na * g b + nb * g a.
Proof.
  intros Hnd Ha Hb Hab.
  apply elem_of_Permutation in Ha as [rest1 Hp1].
  assert ((b, nb) ∈ rest1) as [rest Hp2]%elem_of_Permutation.
  { rewrite Hp1 in Hb. apply elem_of_cons in Hb as [[= ? ?]|?]; [congruence|done]. }
  rewrite Hp2 in Hp1. clear rest1 Hp2 Hb.
  unfold keys in Hnd. rewrite Hp1 in Hnd. rewrite Hp1. csimpl in Hnd. csimpl.
  apply NoDup_cons in Hnd as [Ha Hnd]. apply NoDup_cons in Hnd as [Hb _].
  apply not_elem_of_cons in Ha as [_ Ha].
  rewrite swap_symbol_l, swap_symbol_r.
  assert (sum_list ((λ entry, entry.2 * g (swap_symbol a b entry.1)) <$> rest)
          = sum_list ((λ entry, entry.2 * g entry.1) <$> rest)) as ->; [|lia].
  f_equal. apply list_fmap_ext. intros _ [c n] Hin%list_elem_of_lookup_2. cbn.
  rewrite swap_symbol_other; [done|intros ->..].
  - apply Ha, list_elem_of_fmap. by exists (a, n).
  - apply Hb, list_elem_of_fmap. by exists (b, n).
Qed.
End Exchange.

(** ** Prefix-free codes and trees *)

Section Trie.
Implicit Types (K : list nat) (L : list (nat * nat)) (M : list (nat * list bool)).

Lemma tree_depths_graft K d K' :
  tree_depths K → tree_depths (d :: K') →
  tree_depths (((λ e, d + e) <$> K) ++ K').
Proof.
  intros HK. revert K'.
  induction HK as [|e K _ IH|K K1 Hperm _ IH]; intros K' Hd.
  - csimpl. by rewrite Nat.add_0_r.
  - csimpl. rewrite !Nat.add_succ_r. apply td_split. by apply (IH K').
  - rewrite <-Hperm. by apply IH.
Qed.

Lemma tree_depths_join K0 K1 :
  tree_depths K0 → tree_depths K1 → tree_depths ((S <$> K0) ++ (S <$> K1)).
Proof.
  intros H0 H1.
  apply (tree_depths_graft K0 1 (S <$> K1) H0).
  apply (td_perm ((S <$> K1) ++ [1])); [by rewrite (comm (++))|].
  apply (tree_depths_graft K1 1 [1] H1). apply td_split, td_root.
Qed.

Lemma cost_shift L :
  cost ((λ entry, (entry.1, S entry.2)) <$> L) = cost L + sum_list L.*1.
Proof.
  unfold cost. induction L as [|[w d] L IH]; [done|]. csimpl in *. lia.
Qed.

Lemma cost_app L1 L2 : cost (L1 ++ L2) = cost L1 + cost L2.
Proof. unfold cost. by rewrite fmap_app, sum_list_with_app. Qed.

(** Splitting on the first bit. *)
Lemma sub_codes_split M :
  Forall (λ entry, entry.2 ≠ []) M →
  M.*1 ≡ₚ (sub_codes false M).*1 ++ (sub_codes true M).*1
  ∧ code_bits M
    = code_bits (sub_codes false M) + sum_list (sub_codes false M).*1
      + code_bits (sub_codes true M) + sum_list (sub_codes true M).*1
  ∧ sum_list (length <$> M.*2)
    = sum_list (length <$> (sub_codes false M).*2) + length (sub_codes false M)
      + sum_list (length <$> (sub_codes true M).*2) + length (sub_codes true M).
Proof.
  unfold sub_codes, code_bits.
  induction 1 as [|[w code] M Hne _ IH]; [done|].
  destruct IH as (IH1 & IH2 & IH3).
  destruct code as [|[] code]; [done|..]; cbn [snd] in *.
  - rewrite (filter_cons_False _ (w, true :: code)) by (by cbn).
    rewrite (filter_cons_True _ (w, true :: code)) by (by cbn).
    csimpl. split_and!.
    + rewrite IH1. apply Permutation_middle.
    + rewrite IH2. lia.
    + rewrite IH3. lia.
  - rewrite (filter_cons_True _ (w, false :: code)) by (by cbn).
    rewrite (filter_cons_False _ (w, false :: code)) by (by cbn).
    csimpl. split_and!.
    + by rewrite IH1.
    + rewrite IH2. lia.
    + rewrite IH3. lia.
Qed.

Lemma codes_prefix_free_nonempty M :
  codes_prefix_free M → 2 ≤ length M → Forall (λ entry, entry.2 ≠ []) M.
Proof.
  intros Hfree Hlen. apply Forall_forall. intros e [M' HM']%elem_of_Permutation He.
  destruct M' as [|e2 rest].
  { apply Permutation_length in HM'. simpl in HM'. lia. }
  apply (Hfree e e2 rest HM'). rewrite He. apply prefix_nil.
Qed.

Lemma codes_prefix_free_sub b M :
  codes_prefix_free M → codes_prefix_free (sub_codes b M).
Proof.
  intros Hfree e1 e2 rest Hperm Hpre. unfold sub_codes in Hperm.
  symmetry in Hperm. apply Permutation_map_inv in Hperm as (A & HA & Hperm).
  destruct A as [|a1 [|a2 R]]; [done..|].
  injection HA as -> -> _.
  assert (a1 ∈ filter (λ entry, head entry.2 = Some b) M) as Ha1
    by (rewrite Hperm; left).
  assert (a2 ∈ filter (λ entry, head entry.2 = Some b) M) as Ha2
    by (rewrite Hperm; right; left).
  apply list_elem_of_filter in Ha1 as [Hh1 _], Ha2 as [Hh2 _].
  apply (Hfree a1 a2 (R ++ filter (λ entry, ¬ head entry.2 = Some b) M)).
  - rewrite <-(filter_app_complement (λ entry, head entry.2 = Some b) M) at 1.
    by rewrite Hperm.
  - destruct a1 as [w1 [|b1 c1]], a2 as [w2 [|b2 c2]]; cbn in *; try done.
    injection Hh1 as ->. injection Hh2 as ->. by apply prefix_cons.
Qed.

(** The code lengths of a prefix-free code are not better than the
    depths of some strict binary tree. *)
Lemma prefix_free_tree_depths n M :
  sum_list (length <$> M.*2) ≤ n → M ≠ [] → codes_prefix_free M →
  ∃ L, tree_depths L.*2 ∧ L.*1 ≡ₚ M.*1 ∧ cost L ≤ code_bits M.
Proof.
  revert M. induction n as [n IH] using lt_wf_ind. intros M Hn Hne Hfree.
  destruct M as [|[w code] [|e2 M']] eqn:HM; [done| |].
  { exists [(w, 0)]. split_and!; [apply td_root|done|]. unfold cost, code_bits. simpl. lia. }
  rewrite <-HM in *. clear Hne.
  assert (2 ≤ length M) as Hlen by (rewrite HM; simpl; lia).
  clear HM w code e2 M'.
  pose proof (codes_prefix_free_nonempty M Hfree Hlen) as Hnonempty.
  destruct (sub_codes_split M Hnonempty) as (Hw & Hbits & Htotal).
  assert (∀ b, sub_codes b M ≠ [] →
            ∃ L, tree_depths L.*2 ∧ L.*1 ≡ₚ (sub_codes b M).*1
              ∧ cost L ≤ code_bits (sub_codes b M)) as Hsub.
  { intros b Hb.
    assert (0 < length (sub_codes b M)) by (destruct (sub_codes b M); [done|simpl; lia]).
    apply (IH (sum_list (length <$> (sub_codes b M).*2))); [|done..|by apply codes_prefix_free_sub].
    destruct b; lia. }
  destruct (sub_codes false M) as [|e0 M0] eqn:H0, (sub_codes true M) as [|e1 M1] eqn:H1.
  - apply Permutation_length in Hw. rewrite length_fmap in Hw. simpl in Hw. lia.
  - destruct (Hsub true) as (L & Htd & HwL & Hc); [by rewrite H1|].
    rewrite H1 in HwL, Hc. exists L. split_and!; [done|by rewrite Hw|lia].
  - destruct (Hsub false) as (L & Htd & HwL & Hc); [by rewrite H0|].
    rewrite H0 in HwL, Hc. exists L. split_and!; [done|by rewrite Hw, app_nil_r|lia].
  - destruct (Hsub false) as (L0 & Htd0 & HwL0 & Hc0); [by rewrite H0|].
    destruct (Hsub true) as (L1 & Htd1 & HwL1 & Hc1); [by rewrite H1|].
    rewrite H0 in HwL0, Hc0. rewrite H1 in HwL1, Hc1.
    exists (((λ entry, (entry.1, S entry.2)) <$> L0)
            ++ ((λ entry, (entry.1, S entry.2)) <$> L1)).
    split_and!.
    + rewrite fmap_app, <-!list_fmap_compose.
      pose proof (tree_depths_join _ _ Htd0 Htd1) as Hj.
      by rewrite <-!list_fmap_compose in Hj.
    + rewrite fmap_app, <-!list_fmap_compose. cbn [compose fst].
      change (λ x : nat * nat, x.1) with (@fst nat nat).
      by rewrite HwL0, HwL1, Hw.
    + rewrite cost_app, !cost_shift, HwL0, HwL1. lia.
Qed.
End Trie.

Section PrefixFreeTables.
Context {Symbol : Type} `{EqDecision Symbol}.
Implicit Types (frequencies : dict Symbol nat) (codebook : dict Symbol (list bool)).
Implicit Types (text : list Symbol).

Lemma code_of_elem_of_keys codebook c :
  c ∈ keys codebook → (c, code_of codebook c) ∈ codebook.
Proof.
  intros Hc. unfold code_of.
  destruct (dict_get codebook c) as [code|] eqn:Hget.
  - by apply dict_get_Some_elem_of.
  - by apply dict_get_None in Hget.
Qed.

(** The bits of a text under a prefix-free table are not fewer than
    the cost of an assignment of the depths of a tree to the counts. *)
Lemma weighted_length_prefix_free frequencies codebook :
  frequencies ≠ [] → NoDup (keys frequencies) → prefix_free codebook →
  (∀ c, c ∈ keys frequencies → c ∈ keys codebook) →
  ∃ L, tree_depths L.*2 ∧ L.*1 ≡ₚ values frequencies
    ∧ cost L ≤ weighted_length frequencies codebook.
Proof.
  intros Hne Hnd Hfree Hkeys.
  destruct (prefix_free_tree_depths _
              ((λ entry, (entry.2, code_of codebook entry.1)) <$> frequencies)
              (Nat.le_refl _)) as (L & Htd & Hw & Hc).
  - by destruct frequencies.
  - intros e1 e2 rest Hperm Hpre.
    symmetry in Hperm. apply Permutation_map_inv in Hperm as (A & HA & Hperm).
    destruct A as [|[c1 n1] [|[c2 n2] R]]; [done..|].
    injection HA as -> -> _. cbn [fst snd] in Hpre.
    unfold keys in Hnd. rewrite Hperm in Hnd. csimpl in Hnd.
    apply NoDup_cons in Hnd as [Hnot _]. apply Hnot.
    assert (c1 = c2) as ->; [|left].
    apply (Hfree c1 c2 (code_of codebook c1) (code_of codebook c2)); [| |done];
      apply code_of_elem_of_keys, Hkeys;
      unfold keys; rewrite Hperm; csimpl; [left|right; left].
  - exists L. split_and!; [done| |].
    + rewrite Hw. unfold values. by rewrite <-list_fmap_compose.
    + etrans; [done|]. unfold code_bits, weighted_length.
      by rewrite <-list_fmap_compose.
Qed.

Lemma huffman_prefix_free_optimal frequencies root codebook :
  NoDup (keys frequencies) → build_huffman_tree frequencies = Ok root →
  prefix_free codebook → (∀ c, c ∈ keys frequencies → c ∈ keys codebook) →
  tree_cost root ≤ weighted_length frequencies codebook.
Proof.
  intros Hnd Hbuild Hfree Hkeys.
  assert (frequencies ≠ []) as Hne.
  { intros ->. by rewrite build_huffman_tree_nil in Hbuild. }
  destruct (weighted_length_prefix_free frequencies codebook)
    as (L & Htd & Hw & Hc); [done..|].
  etrans; [|done]. by apply (build_huffman_tree_cost_le frequencies).
Qed.

Lemma encode_text_Ok_keys text codebook bits :
  encode_text text codebook = Ok bits → ∀ c, c ∈ text → c ∈ keys codebook.
Proof.
  intros Henc c Hc. destruct (decide (c ∈ keys codebook)) as [|Hnot]; [done|].
  by rewrite (encode_text_KeyError codebook text c) in Henc.
Qed.
End PrefixFreeTables.

(** ** The properties *)

Section Further.
Context {Symbol : Type} `{EqDecision Symbol} `{!Char Symbol}.
Context `{!Pickle (dict Symbol (list bool))}.
Implicit Types (input text : list Symbol) (root t : Node Symbol).
Implicit Types (codebook : dict Symbol (list bool)) (byte_array file : list N).
Implicit Types (frequencies : dict Symbol nat) (bits rest : list bool).

(** X1: the frequency table lists the distinct symbols of the text in the
    order of their first occurrence, each with its number of
    occurrences. *)
Theorem calculate_frequencies_order text :
  (calculate_frequencies text).1
  = (λ c, (c, occurrences c text)) <$> first_occurrences text.
Proof.
  rewrite calculate_frequencies_items at 1. f_equal.
  unfold calculate_frequencies. cbn [fst]. rewrite count_loop_keys.
  cbn [keys fmap list_fmap app].
  induction (first_occurrences text) as [|x l IH]; [done|].
  rewrite filter_cons, decide_True by apply not_elem_of_nil. by rewrite IH.
Qed.

(** X2: the tree of [build_huffman_tree] is optimal for its frequency
    table.  The sum of count times code length under the table generated
    from the tree is the sum of the frequencies of the merged nodes, and
    it is not larger than the same sum under any prefix-free table that
    has a code for every symbol of the frequency table. *)
Theorem build_huffman_tree_optimal frequencies root codebook_t :
  NoDup (keys frequencies) →
  build_huffman_tree frequencies = Ok root →
  prefix_free codebook_t →
  (∀ c, c ∈ keys frequencies → c ∈ keys codebook_t) →
  ∃ codebook,
    generate_codes root [] [] = Ok codebook
    ∧ weighted_length frequencies codebook = tree_cost root
    ∧ weighted_length frequencies codebook ≤ weighted_length frequencies codebook_t.
Proof.
  intros Hnd Hbuild Hfree Hkeys.
  assert (frequencies ≠ []) as Hne.
  { intros ->. by rewrite build_huffman_tree_nil in Hbuild. }
  destruct (codebook_spec frequencies Hnd Hne)
    as (root' & Hb & Hwf & _ & Hl & Hg & _).
  assert (root' = root) as -> by congruence.
  exists (paths root []). split; [done|].
  rewrite (weighted_length_root frequencies root) by done.
  split; [done|]. by apply huffman_prefix_free_optimal.
Qed.

(** X3: in the table generated from a frequency table, a symbol with a
    larger count never has a longer code than a symbol with a smaller
    count. *)
Theorem frequent_symbols_short_codes frequencies root codebook
    (a b : Symbol) (na nb : nat) (code_a code_b : list bool) :
  NoDup (keys frequencies) →
  build_huffman_tree frequencies = Ok root →
  generate_codes root [] [] = Ok codebook →
  (a, na) ∈ frequencies → (b, nb) ∈ frequencies →
  (a, code_a) ∈ codebook → (b, code_b) ∈ codebook →
  na < nb → length code_b ≤ length code_a.
Proof.
  intros Hnd Hbuild Hgen Ha Hb Hca Hcb Hlt.
  destruct (generated_codebook _ _ _ Hnd Hbuild Hgen)
    as (Hwf & Hl & -> & Hndl & Hndp & _).
  assert (a ≠ b) as Hab.
  { intros ->. apply (dict_get_Some _ _ _ Hnd) in Ha, Hb.
    assert (na = nb) by congruence. lia. }
  destruct (huffman_weighted_optimal frequencies root (swap_leaves a b root))
    as [Heq Hle]; [done..|by apply well_formed_swap_leaves| |].
  { rewrite leaves_swap_leaves, Hl by done. apply swap_symbol_Permutation; [done|..].
    - apply list_elem_of_fmap. by exists (a, na).
    - apply list_elem_of_fmap. by exists (b, nb). }
  rewrite <-Heq in Hle. unfold weighted_length in Hle.
  rewrite paths_swap_leaves in Hle by done.
  pose proof (exchange_weighted a b frequencies
                (λ c, length (code_of (paths root []) c)) na nb Hnd Ha Hb Hab) as Hex.
  cbn beta in Hex.
  rewrite (code_of_elem_of _ _ _ Hndp Hca), (code_of_elem_of _ _ _ Hndp Hcb) in Hex.
  assert (sum_list ((λ entry, entry.2 * length (code_of
            ((λ entry0, (swap_symbol a b entry0.1, entry0.2)) <$> paths root [])
            entry.1)) <$> frequencies)
          = sum_list ((λ entry, entry.2 * length (code_of (paths root [])
              (swap_symbol a b entry.1))) <$> frequencies)) as Hsw.
  { f_equal. apply list_fmap_ext. intros _ [c n] _. cbn.
    unfold code_of. by rewrite dict_get_swap_keys. }
  rewrite Hsw in Hle. nia.
Qed.

(** X4: in the table generated from a frequency table with [n] entries
    no code is longer than [n - 1] bits, and no code is empty when there
    are at least two entries. *)
Theorem code_length_bounds frequencies root codebook c code :
  NoDup (keys frequencies) →
  build_huffman_tree frequencies = Ok root →
  generate_codes root [] [] = Ok codebook →
  (c, code) ∈ codebook →
  length code + 1 ≤ length frequencies
  ∧ (2 ≤ length frequencies → 1 ≤ length code).
Proof.
  intros Hnd Hbuild Hgen Hin.
  destruct (generated_codebook _ _ _ Hnd Hbuild Hgen) as (Hwf & Hl & -> & _).
  rewrite <-Hl. split.
  - by destruct (paths_length_bound root [] c code Hwf Hin) as [_ ?].
  - intros Hlen. by apply (internal_codes_nonempty root c).
Qed.

(** X5: the table generated from a frequency table wastes no code space:
    its code lengths meet the inequality of Kraft with equality.  With [D]
    not less than the length of any code, the numbers [2 ^ (D - length)]
    add up to [2 ^ D]. *)
Theorem generate_codes_kraft frequencies root codebook (D : nat) :
  NoDup (keys frequencies) →
  build_huffman_tree frequencies = Ok root →
  generate_codes root [] [] = Ok codebook →
  (∀ c code, (c, code) ∈ codebook → length code ≤ D) →
  sum_list ((λ entry, 2 ^ (D - length entry.2)) <$> codebook) = 2 ^ D.
Proof.
  intros Hnd Hbuild Hgen HD.
  destruct (generated_codebook _ _ _ Hnd Hbuild Hgen) as (Hwf & _ & -> & _).
  rewrite (paths_kraft root [] D Hwf HD). simpl. by rewrite Nat.sub_0_r.
Qed.

(** X6: [generate_codes] puts its [prefix] argument in front of every
    code: on a strict binary tree with distinct symbols, the table for a
    prefix is the table for the empty prefix with the prefix prepended to
    each code, the symbols in the same order. *)
Theorem generate_codes_prepends (node : Node Symbol) (prefix : list bool) codebook :
  well_formed node → NoDup (leaves node).*1 →
  generate_codes node [] [] = Ok codebook →
  generate_codes node prefix []
  = Ok ((λ entry, (entry.1, prefix ++ entry.2)) <$> codebook).
Proof.
  intros Hwf Hnd Hgen.
  rewrite generate_codes_paths in Hgen by done. injection Hgen as <-.
  rewrite generate_codes_spec by done.
  rewrite fold_dict_set_fresh.
  - cbn [app]. f_equal. by apply paths_prefix_map.
  - cbn [app]. unfold keys. by rewrite paths_keys.
Qed.

(** X7: [encode_text] returns the concatenation of the codes when every
    symbol of the text is a key of the table, and raises [KeyError]
    otherwise; it raises nothing else. *)
Theorem encode_text_cases text codebook :
  encode_text text codebook
  = if decide (Forall (λ c, c ∈ keys codebook) text)
    then Ok (text ≫= code_of codebook) else Raise KeyError.
Proof.
  case_decide as Hall.
  - apply encode_text_total. by apply Forall_forall.
  - apply not_Forall_Exists in Hall; [|apply _].
    apply Exists_exists in Hall as (c & Hc & Hnot).
    by apply (encode_text_KeyError codebook text c).
Qed.

(** X8: the number of bits that [encode_text] returns is the sum, over the
    entries of the frequency table of the text, of the count times the
    length of the code of the symbol. *)
Theorem encode_text_length text codebook bits :
  encode_text text codebook = Ok bits →
  length bits = weighted_length (calculate_frequencies text).1 codebook.
Proof.
  intros ->%encode_text_Ok_inv. apply encoded_length.
Qed.

(** X9: no prefix-free table encodes a text in fewer bits than the table
    the program generates for it.  Whenever [encode_text] succeeds on a
    non-empty text with a prefix-free table, it succeeds with the table
    generated from the tree of the text, and the bits are not more. *)
Theorem huffman_code_shortest input codebook_t bits_t :
  input ≠ [] → prefix_free codebook_t →
  encode_text input codebook_t = Ok bits_t →
  ∃ root codebook bits,
    build_huffman_tree (calculate_frequencies input).1 = Ok root
    ∧ generate_codes root [] [] = Ok codebook
    ∧ encode_text input codebook = Ok bits
    ∧ length bits ≤ length bits_t.
Proof.
  intros Hne Hfree Henc.
  pose proof (calculate_frequencies_NoDup input) as Hnd.
  destruct (compress_file_spec input Hne)
    as (root & _ & Hb & Hwf & Hl & Hg & _ & _ & _ & He & _).
  exists root, (paths root []), (input ≫= code_of (paths root [])).
  split_and!; [done..|].
  rewrite (encode_text_Ok_inv _ _ _ Henc), !encoded_length.
  rewrite (weighted_length_root _ root) by done.
  apply huffman_prefix_free_optimal; [done..|].
  intros c Hc. apply (encode_text_Ok_keys input codebook_t bits_t Henc).
  by apply (proj1 (calculate_frequencies_keys input c)).
Qed.

(** X10: the bits that [read_encoded_text] makes of a sequence of bytes,
    eight per byte, are packed by [write_encoded_text] into the same
    bytes, with no padding. *)
Theorem pack_format_08b byte_array :
  Forall (λ byte, (byte < 256)%N) byte_array →
  length (byte_array ≫= format_08b) = 8 * length byte_array
  ∧ pad_length (length (byte_array ≫= format_08b)) = 0
  ∧ pack (byte_array ≫= format_08b) = Ok byte_array.
Proof.
  intros Hbytes. rewrite length_bind_format by done.
  split_and!; [done|apply pad_length_multiple|by apply pack_unpack].
Qed.

(** X11: with any table that has unique keys and is prefix-free, and in
    which every symbol of the text has a non-empty code, [decode_text]
    undoes [encode_text]; bits that follow the encoded text are decoded
    after it. *)
Theorem decode_text_encode_text text codebook rest :
  NoDup (keys codebook) → prefix_free codebook →
  (∀ c, c ∈ text → ∃ code, (c, code) ∈ codebook ∧ code ≠ []) →
  ∃ bits, encode_text text codebook = Ok bits
    ∧ decode_text bits codebook = text
    ∧ decode_text (bits ++ rest) codebook = text ++ decode_text rest codebook.
Proof.
  intros Hnd Hfree Hcodes. exists (text ≫= code_of codebook). split_and!.
  - apply encode_text_total. intros c (code & Hin & _)%Hcodes.
    apply list_elem_of_fmap. by exists (c, code).
  - rewrite <-(app_nil_r (text ≫= _)), decode_text_encoded by done.
    apply app_nil_r.
  - by apply decode_text_encoded.
Qed.

(** X12: with any table that has unique keys, whatever the bits, every
    symbol that [decode_text] returns has a non-empty code in the table,
    and encoding the decoded text gives back the bits that were read, up
    to the bits left unmatched at the end. *)
Theorem decode_text_sound bits codebook :
  NoDup (keys codebook) →
  Forall (λ c, c ∈ keys codebook ∧ code_of codebook c ≠ [])
    (decode_text bits codebook)
  ∧ ∃ encoded residual,
      encode_text (decode_text bits codebook) codebook = Ok encoded
      ∧ bits = encoded ++ residual.
Proof.
  intros Hnd.
  destruct (decode_loop_reencode codebook bits [] [] Hnd) as [Heq Hall].
  cbn zeta in Heq, Hall. specialize (Hall (Forall_nil_2 _)). split; [done|].
  eexists _, _. split.
  - apply encode_text_total. intros c Hc.
    rewrite Forall_forall in Hall. by apply Hall.
  - done.
Qed.

(** X13: with any table, [decode_text] returns at most one symbol per bit,
    and what it returns for the beginning of a bit-string is the beginning
    of what it returns for the whole. *)
Theorem decode_text_streams bits rest codebook :
  length (decode_text bits codebook) ≤ length bits
  ∧ decode_text bits codebook `prefix_of` decode_text (bits ++ rest) codebook.
Proof.
  split; [|apply decode_text_app_prefix].
  apply (decode_loop_length _ bits [] []).
Qed.

(** X14: with the table generated from a frequency table with at least
    two entries, [decode_text] leaves no bit unread but a last, incomplete
    code: whatever the bits, they are the codes of the decoded symbols
    followed by the beginning of a longer code. *)
Theorem decode_text_residual frequencies root codebook bits :
  NoDup (keys frequencies) → 2 ≤ length frequencies →
  build_huffman_tree frequencies = Ok root →
  generate_codes root [] [] = Ok codebook →
  ∃ residual c code,
    bits = (decode_text bits codebook ≫= code_of codebook) ++ residual
    ∧ (c, code) ∈ codebook
    ∧ residual `prefix_of` code ∧ length residual < length code.
Proof.
  intros Hnd Hlen Hbuild Hgen.
  destruct (generated_codebook _ _ _ Hnd Hbuild Hgen)
    as (Hwf & Hl & -> & Hndl & Hndp & _).
  destruct (decode_loop_reencode (paths root []) bits [] [] Hndp) as [Heq _].
  cbn zeta in Heq. cbn [app mbind list_bind] in Heq.
  destruct (decode_loop_residual root bits [] [] Hwf Hndl) as (c & code & Hin & Hpre & Hlt).
  { destruct (paths_leftmost root [] Hwf) as (z & d & Hz%list_elem_of_lookup_2).
    exists z, ([] ++ replicate d false). split_and!; [done|apply prefix_nil|].
    apply (internal_codes_nonempty root z); [done| |done]. by rewrite Hl. }
  eexists _, c, code. split_and!; [|done..]. symmetry. apply Heq.
Qed.


(** X16: [compress_file] succeeds on every text that is not empty.  The
    container is the serialised table followed by the payload, and the
    payload has one byte for every 8 code bits, rounded up, where the
    number of code bits is the sum of the frequencies of the merged nodes
    of the tree. *)
Theorem compress_file_size input :
  input ≠ [] →
  ∃ root codebook byte_array,
    build_huffman_tree (calculate_frequencies input).1 = Ok root
    ∧ generate_codes root [] [] = Ok codebook
    ∧ encode_text input codebook = Ok (input ≫= code_of codebook)
    ∧ length (input ≫= code_of codebook) = tree_cost root
    ∧ compress_file input = Ok (write_header codebook ++ byte_array)
    ∧ length byte_array = (tree_cost root + 7) / 8.
Proof.
  intros Hne.
  destruct (compress_file_spec input Hne)
    as (root & byte_array & Hb & Hwf & Hl & Hg & _ & _ & _ & He & Hp & Hc).
  assert (length (input ≫= code_of (paths root [])) = tree_cost root) as Hbits.
  { rewrite encoded_length. apply weighted_length_root; [|done..].
    apply calculate_frequencies_NoDup. }
  exists root, (paths root []), byte_array. split_and!; [done..|].
  by rewrite (pack_length _ _ Hp), Hbits.
Qed.

(** X17: a text that repeats one symbol is compressed into the header
    alone, the table that gives the symbol the empty code, with no payload
    byte; decompressing that container gives the empty text. *)
Theorem single_symbol_text_lost (c : Symbol) (k : nat) :
  compress_file (replicate (S k) c) = Ok (write_header [(c, [])])
  ∧ decompress_file (write_header [(c, [])]) = Ok [].
Proof.
  split.
  - unfold compress_file, calculate_frequencies. cbn [replicate fold_left].
    unfold count_char at 2. cbn [dict_get dict_set default].
    rewrite count_char_replicate.
    change (build_huffman_tree [(c, 0 + 1 + k)])
      with (Ok (mkNode (Some c) (0 + 1 + k) None None)).
    cbn [mbind result_bind generate_codes dict_set].
    unfold write_encoded_text. rewrite encode_text_total.
    + change (c :: replicate k c) with (replicate (S k) c).
      rewrite bind_replicate_nil.
      * cbn. by rewrite app_nil_r.
      * unfold code_of. cbn [dict_get]. by rewrite decide_True.
    + intros x Hx. change (c :: replicate k c) with (replicate (S k) c) in Hx.
      apply elem_of_replicate_inv in Hx as ->. left.
  - rewrite <-(app_nil_r (write_header _)), decompress_file_written. done.
Qed.
End Further.

(** ** The properties on "abracadabra" *)

Section FurtherExamples.
Import Sample.
Local Open Scope char_scope.
Local Open Scope list_scope.

Ltac wf_tree :=
  repeat match goal with
  | |- well_formed (mkNode None _ (Some ?l) (Some ?r)) => apply (wf_internal l r)
  | |- well_formed (mkNode (Some ?c) ?f None None) => apply (wf_leaf c f)
  end.

Lemma well_formed_abracadabra_tree : well_formed abracadabra_tree.
Proof. unfold abracadabra_tree. wf_tree. Qed.

Lemma NoDup_abracadabra_codebook : NoDup (keys abracadabra_codebook).
Proof. apply (bool_decide_unpack _). vm_compute. exact I. Qed.

Lemma prefix_free_abracadabra : prefix_free abracadabra_codebook.
Proof.
  apply (paths_prefix_free abracadabra_tree []).
  - apply well_formed_abracadabra_tree.
  - apply (bool_decide_unpack _). vm_compute. exact I.
Qed.

Lemma codes_abracadabra (c : ascii) :
  c ∈ abracadabra → ∃ code, (c, code) ∈ abracadabra_codebook ∧ code ≠ [].
Proof.
  intros Hc.
  repeat (apply elem_of_cons in Hc as [->|Hc];
          [eexists; split;
             [apply dict_get_Some_elem_of; vm_compute; reflexivity|done]|]).
  by apply elem_of_nil in Hc.
Qed.

Lemma decode_text_encode_text_witness :
  NoDup (keys abracadabra_codebook) ∧ prefix_free abracadabra_codebook
  ∧ (∀ c, c ∈ abracadabra → ∃ code, (c, code) ∈ abracadabra_codebook ∧ code ≠ [])
  ∧ ∃ bits, encode_text abracadabra abracadabra_codebook = Ok bits
      ∧ decode_text bits abracadabra_codebook = abracadabra
      ∧ decode_text (bits ++ [true; false]) abracadabra_codebook
        = abracadabra ++ decode_text [true; false] abracadabra_codebook.
Proof.
  split; [exact NoDup_abracadabra_codebook|].
  split; [exact prefix_free_abracadabra|].
  split; [exact codes_abracadabra|].
  apply (decode_text_encode_text abracadabra abracadabra_codebook [true; false]).
  - exact NoDup_abracadabra_codebook.
  - exact prefix_free_abracadabra.
  - exact codes_abracadabra.
Defined.

Lemma decode_text_sound_witness :
  let bits := [true; false; true; false; true] in
  NoDup (keys abracadabra_codebook)
  ∧ Forall (λ c, c ∈ keys abracadabra_codebook ∧ code_of abracadabra_codebook c ≠ [])
      (decode_text bits abracadabra_codebook)
  ∧ ∃ encoded residual,
      encode_text (decode_text bits abracadabra_codebook) abracadabra_codebook
      = Ok encoded
      ∧ bits = encoded ++ residual.
Proof.
  intros bits. split; [exact NoDup_abracadabra_codebook|].
  apply (decode_text_sound bits abracadabra_codebook).
  exact NoDup_abracadabra_codebook.
Defined.

Lemma pack_format_08b_witness :
  let byte_array := [124; 168; 248]%N in
  Forall (λ byte, (byte < 256)%N) byte_array
  ∧ length (byte_array ≫= format_08b) = 8 * length byte_array
  ∧ pad_length (length (byte_array ≫= format_08b)) = 0
  ∧ pack (byte_array ≫= format_08b) = Ok byte_array.
Proof.
  intros byte_array.
  assert (Forall (λ byte, (byte < 256)%N) byte_array) as Hbytes
    by (repeat constructor).
  split; [exact Hbytes|]. apply (pack_format_08b byte_array Hbytes).
Defined.


Lemma encode_text_length_witness :
  let bits := abracadabra ≫= code_of abracadabra_codebook in
  encode_text abracadabra abracadabra_codebook = Ok bits
  ∧ length bits
    = weighted_length (calculate_frequencies abracadabra).1 abracadabra_codebook.
Proof.
  intros bits. split; [vm_compute; reflexivity|].
  apply (encode_text_length abracadabra abracadabra_codebook bits).
  vm_compute. reflexivity.
Defined.

Lemma code_length_bounds_witness :
  let frequencies := (calculate_frequencies abracadabra).1 in
  NoDup (keys frequencies)
  ∧ build_huffman_tree frequencies = Ok abracadabra_tree
  ∧ generate_codes abracadabra_tree [] [] = Ok abracadabra_codebook
  ∧ ("b", [true; true; true]) ∈ abracadabra_codebook
  ∧ length [true; true; true] + 1 ≤ length frequencies
  ∧ (2 ≤ length frequencies → 1 ≤ length [true; true; true]).
Proof.
  intros frequencies.
  assert (("b", [true; true; true]) ∈ abracadabra_codebook) as Hin
    by (apply dict_get_Some_elem_of; vm_compute; reflexivity).
  split; [exact NoDup_abracadabra|].
  split; [vm_compute; reflexivity|].
  split; [vm_compute; reflexivity|].
  split; [exact Hin|].
  apply (code_length_bounds frequencies abracadabra_tree abracadabra_codebook
           "b" [true; true; true]).
  - exact NoDup_abracadabra.
  - vm_compute. reflexivity.
  - vm_compute. reflexivity.
  - exact Hin.
Defined.

Lemma prefix_free_abracadabra_fixed : prefix_free abracadabra_fixed.
Proof.
  intros c1 c2 code1 code2 H1 H2 [k Hk].
  repeat (apply elem_of_cons in H1 as [[= -> ->]|H1]);
    try (by apply elem_of_nil in H1);
    repeat (apply elem_of_cons in H2 as [[= -> ->]|H2]);
    try (by apply elem_of_nil in H2); try done; congruence.
Qed.

Lemma build_huffman_tree_optimal_witness :
  let frequencies := (calculate_frequencies abracadabra).1 in
  NoDup (keys frequencies)
  ∧ build_huffman_tree frequencies = Ok abracadabra_tree
  ∧ prefix_free abracadabra_fixed
  ∧ (∀ c, c ∈ keys frequencies → c ∈ keys abracadabra_fixed)
  ∧ ∃ codebook,
      generate_codes abracadabra_tree [] [] = Ok codebook
      ∧ weighted_length frequencies codebook = tree_cost abracadabra_tree
      ∧ weighted_length frequencies codebook
        ≤ weighted_length frequencies abracadabra_fixed.
Proof.
  intros frequencies.
  assert (∀ c, c ∈ keys frequencies → c ∈ keys abracadabra_fixed) as Hkeys.
  { intros c Hc. vm_compute in Hc. vm_compute. exact Hc. }
  split; [exact NoDup_abracadabra|].
  split; [vm_compute; reflexivity|].
  split; [exact prefix_free_abracadabra_fixed|].
  split; [exact Hkeys|].
  apply (build_huffman_tree_optimal frequencies abracadabra_tree abracadabra_fixed).
  - exact NoDup_abracadabra.
  - vm_compute. reflexivity.
  - exact prefix_free_abracadabra_fixed.
  - exact Hkeys.
Defined.

Lemma huffman_code_shortest_witness :
  let bits_t := abracadabra ≫= code_of abracadabra_fixed in
  abracadabra ≠ [] ∧ prefix_free abracadabra_fixed
  ∧ encode_text abracadabra abracadabra_fixed = Ok bits_t
  ∧ ∃ root codebook bits,
      build_huffman_tree (calculate_frequencies abracadabra).1 = Ok root
      ∧ generate_codes root [] [] = Ok codebook
      ∧ encode_text abracadabra codebook = Ok bits
      ∧ length bits ≤ length bits_t.
Proof.
  intros bits_t.
  split; [by vm_compute|].
  split; [exact prefix_free_abracadabra_fixed|].
  split; [vm_compute; reflexivity|].
  apply (huffman_code_shortest abracadabra abracadabra_fixed bits_t).
  - by vm_compute.
  - exact prefix_free_abracadabra_fixed.
  - vm_compute. reflexivity.
Defined.

Lemma decode_text_residual_witness :
  let frequencies := (calculate_frequencies abracadabra).1 in
  let bits := [true; false; true; false; true] in
  NoDup (keys frequencies) ∧ 2 ≤ length frequencies
  ∧ build_huffman_tree frequencies = Ok abracadabra_tree
  ∧ generate_codes abracadabra_tree [] [] = Ok abracadabra_codebook
  ∧ ∃ residual c code,
      bits = (decode_text bits abracadabra_codebook ≫= code_of abracadabra_codebook)
             ++ residual
      ∧ (c, code) ∈ abracadabra_codebook
      ∧ residual `prefix_of` code ∧ length residual < length code.
Proof.
  intros frequencies bits.
  assert (2 ≤ length frequencies) as Hlen by (vm_compute; lia).
  split; [exact NoDup_abracadabra|].
  split; [exact Hlen|].
  split; [vm_compute; reflexivity|].
  split; [vm_compute; reflexivity|].
  apply (decode_text_residual frequencies abracadabra_tree abracadabra_codebook bits).
  - exact NoDup_abracadabra.
  - exact Hlen.
  - vm_compute. reflexivity.
  - vm_compute. reflexivity.
Defined.

Lemma compress_file_size_witness :
  abracadabra ≠ []
  ∧ ∃ root codebook byte_array,
      build_huffman_tree (calculate_frequencies abracadabra).1 = Ok root
      ∧ generate_codes root [] [] = Ok codebook
      ∧ encode_text abracadabra codebook = Ok (abracadabra ≫= code_of codebook)
      ∧ length (abracadabra ≫= code_of codebook) = tree_cost root
      ∧ compress_file abracadabra = Ok (write_header codebook ++ byte_array)
      ∧ length byte_array = (tree_cost root + 7) / 8.
Proof.
  split; [by vm_compute|].
  apply (compress_file_size abracadabra). by vm_compute.
Defined.

Lemma frequent_symbols_short_codes_witness :
  let frequencies := (calculate_frequencies abracadabra).1 in
  NoDup (keys frequencies)
  ∧ build_huffman_tree frequencies = Ok abracadabra_tree
  ∧ generate_codes abracadabra_tree [] [] = Ok abracadabra_codebook
  ∧ ("c", 1) ∈ frequencies ∧ ("a", 5) ∈ frequencies
  ∧ ("c", [true; false; true]) ∈ abracadabra_codebook
  ∧ ("a", [false]) ∈ abracadabra_codebook
  ∧ 1 < 5
  ∧ length [false] ≤ length [true; false; true].
Proof.
  intros frequencies.
  assert (("c", 1) ∈ frequencies) as Hc
    by (apply dict_get_Some_elem_of; vm_compute; reflexivity).
  assert (("a", 5) ∈ frequencies) as Ha
    by (apply dict_get_Some_elem_of; vm_compute; reflexivity).
  assert (("c", [true; false; true]) ∈ abracadabra_codebook) as Hcc
    by (apply dict_get_Some_elem_of; vm_compute; reflexivity).
  assert (("a", [false]) ∈ abracadabra_codebook) as Hca
    by (apply dict_get_Some_elem_of; vm_compute; reflexivity).
  split; [exact NoDup_abracadabra|].
  split; [vm_compute; reflexivity|].
  split; [vm_compute; reflexivity|].
  split; [exact Hc|]. split; [exact Ha|]. split; [exact Hcc|]. split; [exact Hca|].
  split; [lia|].
  apply (frequent_symbols_short_codes frequencies abracadabra_tree
           abracadabra_codebook "c" "a" 1 5 [true; false; true] [false]).
  - exact NoDup_abracadabra.
  - vm_compute. reflexivity.
  - vm_compute. reflexivity.
  - exact Hc.
  - exact Ha.
  - exact Hcc.
  - exact Hca.
  - lia.
Defined.

Lemma generate_codes_kraft_witness :
  let frequencies := (calculate_frequencies abracadabra).1 in
  NoDup (keys frequencies)
  ∧ build_huffman_tree frequencies = Ok abracadabra_tree
  ∧ generate_codes abracadabra_tree [] [] = Ok abracadabra_codebook
  ∧ (∀ c code, (c, code) ∈ abracadabra_codebook → length code ≤ 3)
  ∧ sum_list ((λ entry, 2 ^ (3 - length entry.2)) <$> abracadabra_codebook) = 2 ^ 3.
Proof.
  intros frequencies.
  assert (∀ c code, (c, code) ∈ abracadabra_codebook → length code ≤ 3) as Hlen.
  { intros c code Hin.
    repeat (apply elem_of_cons in Hin as [[= -> ->]|Hin]; [simpl; lia|]).
    by apply elem_of_nil in Hin. }
  split; [exact NoDup_abracadabra|].
  split; [vm_compute; reflexivity|].
  split; [vm_compute; reflexivity|].
  split; [exact Hlen|].
  apply (generate_codes_kraft frequencies abracadabra_tree abracadabra_codebook 3).
  - exact NoDup_abracadabra.
  - vm_compute. reflexivity.
  - vm_compute. reflexivity.
  - exact Hlen.
Defined.

Lemma generate_codes_prepends_witness :
  well_formed abracadabra_tree ∧ NoDup (leaves abracadabra_tree).*1
  ∧ generate_codes abracadabra_tree [] [] = Ok abracadabra_codebook
  ∧ generate_codes abracadabra_tree [true; false] []
    = Ok ((λ entry, (entry.1, [true; false] ++ entry.2)) <$> abracadabra_codebook).
Proof.
  assert (NoDup (leaves abracadabra_tree).*1) as Hnd
    by (apply (bool_decide_unpack _); vm_compute; exact I).
  split; [exact well_formed_abracadabra_tree|].
  split; [exact Hnd|].
  split; [vm_compute; reflexivity|].
  apply (generate_codes_prepends abracadabra_tree [true; false] abracadabra_codebook).
  - exact well_formed_abracadabra_tree.
  - exact Hnd.
  - vm_compute. reflexivity.
Defined.

(** Whatever the serialiser, the output write does fail on a table with a
    surrogate: with the table that gives U+D800 the code 0 and "b" the
    code 1, followed by one zero byte, the header is read, eight
    surrogates are decoded, and [UnicodeEncodeError] is raised. *)
Lemma surrogate_key_raises `{!Pickle (dict N (list bool))} :
  let codebook := [(55296%N, [false]); (98%N, [true])] in
  read_header (write_header codebook ++ [0%N]) = Ok codebook
  ∧ read_encoded_text (write_header codebook ++ [0%N]) codebook
    = replicate 8 55296%N
  ∧ decompress_file (write_header codebook ++ [0%N]) = Raise UnicodeEncodeError.
Proof.
  intros codebook. split; [apply read_header_written|].
  rewrite read_encoded_text_written, decompress_file_written.
  split; vm_compute; reflexivity.
Qed.
End FurtherExamples.
